(** * Team0rion tournament brackets: the bracket engine and its storage service

    A shallow embedding of [services/tournamentService.ts] (bracket
    generation, match advancement, match reversal, tournament update,
    tournament creation, player management, the animation flags and the
    password checks) and of the records of [types.ts], followed by the
    properties the specification states about them and by further
    properties of the service.

    Modelling conventions.
    - A JavaScript [number] that holds a length, a loop counter or an array
      position is a [nat]; a [number] that is stored data or takes part in a
      subtraction (seeds, match and round indices, scores) is a [Z].
      [Math.pow(2, Math.ceil(Math.log2 n))] is taken as exact:
      [2 ^ Z.log2_up n].
    - An optional or nullable field ([winnerId?: string | null]) is an
      [option]; [None] stands for both [null] and [undefined], which the
      service never tells apart: it only tests such fields for truthiness or
      compares player slots with [null], and JSON storage turns an
      [undefined] array element into [null].
    - Local storage is the list of stored tournaments; reading parses it and
      writing replaces it.  [JSON.parse(JSON.stringify x)] is the identity
      on such data.  Positions (round, index) identify the match objects of a
      bracket copy, so in-place mutation is a functional update at a
      position.
    - A value the service draws at random ([generateId()]) or reads from
      the stored assets is an argument of the call.  [simpleHash] is a
      parameter: [btoa] of the lower-cased string, which throws on a
      character outside Latin-1. *)

From Equations Require Import Equations.
From Stdlib Require Import Ascii Zquot.
From stdpp Require Import base numbers list strings pretty sorting.

(** ** JavaScript primitives used by the service *)

(** Truthiness of a [string | null | undefined]: [null], [undefined] and the
    empty string are falsy.  A truthy value is returned as the string it
    holds. *)
Definition truthy (v : option string) : option string :=
  match v with
  | Some s => if decide (s = EmptyString) then None else Some s
  | None => None
  end.

(** Truthiness of an optional boolean flag. *)
Definition flag (v : option bool) : bool := default false v.

(** [a[i] = v] on an array: in range it overwrites, out of range it extends
    the array, and the holes it leaves read as [hole]. *)
Definition array_set {A} (hole : A) (i : nat) (v : A) (a : list A) : list A :=
  if decide (i < length a) then <[i:=v]> a
  else a ++ replicate (i - length a) hole ++ [v].

(** [a[i]] for a numeric index: [undefined] (here [None]) outside the array. *)
Definition array_get {A} (a : list A) (i : Z) : option A :=
  if decide (0 ≤ i)%Z then a !! Z.to_nat i else None.

(** [a.indexOf(v)] as an option: the first position holding [v]. *)
Definition indexOf {A} `{EqDecision A} (v : A) (a : list A) : option nat :=
  fst <$> list_find (λ x, x = v) a.

(** The template literal [`${r}W${m}`] on integers. *)
Definition match_label (r m : Z) : string := pretty r +:+ "W" +:+ pretty m.

(** ** types.ts *)

Inductive TournamentType := SINGLE_ELIMINATION.

Inductive MatchFormat := BEST_OF_1 | BEST_OF_3 | BEST_OF_5 | BEST_OF_7.

Inductive TournamentStatus :=
  DRAFT | REGISTRATION_OPEN | IN_PROGRESS | COMPLETED | ARCHIVED.

Global Instance TournamentStatus_eq_dec : EqDecision TournamentStatus.
Proof. solve_decision. Defined.

Record Player := mkPlayer {
  p_id : string;
  gamertag : string;
  discordOrIGN : option string;
  icon : string;
  seed : Z;
  selfReportingPasswordHash : string
}.

Record Match := mkMatch {
  m_id : string;
  roundIndex : Z;
  matchIndex : Z;
  m_players : list (option string);
  scores : list Z;
  winnerId : option string;
  isBye : option bool;
  nextMatchId : option string;
  justCompleted : option bool;
  isGrandFinals : option bool
}.

Record Bracket := mkBracket { winners : list (list Match) }.

Record Tournament := mkTournament {
  t_id : string;
  name : string;
  gameTitle : string;
  platforms : list string;
  tournamentType : TournamentType;
  matchFormat : MatchFormat;
  startDate : string;
  endDate : option string;
  description : string;
  discordLink : option string;
  adminPasswordHash : string;
  logoUrl : option string;
  bannerUrl : option string;
  backgroundUrl : string;
  rules : option string;
  prizePool : option string;
  status : TournamentStatus;
  t_players : list Player;
  bracket : option Bracket;
  announcements : string;
  isCitiesTournament : option bool
}.

(** [Partial<Tournament>]: every key may be absent ([None]); a present key
    carries its value, which for an optional field may itself be
    [undefined]. *)
Record TournamentUpdates := mkUpdates {
  u_id : option string;
  u_name : option string;
  u_gameTitle : option string;
  u_platforms : option (list string);
  u_tournamentType : option TournamentType;
  u_matchFormat : option MatchFormat;
  u_startDate : option string;
  u_endDate : option (option string);
  u_description : option string;
  u_discordLink : option (option string);
  u_adminPasswordHash : option string;
  u_logoUrl : option (option string);
  u_bannerUrl : option (option string);
  u_backgroundUrl : option string;
  u_rules : option (option string);
  u_prizePool : option (option string);
  u_status : option TournamentStatus;
  u_players : option (list Player);
  u_bracket : option (option Bracket);
  u_announcements : option string;
  u_isCitiesTournament : option (option bool)
}.

(** Field assignments on a match object. *)
Definition set_winnerId (w : option string) (m : Match) : Match :=
  mkMatch (m_id m) (roundIndex m) (matchIndex m) (m_players m) (scores m) w
    (isBye m) (nextMatchId m) (justCompleted m) (isGrandFinals m).

Definition set_scores (s : list Z) (m : Match) : Match :=
  mkMatch (m_id m) (roundIndex m) (matchIndex m) (m_players m) s (winnerId m)
    (isBye m) (nextMatchId m) (justCompleted m) (isGrandFinals m).

Definition set_justCompleted (j : bool) (m : Match) : Match :=
  mkMatch (m_id m) (roundIndex m) (matchIndex m) (m_players m) (scores m)
    (winnerId m) (isBye m) (nextMatchId m) (Some j) (isGrandFinals m).

Definition set_players (ps : list (option string)) (m : Match) : Match :=
  mkMatch (m_id m) (roundIndex m) (matchIndex m) ps (scores m) (winnerId m)
    (isBye m) (nextMatchId m) (justCompleted m) (isGrandFinals m).

Definition set_nextMatchId (n : string) (m : Match) : Match :=
  mkMatch (m_id m) (roundIndex m) (matchIndex m) (m_players m) (scores m)
    (winnerId m) (isBye m) (Some n) (justCompleted m) (isGrandFinals m).

Definition set_isGrandFinals (m : Match) : Match :=
  mkMatch (m_id m) (roundIndex m) (matchIndex m) (m_players m) (scores m)
    (winnerId m) (isBye m) (nextMatchId m) (justCompleted m) (Some true).

(** ** Bracket generation *)

(** One pass of the seeding loop: [nextRound.push(seed, sum - seed)] for
    every seed of the last round, with [sum = lastRound.length * 2 + 1]. *)
Definition next_seeding_round (lastRound : list Z) : list Z :=
  let sum := (Z.of_nat (length lastRound) * 2 + 1)%Z in
  seed ← lastRound; [seed; (sum - seed)%Z].

Lemma next_seeding_round_length l :
  length (next_seeding_round l) = 2 * length l.
Proof.
  unfold next_seeding_round.
  generalize (Z.of_nat (length l) * 2 + 1)%Z as s; intros s.
  induction l as [|x l IH]; csimpl; [done|]. rewrite IH. lia.
Qed.

Lemma next_seeding_round_nonempty l : l ≠ [] → next_seeding_round l ≠ [].
Proof.
  intros Hl E. apply (f_equal length) in E.
  rewrite next_seeding_round_length in E. destruct l; simpl in *; [done|lia].
Qed.

(** The loop [while (rounds[rounds.length - 1].length < size)].  Only the
    last element of [rounds] is ever read, so the loop state is that last
    round.  It is non-empty (it starts as [[1, 2]] and every pass doubles
    it), which is what makes the loop terminate. *)
Equations? seeding_rounds (size : Z) (lastRound : list Z)
    (Hne : lastRound ≠ []) : list Z
  by wf (Z.to_nat (size - Z.of_nat (length lastRound))) lt :=
  seeding_rounds size lastRound Hne
    with decide (Z.of_nat (length lastRound) < size)%Z => {
    | left _ := seeding_rounds size (next_seeding_round lastRound)
                  (next_seeding_round_nonempty _ Hne)
    | right _ := lastRound }.
Proof.
  rewrite next_seeding_round_length.
  destruct lastRound; simpl in *; [done|lia].
Qed.

Lemma first_seeding_round_nonempty : [1%Z; 2%Z] ≠ [].
Proof. done. Qed.

Definition getStandardSeedingOrder (size : Z) : list Z :=
  if decide (size < 2)%Z then (if decide (size = 1)%Z then [1%Z] else [])
  else seeding_rounds size [1%Z; 2%Z] first_seeding_round_nonempty.

(** [[...players].sort((a, b) => a.seed - b.seed)]: a stable sort by
    ascending seed, written as the insertion sort that keeps the input order
    of equal seeds. *)
Fixpoint insert_by_seed (p : Player) (l : list Player) : list Player :=
  match l with
  | [] => [p]
  | q :: l' =>
      if decide (seed p ≤ seed q)%Z then p :: l else q :: insert_by_seed p l'
  end.

Definition sort_by_seed (l : list Player) : list Player :=
  foldr insert_by_seed [] l.

(** [while (playerIds.length < bracketSize) playerIds.push(null)]. *)
Definition pad_with_byes (bracketSize : Z) (playerIds : list (option string))
  : list (option string) :=
  playerIds ++ replicate (Z.to_nat bracketSize - length playerIds) None.

(** A read of a player slot; a read outside the array gives [undefined],
    merged here with the [null] of a bye (see [finalPlayerOrder_in_range]:
    the reads of [generateBracket] stay inside). *)
Definition slot_at (a : list (option string)) (i : Z) : option string :=
  mjoin (array_get a i).

(** The body of the first-round loop at counter [i]. *)
Definition first_round_match (finalPlayerOrder : list (option string))
    (i : nat) : Match :=
  let p1 := slot_at finalPlayerOrder (Z.of_nat i * 2) in
  let p2 := slot_at finalPlayerOrder (Z.of_nat i * 2 + 1) in
  let bye := (bool_decide (p1 ≠ None) && bool_decide (p2 = None))
             || (bool_decide (p1 = None) && bool_decide (p2 ≠ None)) in
  {| m_id := match_label 1 (Z.of_nat i + 1);
     roundIndex := 0;
     matchIndex := Z.of_nat i;
     m_players := [p1; p2];
     scores := [0%Z; 0%Z];
     winnerId := if bye then (if bool_decide (p1 ≠ None) then p1 else p2)
                 else None;
     isBye := Some bye;
     nextMatchId := None;
     justCompleted := None;
     isGrandFinals := None |}.

(** The body of the later-round loop for the pair starting at [i = 2 * k]
    of the previous round. *)
Definition later_round_match (roundIndex : Z) (previousRound : list Match)
    (k : nat) : Match :=
  let i := 2 * k in
  let slot0 :=
    match previousRound !! i with
    | Some prev => if flag (isBye prev) then winnerId prev else None
    | None => None
    end in
  let slot1 :=
    match previousRound !! (i + 1) with
    | Some prev => if flag (isBye prev) then winnerId prev else None
    | None => None
    end in
  {| m_id := match_label (roundIndex + 1) (Z.of_nat k + 1);
     roundIndex := roundIndex;
     matchIndex := Z.of_nat k;
     m_players := [slot0; slot1];
     scores := [0%Z; 0%Z];
     winnerId := None;
     isBye := None;
     nextMatchId := None;
     justCompleted := None;
     isGrandFinals := None |}.

(** [for (let i = 0; i < previousRound.length; i += 2)]: one match per
    started pair. *)
Definition later_round (roundIndex : Z) (previousRound : list Match)
  : list Match :=
  later_round_match roundIndex previousRound
    <$> seq 0 ((length previousRound + 1) / 2).

Lemma later_round_length r prev :
  length (later_round r prev) = (length prev + 1) / 2.
Proof. unfold later_round. by rewrite length_fmap, length_seq. Qed.

(** [while (winnersBracket[winnersBracket.length - 1].length > 1)]: the
    rounds pushed after [previousRound]. *)
Equations? later_rounds (roundIndex : Z) (previousRound : list Match)
  : list (list Match) by wf (length previousRound) lt :=
  later_rounds roundIndex previousRound
    with decide (1 < length previousRound) => {
    | left _ := later_round roundIndex previousRound
                :: later_rounds (roundIndex + 1)
                     (later_round roundIndex previousRound)
    | right _ := [] }.
Proof.
  rewrite later_round_length.
  apply Nat.Div0.div_lt_upper_bound; lia.
Qed.

(** The loop that points every match of a non-final round to its parent:
    [winnersBracket[r][m].nextMatchId = `${r + 2}W${Math.floor(m / 2) + 1}`]
    for [r < winnersBracket.length - 1]. *)
Definition link_next_matches (winnersBracket : list (list Match))
  : list (list Match) :=
  imap (λ r round,
          if decide (r < length winnersBracket - 1) then
            imap (λ m mt,
                    set_nextMatchId
                      (match_label (Z.of_nat r + 2) (Z.of_nat (m / 2) + 1)) mt)
                 round
          else round)
       winnersBracket.

(** [finalMatch = winnersBracket[winnersBracket.length - 1][0]], flagged
    when it exists. *)
Definition mark_grand_finals (winnersBracket : list (list Match))
  : list (list Match) :=
  alter (alter set_isGrandFinals 0) (length winnersBracket - 1) winnersBracket.

Definition bracket_size (numPlayers : nat) : Z :=
  (2 ^ Z.log2_up (Z.of_nat numPlayers))%Z.

Definition final_player_order (players : list Player) : list (option string) :=
  let bracketSize := bracket_size (length players) in
  let sortedPlayers := sort_by_seed players in
  let playerIds := pad_with_byes bracketSize ((λ p, Some (p_id p)) <$> sortedPlayers) in
  let seedOrder := getStandardSeedingOrder bracketSize in
  (λ seed, slot_at playerIds (seed - 1)) <$> seedOrder.

(** The first round: [for (let i = 0; i < bracketSize / 2; i++)]; the
    bound is a real-number quotient, so the counter runs over
    [ceil (bracketSize / 2)] values. *)
Definition first_round (players : list Player) : list Match :=
  let bracketSize := bracket_size (length players) in
  first_round_match (final_player_order players)
    <$> seq 0 (Z.to_nat ((bracketSize + 1) / 2)).

Definition generateBracket (players : list Player) : Bracket :=
  let numPlayers := length players in
  if decide (numPlayers < 2) then {| winners := [] |}
  else
    let firstRound := first_round players in
    let winnersBracket := firstRound :: later_rounds 1 firstRound in
    {| winners := mark_grand_finals (link_next_matches winnersBracket) |}.

(** ** The storage service *)

(** A service call runs on the stored tournament list and either returns
    or throws; the list it leaves behind is part of the outcome. *)
Inductive result (A : Type) :=
  | Return (a : A)
  | Throw (message : string).
Arguments Return {A} a.
Arguments Throw {A} message.

Definition Service (A : Type) : Type :=
  list Tournament → list Tournament * result A.

Global Instance service_ret : MRet Service := λ A a store, (store, Return a).

Global Instance service_bind : MBind Service := λ A B k c store,
  match c store with
  | (store', Return a) => k a store'
  | (store', Throw message) => (store', Throw message)
  end.

Definition throw {A} (message : string) : Service A :=
  λ store, (store, Throw message).

(** [getFromStorage('tournaments', [])] and [setToStorage('tournaments', v)]. *)
Definition getFromStorage : Service (list Tournament) :=
  λ store, (store, Return store).

Definition setToStorage (v : list Tournament) : Service unit :=
  λ _, (v, Return ()).

(** [{ ...t, ...updates }] *)
Definition merge_updates (t : Tournament) (u : TournamentUpdates) : Tournament :=
  {| t_id := default (t_id t) (u_id u);
     name := default (name t) (u_name u);
     gameTitle := default (gameTitle t) (u_gameTitle u);
     platforms := default (platforms t) (u_platforms u);
     tournamentType := default (tournamentType t) (u_tournamentType u);
     matchFormat := default (matchFormat t) (u_matchFormat u);
     startDate := default (startDate t) (u_startDate u);
     endDate := default (endDate t) (u_endDate u);
     description := default (description t) (u_description u);
     discordLink := default (discordLink t) (u_discordLink u);
     adminPasswordHash := default (adminPasswordHash t) (u_adminPasswordHash u);
     logoUrl := default (logoUrl t) (u_logoUrl u);
     bannerUrl := default (bannerUrl t) (u_bannerUrl u);
     backgroundUrl := default (backgroundUrl t) (u_backgroundUrl u);
     rules := default (rules t) (u_rules u);
     prizePool := default (prizePool t) (u_prizePool u);
     status := default (status t) (u_status u);
     t_players := default (t_players t) (u_players u);
     bracket := default (bracket t) (u_bracket u);
     announcements := default (announcements t) (u_announcements u);
     isCitiesTournament := default (isCitiesTournament t) (u_isCitiesTournament u) |}.

Definition set_status (s : TournamentStatus) (t : Tournament) : Tournament :=
  mkTournament (t_id t) (name t) (gameTitle t) (platforms t) (tournamentType t)
    (matchFormat t) (startDate t) (endDate t) (description t) (discordLink t)
    (adminPasswordHash t) (logoUrl t) (bannerUrl t) (backgroundUrl t) (rules t)
    (prizePool t) s (t_players t) (bracket t) (announcements t)
    (isCitiesTournament t).

Definition set_bracket (b : option Bracket) (t : Tournament) : Tournament :=
  mkTournament (t_id t) (name t) (gameTitle t) (platforms t) (tournamentType t)
    (matchFormat t) (startDate t) (endDate t) (description t) (discordLink t)
    (adminPasswordHash t) (logoUrl t) (bannerUrl t) (backgroundUrl t) (rules t)
    (prizePool t) (status t) (t_players t) b (announcements t)
    (isCitiesTournament t).

(** The [updates] object [{ bracket: newBracket }]. *)
Definition bracket_update (b : Bracket) : TournamentUpdates :=
  mkUpdates None None None None None None None None None None None None None
    None None None None None (Some (Some b)) None None.

(** The [updates] object [{ status: s }] the admin page sends. *)
Definition status_update (s : TournamentStatus) : TournamentUpdates :=
  mkUpdates None None None None None None None None None None None None None
    None None None (Some s) None None None None.

(** The body of the [map] callback of [updateTournament] for a tournament
    whose id matches.  The [alert] of the refused start is not modelled. *)
Definition apply_updates (updates : TournamentUpdates) (t : Tournament)
  : Tournament :=
  let originalStatus := status t in
  let pendingUpdate := merge_updates t updates in
  let isStartingTournament :=
    bool_decide (originalStatus = REGISTRATION_OPEN)
    && bool_decide (status pendingUpdate = IN_PROGRESS) in
  let isRevertingTournament :=
    bool_decide (originalStatus = IN_PROGRESS)
    && bool_decide (status pendingUpdate = REGISTRATION_OPEN) in
  if isStartingTournament then
    if decide (2 ≤ length (t_players pendingUpdate)) then
      let sortedPlayers := sort_by_seed (t_players pendingUpdate) in
      set_bracket (Some (generateBracket sortedPlayers)) pendingUpdate
    else set_status originalStatus pendingUpdate
  else if isRevertingTournament then set_bracket None pendingUpdate
  else pendingUpdate.

(** [updateTournament]: the returned tournament is the last one updated
    (before its asset references are resolved for display, which does not
    touch the store). *)
Definition updateTournament (id : string) (updates : TournamentUpdates)
  : Service (option Tournament) :=
  tournaments ← getFromStorage;
  let newTournaments :=
    (λ t, if decide (t_id t = id) then apply_updates updates t else t)
      <$> tournaments in
  let updatedTournament :=
    last (apply_updates updates <$> filter (λ t, t_id t = id) tournaments) in
  _ ← setToStorage newTournaments;
  mret updatedTournament.

(** [tournaments.find(t => t.id === tournamentId)] *)
Definition find_tournament (tournamentId : string) (tournaments : list Tournament)
  : option Tournament :=
  snd <$> list_find (λ t, t_id t = tournamentId) tournaments.

(** [round.find(m => m.id === matchId)], with the position of the match. *)
Definition find_match (matchId : string) (round : list Match)
  : option (nat * Match) :=
  list_find (λ m, m_id m = matchId) round.

(** [for (const round of rounds) { const match = round.find(...); if (match)
    ... }] stopping at the first round that has one: round position, match
    position and the match. *)
Fixpoint find_in_rounds (matchId : string) (rounds : list (list Match))
  : option (nat * nat * Match) :=
  match rounds with
  | [] => None
  | round :: rest =>
      match find_match matchId round with
      | Some (i, m) => Some (0, i, m)
      | None =>
          match find_in_rounds matchId rest with
          | Some (r, i, m) => Some (S r, i, m)
          | None => None
          end
      end
  end.

(** Mutation of the match object at round [r], position [i]. *)
Definition alter_match (f : Match → Match) (r i : nat)
    (rounds : list (list Match)) : list (list Match) :=
  alter (alter f i) r rounds.

Definition match_at (rounds : list (list Match)) (r i : nat) : option Match :=
  rounds !! r ≫= (.!! i).

(** The three assignments on the reported match. *)
Definition report_result (winner : string) (newScores : list Z) (m : Match)
  : Match :=
  set_justCompleted true (set_scores newScores (set_winnerId (Some winner) m)).

(** [match.matchIndex % 2 === 0 ? 0 : 1]; [%] is the truncated remainder. *)
Definition playerIndexInNextMatch (m : Match) : nat :=
  if decide (Z.rem (matchIndex m) 2 = 0)%Z then 0 else 1.

(** The "Advance Winner" block, run on the bracket copy after the match
    [m] was updated. *)
Definition advance_winner (m : Match) (winner : string)
    (rounds : list (list Match)) : list (list Match) :=
  match truthy (nextMatchId m) with
  | Some next =>
      match find_in_rounds next rounds with
      | Some (r, j, _) =>
          alter_match
            (λ nextMatch,
               set_players
                 (array_set None (playerIndexInNextMatch m) (Some winner)
                    (m_players nextMatch))
                 nextMatch)
            r j rounds
      | None => rounds
      end
  | None => rounds
  end.

Definition findAndAdvance (matchId winner : string) (newScores : list Z)
    (rounds : list (list Match)) : list (list Match) :=
  match find_in_rounds matchId rounds with
  | Some (r, i, _) =>
      let updated := alter_match (report_result winner newScores) r i rounds in
      match match_at updated r i with
      | Some m => advance_winner m winner updated
      | None => updated
      end
  | None => rounds
  end.

Definition updateMatchWinner (tournamentId matchId winner : string)
    (newScores : list Z) : Service (option Tournament) :=
  tournaments ← getFromStorage;
  match find_tournament tournamentId tournaments with
  | Some tourney =>
      match bracket tourney with
      | Some b =>
          let newBracket :=
            mkBracket (findAndAdvance matchId winner newScores (winners b)) in
          updateTournament tournamentId (bracket_update newBracket)
      | None => mret (Some tourney)
      end
  | None => mret None
  end.

(** [p_idx = match.players.indexOf(w); if (p_idx !== -1) match.players[p_idx]
    = null] *)
Definition clear_player (w : string) (ps : list (option string))
  : list (option string) :=
  match indexOf (Some w) ps with
  | Some p_idx => <[p_idx := None]> ps
  | None => ps
  end.

Definition subsequent_played : string :=
  "Cannot reverse this match because a subsequent match has already been played. Please reverse the later match first.".

(** The loop of [checkNextMatch] for a truthy [nextMatchId]: it visits
    every round (there is no [break]), throws at the first round whose
    match of that id has a winner, and otherwise clears the former winner
    from that match. *)
Fixpoint checkNextMatch (nextId originalWinnerId : string)
    (rounds : list (list Match)) : result (list (list Match)) :=
  match rounds with
  | [] => Return []
  | round :: rest =>
      match find_match nextId round with
      | Some (j, m) =>
          match truthy (winnerId m) with
          | Some _ => Throw subsequent_played
          | None =>
              match checkNextMatch nextId originalWinnerId rest with
              | Return rest' =>
                  Return
                    (alter (λ m, set_players
                                   (clear_player originalWinnerId (m_players m)) m)
                       j round :: rest')
              | Throw message => Throw message
              end
          end
      | None =>
          match checkNextMatch nextId originalWinnerId rest with
          | Return rest' => Return (round :: rest')
          | Throw message => Throw message
          end
      end
  end.

(** The three assignments on the reversed match. *)
Definition reset_result (m : Match) : Match :=
  set_justCompleted false (set_scores [0%Z; 0%Z] (set_winnerId None m)).

Definition reverseMatchWinner (tournamentId matchId : string)
  : Service (option Tournament) :=
  tournaments ← getFromStorage;
  match find_tournament tournamentId tournaments ≫= bracket with
  | None => throw "Tournament not found."
  | Some b =>
      match find_in_rounds matchId (winners b) with
      | Some (r, i, matchToReverse) =>
          match truthy (winnerId matchToReverse) with
          | Some originalWinnerId =>
              let checked :=
                match truthy (nextMatchId matchToReverse) with
                | Some nextId =>
                    checkNextMatch nextId originalWinnerId (winners b)
                | None => Return (winners b)
                end in
              match checked with
              | Return rounds =>
                  let newBracket :=
                    mkBracket (alter_match reset_result r i rounds) in
                  updateTournament tournamentId (bracket_update newBracket)
              | Throw message => throw message
              end
          | None => throw "Match not found or it has no winner to reverse."
          end
      | None => throw "Match not found or it has no winner to reverse."
      end
  end.

(** ** Tournaments, players, flags and passwords *)

(** [Partial<Player>] *)
Record PlayerUpdates := mkPlayerUpdates {
  pu_id : option string;
  pu_gamertag : option string;
  pu_discordOrIGN : option (option string);
  pu_icon : option string;
  pu_seed : option Z;
  pu_selfReportingPasswordHash : option string
}.

(** [{ ...p, ...updates }] on a player. *)
Definition merge_player (p : Player) (u : PlayerUpdates) : Player :=
  {| p_id := default (p_id p) (pu_id u);
     gamertag := default (gamertag p) (pu_gamertag u);
     discordOrIGN := default (discordOrIGN p) (pu_discordOrIGN u);
     icon := default (icon p) (pu_icon u);
     seed := default (seed p) (pu_seed u);
     selfReportingPasswordHash :=
       default (selfReportingPasswordHash p) (pu_selfReportingPasswordHash u) |}.

(** [{ ...p, seed: s }] *)
Definition set_seed (s : Z) (p : Player) : Player :=
  mkPlayer (p_id p) (gamertag p) (discordOrIGN p) (icon p) s
    (selfReportingPasswordHash p).

(** The [updates] object [{ seed: s }] that the seeding tab sends. *)
Definition seed_update (s : Z) : PlayerUpdates :=
  mkPlayerUpdates None None None None (Some s) None.

(** The [updates] object [{ players: ps }]. *)
Definition players_update (ps : list Player) : TournamentUpdates :=
  mkUpdates None None None None None None None None None None None None None
    None None None None (Some ps) None None None.

(** The fields of [playerData] in [addPlayer]. *)
Record PlayerData := mkPlayerData {
  d_gamertag : string;
  d_discordOrIGN : option string;
  d_icon : string;
  d_selfReportingPassword : string
}.

(** The [data] argument of [createTournament]: a tournament without [id],
    [adminPasswordHash], [players], [announcements], [bracket] and
    [backgroundUrl], with the plain [adminPassword]. *)
Record TournamentData := mkTournamentData {
  c_name : string;
  c_gameTitle : string;
  c_platforms : list string;
  c_tournamentType : TournamentType;
  c_matchFormat : MatchFormat;
  c_startDate : string;
  c_endDate : option string;
  c_description : string;
  c_discordLink : option string;
  c_logoUrl : option string;
  c_bannerUrl : option string;
  c_rules : option string;
  c_prizePool : option string;
  c_status : TournamentStatus;
  c_isCitiesTournament : option bool;
  c_adminPassword : string
}.

(** A computation that does not touch the store. *)
Definition lift_result {A} (r : result A) : Service A := λ store, (store, r).

Section hashing.
(** [simpleHash = s => btoa(s.toLowerCase())]; [btoa] throws on a character
    outside Latin-1, so a hash is a [result].  The constant
    [SUPER_ADMIN_PASSWORD] comes from [constants.ts]. *)
Variable simpleHash : string → result string.
Variable SUPER_ADMIN_PASSWORD : string.

(** [createTournament]; [gameBackground] is the value read from the stored
    assets, [assets.backgrounds[gameTitle]], and [generatedId] the value
    [generateId()] draws.  The returned tournament is the new one before its
    asset references are resolved for display. *)
Definition createTournament (data : TournamentData)
    (gameBackground : option string) (generatedId : string)
  : Service Tournament :=
  tournaments ← getFromStorage;
  hash ← lift_result (simpleHash (c_adminPassword data));
  let newTournament :=
    {| t_id := generatedId;
       name := c_name data;
       gameTitle := c_gameTitle data;
       platforms := c_platforms data;
       tournamentType := c_tournamentType data;
       matchFormat := c_matchFormat data;
       startDate := c_startDate data;
       endDate := c_endDate data;
       description := c_description data;
       discordLink := c_discordLink data;
       adminPasswordHash := hash;
       logoUrl := c_logoUrl data;
       bannerUrl := gameBackground;
       backgroundUrl := "";
       rules := c_rules data;
       prizePool := c_prizePool data;
       status := c_status data;
       t_players := [];
       bracket := None;
       announcements := "";
       isCitiesTournament := c_isCitiesTournament data |} in
  _ ← setToStorage (tournaments ++ [newTournament]);
  mret newTournament.

(** [addPlayer]; [generatedId] is the value [generateId()] draws.  The
    spread of [playerData] also copies the plain [selfReportingPassword] onto
    the stored object; that property is outside the [Player] interface and is
    not part of the record. *)
Definition addPlayer (tournamentId : string) (playerData : PlayerData)
    (generatedId : string) : Service (option Tournament) :=
  tournaments ← getFromStorage;
  match find_tournament tournamentId tournaments with
  | None => throw "Tournament not found"
  | Some tournament =>
      if decide (status tournament ≠ REGISTRATION_OPEN)
      then throw "Registration is not open for this tournament."
      else
        hash ← lift_result (simpleHash (d_selfReportingPassword playerData));
        let newPlayer :=
          {| p_id := generatedId;
             gamertag := d_gamertag playerData;
             discordOrIGN := d_discordOrIGN playerData;
             icon := d_icon playerData;
             seed := Z.of_nat (length (t_players tournament)) + 1;
             selfReportingPasswordHash := hash |} in
        let updatedPlayers := t_players tournament ++ [newPlayer] in
        updateTournament tournamentId (players_update updatedPlayers)
  end.

(** [compareHash(plain, hashed)] *)
Definition compareHash (plain hashed : string) : result bool :=
  match simpleHash plain with
  | Return h => Return (bool_decide (h = hashed))
  | Throw message => Throw message
  end.

(** The loop of [verifyPlayerPassword] over [match.players]. *)
Fixpoint verify_slots (tournament : Tournament) (password : string)
    (playerIds : list (option string)) : result bool :=
  match playerIds with
  | [] => Return false
  | playerId :: rest =>
      match truthy playerId with
      | None => verify_slots tournament password rest
      | Some pid =>
          match snd <$> list_find (λ p, p_id p = pid) (t_players tournament) with
          | None => verify_slots tournament password rest
          | Some player =>
              match compareHash password (selfReportingPasswordHash player) with
              | Return true => Return true
              | Return false => verify_slots tournament password rest
              | Throw message => Throw message
              end
          end
      end
  end.

(** [verifyPlayerPassword]: the super admin password opens every match. *)
Definition verifyPlayerPassword (tournament : Tournament) (mt : Match)
    (password : string) : result bool :=
  if decide (password = SUPER_ADMIN_PASSWORD) then Return true
  else verify_slots tournament password (m_players mt).

(** [verifyAdminPassword] reads the store and leaves it as it is. *)
Definition verifyAdminPassword (tournamentId password : string)
  : Service bool :=
  if decide (password = SUPER_ADMIN_PASSWORD) then mret true
  else
    tournaments ← getFromStorage;
    match find_tournament tournamentId tournaments with
    | None => mret false
    | Some tournament =>
        lift_result (compareHash password (adminPasswordHash tournament))
    end.
End hashing.

(** [updatePlayer] *)
Definition updatePlayer (tournamentId playerId : string)
    (updates : PlayerUpdates) : Service (option Tournament) :=
  tournaments ← getFromStorage;
  match find_tournament tournamentId tournaments with
  | None => throw "Tournament not found"
  | Some tournament =>
      let updatedPlayers :=
        (λ p, if decide (p_id p = playerId) then merge_player p updates else p)
          <$> t_players tournament in
      updateTournament tournamentId (players_update updatedPlayers)
  end.

(** [removePlayer] *)
Definition removePlayer (tournamentId playerId : string)
  : Service (option Tournament) :=
  tournaments ← getFromStorage;
  match find_tournament tournamentId tournaments with
  | None => throw "Tournament not found"
  | Some tournament =>
      let updatedPlayers :=
        filter (λ p, p_id p ≠ playerId) (t_players tournament) in
      let reseededPlayers :=
        imap (λ index p, set_seed (Z.of_nat index + 1) p) updatedPlayers in
      updateTournament tournamentId (players_update reseededPlayers)
  end.

(** [clearJustCompletedFlags] *)
Definition clearJustCompletedFlags (tournamentId : string)
  : Service (option Tournament) :=
  tournaments ← getFromStorage;
  match find_tournament tournamentId tournaments with
  | Some tourney =>
      match bracket tourney with
      | Some b =>
          let newBracket :=
            mkBracket ((λ round : list Match, set_justCompleted false <$> round)
                         <$> winners b) in
          updateTournament tournamentId (bracket_update newBracket)
      | None => mret (Some tourney)
      end
  | None => mret None
  end.

(** [saveSeeds] of the admin dashboard: [players.forEach(p => updatePlayer(
    tournament.id, p.id, { seed: p.seed }))] over the players shown in the
    seeding tab; an exception stops the loop.  The [alert] and the
    refresh of the page are not modelled. *)
Fixpoint saveSeeds (tournamentId : string) (players : list Player)
  : Service unit :=
  match players with
  | [] => mret ()
  | p :: rest =>
      _ ← updatePlayer tournamentId (p_id p) (seed_update (seed p));
      saveSeeds tournamentId rest
  end.

(** ** Definitions used to state the properties *)

(** The doubling step with its sum as a parameter: every seed is followed
    by its mirror image [c - seed]. *)
Definition mirror (c : Z) (l : list Z) : list Z :=
  seed ← l; [seed; (c - seed)%Z].

(** What one doubling step preserves: the seeds are exactly [1..length]. *)
Definition seeds_upto (l : list Z) : Prop :=
  NoDup l ∧ ∀ x, x ∈ l ↔ (1 ≤ x ≤ Z.of_nat (length l))%Z.

(** Occurrence of a character in a string. *)
Fixpoint has_char (c : ascii) (s : string) : bool :=
  match s with
  | EmptyString => false
  | String c' s' => bool_decide (c' = c) || has_char c s'
  end.

(** The order the comparator [a.seed - b.seed] sorts by. *)
Definition seed_le (p q : Player) : Prop := (seed p ≤ seed q)%Z.

(** The bracket before the parent links and the final flag are set. *)
Definition pushed_rounds (players : list Player) : list (list Match) :=
  first_round players :: later_rounds 1 (first_round players).

(** What the two closing passes of [generateBracket] do to the match at
    round [r], position [m] of a bracket of [K] rounds. *)
Definition finish (K r m : nat) (mt : Match) : Match :=
  let linked :=
    if decide (r < K - 1)
    then set_nextMatchId
           (match_label (Z.of_nat r + 2) (Z.of_nat (m / 2) + 1)) mt
    else mt in
  if decide (r = K - 1 ∧ m = 0) then set_isGrandFinals linked else linked.

(** A round blocks the reversal when its match of id [next] has a winner. *)
Definition next_played (next : string) (round : list Match) : bool :=
  match find_match next round with
  | Some (_, nm) => bool_decide (is_Some (truthy (winnerId nm)))
  | None => false
  end.

(** What [checkNextMatch] does to a round when it does not throw. *)
Definition clear_round (next w : string) (round : list Match) : list Match :=
  match find_match next round with
  | Some (j, _) =>
      alter (λ m, set_players (clear_player w (m_players m)) m) j round
  | None => round
  end.

(** The same, seen from the match at round [r], position [i]. *)
Definition cleared_at (rounds : list (list Match)) (next w : string)
    (r i : nat) (m : Match) : Match :=
  if decide (fst <$> (rounds !! r ≫= find_match next) = Some i)
  then set_players (clear_player w (m_players m)) m else m.

(** The bracket written back by a successful reversal. *)
Definition reversed_rounds (rounds : list (list Match)) (r i : nat)
    (m : Match) (w : string) : list (list Match) :=
  alter_match reset_result r i
    (match truthy (nextMatchId m) with
     | Some next => clear_round next w <$> rounds
     | None => rounds
     end).

(** The cases in which a reversal is refused: no tournament of that id;
    a tournament without bracket; no match of that id; a match without
    (truthy) winner; or a next match, that is the first match of id
    [nextMatchId] of some round, that already has a winner. *)
Definition reverse_refused (store : list Tournament) (tid mid : string) : Prop :=
  find_tournament tid store = None
  ∨ (∃ t, find_tournament tid store = Some t ∧ bracket t = None)
  ∨ (∃ t b, find_tournament tid store = Some t ∧ bracket t = Some b
       ∧ (find_in_rounds mid (winners b) = None
          ∨ ∃ r i m, find_in_rounds mid (winners b) = Some (r, i, m)
              ∧ (truthy (winnerId m) = None
                 ∨ ∃ next round j nm,
                     truthy (nextMatchId m) = Some next
                     ∧ round ∈ winners b
                     ∧ find_match next round = Some (j, nm)
                     ∧ is_Some (truthy (winnerId nm))))).

(** [parent] at round [r], position [m] is the one match of the bracket
    that carries the id [nextMatchId mt]. *)
Definition next_match_of (b : Bracket) (mt parent : Match) (r m : nat) : Prop :=
  match_at (winners b) r m = Some parent
  ∧ nextMatchId mt = Some (m_id parent)
  ∧ ∀ r' m' mt', match_at (winners b) r' m' = Some mt' →
      m_id mt' = m_id parent → r' = r ∧ m' = m.

(** Sample data: player [i] has id [p<i>] and seed [i]. *)
Definition sample_player (i : Z) : Player :=
  mkPlayer ("p" +:+ pretty i) ("player " +:+ pretty i) None "asset:icon:0" i
    "dGVzdA==".

Definition two_players : list Player := sample_player <$> [1; 2]%Z.

Definition three_players : list Player := sample_player <$> [3; 1; 2]%Z.

Definition four_players : list Player := sample_player <$> [3; 1; 4; 2]%Z.

Definition sample_tournament (id : string) (st : TournamentStatus)
    (ps : list Player) (b : option Bracket) : Tournament :=
  mkTournament id "Weekly cup" "Valorant" ["PC"] SINGLE_ELIMINATION BEST_OF_3
    "2024-01-01T00:00:00.000Z" None "" None "dGVzdA==" None None "" None None
    st ps b "" (Some false).

(** A tournament of four players that was started, and one still open. *)
Definition sample_store : list Tournament :=
  [sample_tournament "t1" IN_PROGRESS four_players
     (Some (generateBracket four_players));
   sample_tournament "t2" REGISTRATION_OPEN three_players None].

(** A hand-edited store: the first match points to a next match by the
    empty string, and a match with the empty id exists. *)
Definition unlabelled_final : Match :=
  mkMatch "" 1 0 [None; None] [0%Z; 0%Z] None None None None (Some true).

Definition unlabelled_feeder : Match :=
  mkMatch "A" 0 0 [Some "p1"; Some "p2"] [0%Z; 0%Z] None (Some false)
    (Some "") None None.

Definition unlabelled_store : list Tournament :=
  [sample_tournament "t" IN_PROGRESS two_players
     (Some (mkBracket [[unlabelled_feeder]; [unlabelled_final]]))].

(** Seeds that number the players [1..n] in list order. *)
Definition consecutive_seeds (ps : list Player) : Prop :=
  seed <$> ps = seqZ 1 (Z.of_nat (length ps)).

(** The links of the match at round [r], position [m] of a bracket of [K]
    rounds: its id and index name its position, and its [nextMatchId] names
    position [m / 2] of the next round, when there is one. *)
Definition linked_match (K r m : nat) (mt : Match) : Prop :=
  m_id mt = match_label (Z.of_nat r + 1) (Z.of_nat m + 1)
  ∧ matchIndex mt = Z.of_nat m
  ∧ nextMatchId mt
    = if decide (r + 1 < K)
      then Some (match_label (Z.of_nat r + 2) (Z.of_nat (m / 2) + 1))
      else None.

(** A bracket whose matches all carry these links, and in which the match
    a [nextMatchId] names exists. *)
Definition linked_bracket (rounds : list (list Match)) : Prop :=
  ∀ r m mt, match_at rounds r m = Some mt →
    linked_match (length rounds) r m mt
    ∧ (r + 1 < length rounds → is_Some (match_at rounds (r + 1) (m / 2))).

(** The tournament stored under [tid] has such a bracket. *)
Definition stored_linked (store : list Tournament) (tid : string) : Prop :=
  ∃ t b, find_tournament tid store = Some t ∧ bracket t = Some b
         ∧ linked_bracket (winners b).

(** A change of the matches that leaves the links alone. *)
Definition keeps_links (g : Match → Match) : Prop :=
  ∀ x, m_id (g x) = m_id x ∧ matchIndex (g x) = matchIndex x
       ∧ nextMatchId (g x) = nextMatchId x.

(** The write [nextMatch.players[playerIndexInNextMatch] = winnerId]. *)
Definition place_winner (slot : nat) (w : string) (nm : Match) : Match :=
  set_players (array_set None slot (Some w) (m_players nm)) nm.

(** Sample data for the player operations: a hash that cannot throw, a
    registration, the two stored tournaments of [sample_store], a store
    whose seeds are [1..n], and the data of a new tournament. *)
Definition sample_hash (s : string) : result string := Return ("h:" +:+ s).

Definition sample_data : PlayerData := mkPlayerData "Nova" None "asset:icon:1" "pw".

Definition open_tournament : Tournament :=
  sample_tournament "t2" REGISTRATION_OPEN three_players None.

Definition started_tournament : Tournament :=
  sample_tournament "t1" IN_PROGRESS four_players
    (Some (generateBracket four_players)).

Definition seeded_store : list Tournament :=
  [sample_tournament "t3" REGISTRATION_OPEN two_players None].

Definition sample_creation : TournamentData :=
  mkTournamentData "Spring cup" "Valorant" ["PC"] SINGLE_ELIMINATION BEST_OF_3
    "2024-03-01T00:00:00.000Z" None "" None None (Some "banner.png") None None
    REGISTRATION_OPEN (Some false) "secret".

(** * Properties *)

Lemma seeding_rounds_step size l H :
  seeding_rounds size l H =
  if decide (Z.of_nat (length l) < size)%Z
  then seeding_rounds size (next_seeding_round l) (next_seeding_round_nonempty _ H)
  else l.
Proof. rewrite seeding_rounds_equation_1. by destruct (decide _). Qed.

Lemma seeding_rounds_iter j : ∀ l H i size,
  length l = 2 ^ i → size = Z.of_nat (2 ^ (i + j)) →
  seeding_rounds size l H = Nat.iter j next_seeding_round l.
Proof.
  induction j as [|j IH]; intros l H i size Hlen ->; rewrite seeding_rounds_step.
  - rewrite Nat.add_0_r, <-Hlen. case_decide; [lia|done].
  - assert (2 ^ i < 2 ^ (i + S j)) by (apply Nat.pow_lt_mono_r; lia).
    case_decide; [|lia].
    rewrite Nat.iter_succ_r.
    apply (IH _ _ (S i)).
    + rewrite next_seeding_round_length, Hlen. simpl. lia.
    + f_equal. f_equal. lia.
Qed.

(** The seeding order of a bracket of [2 ^ k] slots, as iterated doubling. *)
Lemma getStandardSeedingOrder_pow2 k :
  1 ≤ k →
  getStandardSeedingOrder (Z.of_nat (2 ^ k)) = Nat.iter k next_seeding_round [1%Z].
Proof.
  intros Hk. unfold getStandardSeedingOrder.
  assert (2 ^ 1 ≤ 2 ^ k) by (apply Nat.pow_le_mono_r; lia).
  simpl in *. case_decide; [lia|].
  destruct k as [|k]; [lia|].
  rewrite Nat.iter_succ_r.
  by apply (seeding_rounds_iter k _ _ 1).
Qed.

Lemma mirror_lookup_even c l i : mirror c l !! (2 * i) = l !! i.
Proof.
  revert i; induction l as [|x l IH]; intros [|i]; csimpl; try done.
  replace (i + S (i + 0)) with (S (2 * i)) by lia. apply IH.
Qed.

Lemma mirror_lookup_odd c l i :
  mirror c l !! (2 * i + 1) = (λ s, c - s)%Z <$> l !! i.
Proof.
  revert i; induction l as [|x l IH]; intros [|i]; csimpl; try done.
  replace (i + S (i + 0) + 1) with (S (2 * i + 1)) by lia. apply IH.
Qed.

Lemma mirror_perm c l : mirror c l ≡ₚ l ++ ((λ s, c - s)%Z <$> l).
Proof.
  induction l as [|x l IH]; csimpl; [done|].
  constructor. fold (mirror c l). rewrite IH. by rewrite <-Permutation_middle.
Qed.

Lemma next_seeding_round_mirror l :
  next_seeding_round l = mirror (Z.of_nat (length l) * 2 + 1) l.
Proof. done. Qed.

Lemma seeds_upto_next l : seeds_upto l → seeds_upto (next_seeding_round l).
Proof.
  intros [Hnd Hin]. unfold seeds_upto.
  rewrite next_seeding_round_length, next_seeding_round_mirror.
  set (c := (Z.of_nat (length l) * 2 + 1)%Z).
  split.
  - rewrite mirror_perm. apply NoDup_app. split_and!; [done| |].
    + intros x Hx [y [-> Hy]]%list_elem_of_fmap. apply Hin in Hx, Hy. lia.
    + apply NoDup_fmap_2; [|done]. intros x y ?. lia.
  - intros x. rewrite mirror_perm, elem_of_app, list_elem_of_fmap. split.
    + intros [Hx|[y [-> Hy]]]; [apply Hin in Hx|apply Hin in Hy]; lia.
    + intros Hx. destruct (decide (x ≤ Z.of_nat (length l))%Z).
      * left. apply Hin. lia.
      * right. exists (c - x)%Z. split; [lia|]. apply Hin. lia.
Qed.

Lemma seeds_upto_iter k : seeds_upto (Nat.iter k next_seeding_round [1%Z]).
Proof.
  induction k as [|k IH]; simpl; [|by apply seeds_upto_next].
  split; [apply NoDup_singleton|]. intros x. rewrite list_elem_of_singleton. simpl. lia.
Qed.

Lemma iter_seeding_length k :
  length (Nat.iter k next_seeding_round [1%Z]) = 2 ^ k.
Proof.
  induction k as [|k IH]; simpl; [done|].
  rewrite next_seeding_round_length, IH. lia.
Qed.

Lemma seeds_upto_perm l : seeds_upto l → l ≡ₚ seqZ 1 (Z.of_nat (length l)).
Proof.
  intros [Hnd Hin]. apply NoDup_Permutation; [done|apply NoDup_seqZ|].
  intros x. rewrite Hin, elem_of_seqZ. lia.
Qed.

Lemma iter_seeding_head k :
  Nat.iter k next_seeding_round [1%Z] !! 0 = Some 1%Z.
Proof.
  induction k as [|k IH]; simpl; [done|].
  rewrite next_seeding_round_mirror. by rewrite (mirror_lookup_even _ _ 0).
Qed.

(** C1.  For a bracket size [size = 2 ^ k] with [k >= 1],
    [getStandardSeedingOrder size] has [size] entries, is a permutation of
    [1..size], every consecutive pair (positions [2 i] and [2 i + 1]) sums
    to [size + 1], and the first pair is seed 1 against seed [size]. *)
Theorem getStandardSeedingOrder_one_vs_N (k : nat) (size : Z) :
  1 ≤ k → size = (2 ^ Z.of_nat k)%Z →
  let order := getStandardSeedingOrder size in
  Z.of_nat (length order) = size
  ∧ order ≡ₚ seqZ 1 size
  ∧ (∀ i a b, order !! (2 * i) = Some a → order !! (2 * i + 1) = Some b →
       (a + b = size + 1)%Z)
  ∧ order !! 0 = Some 1%Z ∧ order !! 1 = Some size.
Proof.
  intros Hk -> order.
  assert (Hsz : (2 ^ Z.of_nat k)%Z = Z.of_nat (2 ^ k)) by (by rewrite Nat2Z.inj_pow).
  subst order. rewrite Hsz, getStandardSeedingOrder_pow2 by done.
  destruct k as [|k]; [lia|]. clear Hk Hsz.
  pose proof (iter_seeding_length (S k)) as Hlen.
  pose proof (seeds_upto_perm _ (seeds_upto_iter (S k))) as Hperm.
  rewrite Hlen in Hperm. split_and!; [by rewrite Hlen|done|..].
  - intros i a b. simpl Nat.iter. rewrite next_seeding_round_mirror.
    rewrite mirror_lookup_even, mirror_lookup_odd. intros -> [= <-].
    rewrite iter_seeding_length. simpl. lia.
  - apply iter_seeding_head.
  - simpl Nat.iter. rewrite next_seeding_round_mirror.
    rewrite (mirror_lookup_odd _ _ 0), iter_seeding_head. simpl.
    rewrite iter_seeding_length. f_equal. simpl. lia.
Qed.

Lemma getStandardSeedingOrder_one_vs_N_witness :
  let order := getStandardSeedingOrder 8 in
  Z.of_nat (length order) = 8%Z
  ∧ order ≡ₚ seqZ 1 8
  ∧ (∀ i a b, order !! (2 * i) = Some a → order !! (2 * i + 1) = Some b →
       (a + b = 8 + 1)%Z)
  ∧ order !! 0 = Some 1%Z ∧ order !! 1 = Some 8%Z.
Proof. apply (getStandardSeedingOrder_one_vs_N 3 8); [lia|reflexivity]. Defined.

(** ** Match labels are injective *)
Lemma pretty_N_char_not_W x : pretty_N_char x ≠ "W"%char.
Proof. unfold pretty_N_char. by repeat case_match. Qed.

Lemma pretty_N_go_no_W x : ∀ s,
  has_char "W" s = false → has_char "W" (pretty_N_go x s) = false.
Proof.
  induction (N.lt_wf_0 x) as [x _ IH]; intros s Hs.
  destruct (decide (x = 0)%N) as [->|]; [by rewrite pretty_N_go_0|].
  rewrite pretty_N_go_step by lia. apply IH.
  - apply N.div_lt; lia.
  - simpl. rewrite Hs, orb_false_r. apply bool_decide_eq_false, pretty_N_char_not_W.
Qed.

Lemma pretty_N_no_W (x : N) : has_char "W" (pretty x) = false.
Proof.
  unfold pretty, pretty_N. case_decide; [done|]. by apply pretty_N_go_no_W.
Qed.

Lemma pretty_Z_no_W (x : Z) : has_char "W" (pretty x) = false.
Proof.
  destruct x as [|p|p]; [done|apply pretty_N_no_W|].
  unfold pretty, pretty_Z. simpl. apply pretty_N_no_W.
Qed.

Lemma append_char_inj c a a' b b' :
  has_char c a = false → has_char c a' = false →
  a +:+ String c b = a' +:+ String c b' → a = a' ∧ b = b'.
Proof.
  revert a'; induction a as [|x a IH]; intros [|x' a']; simpl.
  - by intros _ _ [= ->].
  - intros _ [H _]%orb_false_elim [= <- _]. by apply bool_decide_eq_false in H.
  - intros [H _]%orb_false_elim _ [= -> _]. by apply bool_decide_eq_false in H.
  - intros [_ Ha]%orb_false_elim [_ Ha']%orb_false_elim [= -> E].
    destruct (IH _ Ha Ha' E) as [-> ->]. done.
Qed.

Lemma match_label_inj r m r' m' :
  match_label r m = match_label r' m' → r = r' ∧ m = m'.
Proof.
  unfold match_label. intros E.
  apply append_char_inj in E as [Hr Hm]; [|apply pretty_Z_no_W..].
  split; by apply (inj pretty).
Qed.

(** ** Arithmetic of bracket sizes *)
Lemma bracket_size_spec n :
  2 ≤ n →
  ∃ K, 1 ≤ K ∧ Z.log2_up (Z.of_nat n) = Z.of_nat K
       ∧ bracket_size n = Z.of_nat (2 ^ K) ∧ n ≤ 2 ^ K ∧ 2 ^ K < 2 * n.
Proof.
  intros Hn.
  pose proof (Z.log2_up_spec (Z.of_nat n) ltac:(lia)) as [Hlo Hhi].
  pose proof (Z.log2_up_pos (Z.of_nat n) ltac:(lia)) as Hpos.
  exists (Z.to_nat (Z.log2_up (Z.of_nat n))).
  set (K := Z.to_nat (Z.log2_up (Z.of_nat n))).
  assert (HK : Z.log2_up (Z.of_nat n) = Z.of_nat K) by lia.
  assert (Hp : ∀ k, (2 ^ Z.of_nat k)%Z = Z.of_nat (2 ^ k))
    by (intros k; by rewrite Nat2Z.inj_pow).
  unfold bracket_size. rewrite HK in *.
  assert (1 ≤ K) as HK1 by lia.
  rewrite Hp in *.
  split_and!; [done..|lia|].
  replace (Z.pred (Z.of_nat K)) with (Z.of_nat (K - 1)) in Hlo by lia.
  rewrite Hp in Hlo.
  replace K with (S (K - 1)) by lia. simpl. lia.
Qed.

Lemma half_pow2 j : (2 ^ S j + 1) / 2 = 2 ^ j.
Proof. symmetry. apply (Nat.div_unique _ 2 _ 1); simpl; lia. Qed.

Lemma pow2_pos j : 0 < 2 ^ j.
Proof. induction j; simpl; lia. Qed.

(** ** The rounds pushed by the while loop *)
Lemma later_rounds_step r prev :
  later_rounds r prev =
  if decide (1 < length prev)
  then later_round r prev :: later_rounds (r + 1) (later_round r prev)
  else [].
Proof. rewrite later_rounds_equation_1. by destruct (decide _). Qed.

Lemma later_rounds_lengths j : ∀ r prev,
  length prev = 2 ^ j →
  length (later_rounds r prev) = j
  ∧ ∀ i round, later_rounds r prev !! i = Some round →
      length round = 2 ^ (j - 1 - i).
Proof.
  induction j as [|j IH]; intros r prev Hlen; rewrite later_rounds_step.
  - simpl in Hlen. case_decide; [lia|]. split; [done|]. by intros i round.
  - pose proof (pow2_pos j). case_decide; [|simpl in *; lia].
    assert (Hnext : length (later_round r prev) = 2 ^ j)
      by (by rewrite later_round_length, Hlen, half_pow2).
    destruct (IH (r + 1)%Z _ Hnext) as [IH1 IH2]. split; [simpl; lia|].
    intros [|i] round; simpl.
    + intros [= <-]. rewrite Hnext. f_equal. lia.
    + intros Hi. rewrite (IH2 _ _ Hi). f_equal. lia.
Qed.

Lemma later_round_lookup r prev m mt :
  later_round r prev !! m = Some mt → mt = later_round_match r prev m.
Proof.
  unfold later_round. rewrite list_lookup_fmap.
  intros [k [Hk ->]]%fmap_Some. by apply lookup_seq in Hk as [-> _].
Qed.

Lemma later_round_lookup_lt r prev m :
  m < (length prev + 1) / 2 →
  later_round r prev !! m = Some (later_round_match r prev m).
Proof.
  intros Hm. unfold later_round. rewrite list_lookup_fmap.
  by rewrite lookup_seq_lt.
Qed.

(** Every match pushed by the while loop is a fresh, unplayed match that
    carries its own position. *)
Lemma later_rounds_lookup i : ∀ r prev round m mt,
  later_rounds r prev !! i = Some round → round !! m = Some mt →
  m_id mt = match_label (r + Z.of_nat i + 1) (Z.of_nat m + 1)
  ∧ matchIndex mt = Z.of_nat m
  ∧ winnerId mt = None ∧ isBye mt = None
  ∧ nextMatchId mt = None ∧ isGrandFinals mt = None.
Proof.
  induction i as [|i IH]; intros r prev round m mt;
    rewrite later_rounds_step; case_decide; simpl; try done.
  - intros [= <-] ->%later_round_lookup. simpl.
    by rewrite Z.add_0_r.
  - intros Hr Hm. destruct (IH _ _ _ _ _ Hr Hm) as (Hid & ?).
    split; [|done]. rewrite Hid. f_equal. lia.
Qed.

Lemma first_round_length players :
  2 ≤ length players →
  ∃ K, 1 ≤ K ∧ Z.log2_up (Z.of_nat (length players)) = Z.of_nat K
       ∧ length (first_round players) = 2 ^ (K - 1).
Proof.
  intros Hn. destruct (bracket_size_spec _ Hn) as (K & HK & Hlog & Hsz & _).
  exists K. split_and!; [done..|].
  unfold first_round. rewrite length_fmap, length_seq, Hsz.
  replace K with (S (K - 1)) at 1 by lia.
  rewrite <-(half_pow2 (K - 1)).
  rewrite Z2Nat.inj_div, Z2Nat.inj_add, Nat2Z.id by lia. done.
Qed.

Lemma first_round_lookup players i mt :
  first_round players !! i = Some mt →
  mt = first_round_match (final_player_order players) i.
Proof.
  unfold first_round. rewrite list_lookup_fmap.
  intros [k [Hk ->]]%fmap_Some. by apply lookup_seq in Hk as [-> _].
Qed.

Lemma pushed_rounds_lookup players r m round mt :
  pushed_rounds players !! r = Some round → round !! m = Some mt →
  m_id mt = match_label (Z.of_nat r + 1) (Z.of_nat m + 1)
  ∧ matchIndex mt = Z.of_nat m
  ∧ nextMatchId mt = None ∧ isGrandFinals mt = None.
Proof.
  destruct r as [|r]; simpl.
  - intros [= <-] ->%first_round_lookup. done.
  - intros Hr Hm. destruct (later_rounds_lookup _ _ _ _ _ _ Hr Hm) as (Hid & ? & _ & _ & ? & ?).
    split_and!; try done. rewrite Hid. f_equal. lia.
Qed.

Lemma pushed_rounds_lengths players :
  2 ≤ length players →
  ∃ K, 1 ≤ K ∧ Z.log2_up (Z.of_nat (length players)) = Z.of_nat K
       ∧ length (pushed_rounds players) = K
       ∧ ∀ r round, pushed_rounds players !! r = Some round →
           length round = 2 ^ (K - 1 - r).
Proof.
  intros Hn. destruct (first_round_length _ Hn) as (K & HK & Hlog & Hlen).
  exists K. split_and!; [done..| |].
  - simpl. destruct (later_rounds_lengths _ 1 _ Hlen) as [-> _]. lia.
  - intros [|r] round; simpl.
    + intros [= <-]. rewrite Hlen. f_equal. lia.
    + intros Hr. destruct (later_rounds_lengths _ 1 _ Hlen) as [_ H].
      rewrite (H _ _ Hr). f_equal. lia.
Qed.

Lemma link_next_matches_length wb :
  length (link_next_matches wb) = length wb.
Proof. unfold link_next_matches. by rewrite length_imap. Qed.

Lemma finished_match_at wb r m :
  match_at (mark_grand_finals (link_next_matches wb)) r m
  = finish (length wb) r m <$> match_at wb r m.
Proof.
  unfold match_at, mark_grand_finals, finish.
  rewrite link_next_matches_length.
  assert (Hlink : ∀ r, link_next_matches wb !! r ≫= (.!! m)
     = (λ mt, if decide (r < length wb - 1)
              then set_nextMatchId
                     (match_label (Z.of_nat r + 2) (Z.of_nat (m / 2) + 1)) mt
              else mt) <$> (wb !! r ≫= (.!! m))).
  { intros r'. unfold link_next_matches. rewrite list_lookup_imap.
    destruct (wb !! r') as [round|]; simpl; [|done].
    case_decide; [|by rewrite option_fmap_id].
    by rewrite list_lookup_imap. }
  destruct (decide (r = length wb - 1)) as [->|Hr].
  - rewrite list_lookup_alter_eq.
    destruct (link_next_matches wb !! (length wb - 1)) as [round|] eqn:E.
    + simpl. destruct (decide (m = 0)) as [->|Hm].
      * rewrite list_lookup_alter_eq. specialize (Hlink (length wb - 1)).
        rewrite E in Hlink. simpl in Hlink. rewrite Hlink.
        destruct (wb !! (length wb - 1) ≫= (.!! 0)); simpl; [|done].
        repeat case_decide; try done; exfalso; intuition lia.
      * rewrite list_lookup_alter_ne by done.
        specialize (Hlink (length wb - 1)).
        rewrite E in Hlink. simpl in Hlink. rewrite Hlink.
        destruct (wb !! (length wb - 1) ≫= (.!! m)); simpl; [|done].
        repeat case_decide; try done; exfalso; intuition lia.
    + simpl. specialize (Hlink (length wb - 1)). rewrite E in Hlink.
      simpl in Hlink. by destruct (wb !! (length wb - 1) ≫= (.!! m)).
  - rewrite list_lookup_alter_ne by done. rewrite Hlink.
    destruct (wb !! r ≫= (.!! m)); simpl; [|done].
    repeat case_decide; try done; exfalso; intuition lia.
Qed.

Lemma finished_lengths wb :
  length (mark_grand_finals (link_next_matches wb)) = length wb
  ∧ ∀ r round, mark_grand_finals (link_next_matches wb) !! r = Some round →
      ∃ round0, wb !! r = Some round0 ∧ length round = length round0.
Proof.
  unfold mark_grand_finals. rewrite length_alter, link_next_matches_length.
  split; [done|]. intros r round.
  assert (Hlink : ∀ round', link_next_matches wb !! r = Some round' →
            ∃ round0, wb !! r = Some round0 ∧ length round' = length round0).
  { intros round'. unfold link_next_matches. rewrite list_lookup_imap.
    intros [round0 [-> ->]]%fmap_Some. exists round0. split; [done|].
    case_decide; [by rewrite length_imap|done]. }
  destruct (decide (r = length wb - 1)) as [->|Hr].
  - rewrite list_lookup_alter_eq. intros [round' [H' ->]]%fmap_Some.
    rewrite length_alter. by apply Hlink.
  - rewrite list_lookup_alter_ne by done. apply Hlink.
Qed.

(** ** Sorting by seed *)
Lemma insert_by_seed_perm p l : insert_by_seed p l ≡ₚ p :: l.
Proof.
  induction l as [|q l IH]; simpl; [done|].
  case_decide; [done|]. rewrite IH. apply Permutation_swap.
Qed.

Lemma sort_by_seed_perm l : sort_by_seed l ≡ₚ l.
Proof.
  induction l as [|p l IH]; simpl; [done|].
  by rewrite insert_by_seed_perm, IH.
Qed.

Lemma sort_by_seed_length l : length (sort_by_seed l) = length l.
Proof. by rewrite sort_by_seed_perm. Qed.

Lemma insert_by_seed_sorted p l :
  StronglySorted seed_le l → StronglySorted seed_le (insert_by_seed p l).
Proof.
  induction 1 as [|q l Hl IH Hq]; simpl.
  - repeat constructor.
  - case_decide as Hpq.
    + constructor; [by constructor|]. constructor; [done|].
      eapply Forall_impl; [exact Hq|]. unfold seed_le. intros; lia.
    + constructor; [done|]. rewrite insert_by_seed_perm.
      constructor; [unfold seed_le; lia|done].
Qed.

Lemma sort_by_seed_sorted l : StronglySorted seed_le (sort_by_seed l).
Proof.
  induction l as [|p l IH]; simpl; [constructor|by apply insert_by_seed_sorted].
Qed.

Lemma seed_determines_player l p q :
  NoDup (seed <$> l) → p ∈ l → q ∈ l → seed p = seed q → p = q.
Proof.
  induction l as [|x l IH]; csimpl; [by intros _ ?%elem_of_nil|].
  rewrite NoDup_cons. intros [Hx Hnd] Hp Hq E.
  apply elem_of_cons in Hp as [->|Hp]; apply elem_of_cons in Hq as [->|Hq].
  - done.
  - destruct Hx. rewrite E. by apply list_elem_of_fmap_2.
  - destruct Hx. rewrite <-E. by apply list_elem_of_fmap_2.
  - by apply IH.
Qed.

Lemma sort_by_seed_of_permutation l l' :
  NoDup (seed <$> l) → l ≡ₚ l' → sort_by_seed l = sort_by_seed l'.
Proof.
  intros Hnd Hperm.
  apply (StronglySorted_unique_strong seed_le);
    [|apply sort_by_seed_sorted..|by rewrite !sort_by_seed_perm].
  intros p q Hp Hq Hpq Hqp.
  rewrite sort_by_seed_perm in Hp. rewrite sort_by_seed_perm, <-Hperm in Hq.
  apply (seed_determines_player l); [done..|]. unfold seed_le in *. lia.
Qed.

(** ** The first round *)
Section first_round.
Context (players : list Player) (K : nat).
Context (Hn : 2 ≤ length players).
Context (HK : 1 ≤ K).
Context (Hsize : bracket_size (length players) = Z.of_nat (2 ^ K)).
Context (Hlo : length players ≤ 2 ^ K) (Hhi : 2 ^ K < 2 * length players).

Let playerIds : list (option string) :=
  pad_with_byes (bracket_size (length players))
    ((λ p, Some (p_id p)) <$> sort_by_seed players).

Lemma playerIds_length : length playerIds = 2 ^ K.
Proof.
  unfold playerIds, pad_with_byes.
  rewrite length_app, length_replicate, length_fmap, sort_by_seed_length, Hsize.
  lia.
Qed.

Lemma playerIds_occupied i :
  i < length players →
  ∃ p, sort_by_seed players !! i = Some p ∧ playerIds !! i = Some (Some (p_id p)).
Proof.
  intros Hi. destruct (lookup_lt_is_Some_2 (sort_by_seed players) i) as [p Hp].
  { by rewrite sort_by_seed_length. }
  exists p. split; [done|]. unfold playerIds, pad_with_byes.
  apply lookup_app_l_Some. by rewrite list_lookup_fmap, Hp.
Qed.

Lemma playerIds_bye i :
  length players ≤ i → i < 2 ^ K → playerIds !! i = Some None.
Proof.
  intros Hi Hi'. unfold playerIds, pad_with_byes.
  rewrite lookup_app_r by (rewrite length_fmap, sort_by_seed_length; lia).
  rewrite length_fmap, sort_by_seed_length.
  apply lookup_replicate_2. rewrite Hsize. lia.
Qed.

Lemma seedOrder_eq :
  getStandardSeedingOrder (bracket_size (length players))
  = next_seeding_round (Nat.iter (K - 1) next_seeding_round [1%Z]).
Proof.
  rewrite Hsize, getStandardSeedingOrder_pow2 by done.
  set (k := K - 1). by replace K with (S k) by lia.
Qed.

(** The reads [playerIds[seed - 1]] and [finalPlayerOrder[2 * i]],
    [finalPlayerOrder[2 * i + 1]] all stay inside their arrays. *)
Lemma finalPlayerOrder_in_range i :
  i < 2 ^ (K - 1) →
  ∃ s, Nat.iter (K - 1) next_seeding_round [1%Z] !! i = Some s
       ∧ (1 ≤ s ≤ Z.of_nat (2 ^ (K - 1)))%Z
       ∧ final_player_order players !! (2 * i) = playerIds !! Z.to_nat (s - 1)
       ∧ final_player_order players !! (2 * i + 1)
         = playerIds !! Z.to_nat (Z.of_nat (2 ^ K) - s)
       ∧ is_Some (playerIds !! Z.to_nat (s - 1))
       ∧ is_Some (playerIds !! Z.to_nat (Z.of_nat (2 ^ K) - s)).
Proof.
  intros Hi. set (prev := Nat.iter (K - 1) next_seeding_round [1%Z]).
  assert (Hlen : length prev = 2 ^ (K - 1)) by apply iter_seeding_length.
  destruct (lookup_lt_is_Some_2 prev i) as [s Hs]; [lia|].
  destruct (seeds_upto_iter (K - 1)) as [_ Hin]. fold prev in Hin.
  assert (Hrange : (1 ≤ s ≤ Z.of_nat (2 ^ (K - 1)))%Z).
  { rewrite <-Hlen. apply Hin. by eapply list_elem_of_lookup_2. }
  assert (HK2 : 2 ^ K = 2 * 2 ^ (K - 1)).
  { replace K with (S (K - 1)) at 1 by lia. done. }
  assert (Hin1 : is_Some (playerIds !! Z.to_nat (s - 1))).
  { apply lookup_lt_is_Some_2. rewrite playerIds_length. lia. }
  assert (Hin2 : is_Some (playerIds !! Z.to_nat (Z.of_nat (2 ^ K) - s))).
  { apply lookup_lt_is_Some_2. rewrite playerIds_length. lia. }
  exists s. split_and!; [done|lia|lia| | |done|done].
  - unfold final_player_order. cbv zeta. fold playerIds. rewrite seedOrder_eq. fold prev.
    rewrite list_lookup_fmap, next_seeding_round_mirror, mirror_lookup_even, Hs.
    simpl. unfold slot_at, array_get. case_decide; [|lia].
    destruct Hin1 as [x ->]. done.
  - unfold final_player_order. cbv zeta. fold playerIds. rewrite seedOrder_eq. fold prev.
    rewrite list_lookup_fmap, next_seeding_round_mirror, mirror_lookup_odd, Hs.
    simpl. unfold slot_at, array_get. case_decide; [|lia].
    rewrite Hlen.
    replace (Z.to_nat (Z.of_nat (2 ^ (K - 1)) * 2 + 1 - s - 1))
      with (Z.to_nat (Z.of_nat (2 ^ K) - s)) by lia.
    destruct Hin2 as [x ->]. done.
Qed.
End first_round.

Lemma finish_fields K r m mt :
  m_id (finish K r m mt) = m_id mt
  ∧ matchIndex (finish K r m mt) = matchIndex mt
  ∧ m_players (finish K r m mt) = m_players mt
  ∧ winnerId (finish K r m mt) = winnerId mt
  ∧ isBye (finish K r m mt) = isBye mt.
Proof. unfold finish. by repeat case_decide. Qed.

Lemma playerIndexInNextMatch_parity mt m :
  matchIndex mt = Z.of_nat m → playerIndexInNextMatch mt = m mod 2.
Proof.
  intros Hm. unfold playerIndexInNextMatch. rewrite Hm.
  rewrite Z.rem_mod_nonneg by lia.
  change 2%Z with (Z.of_nat 2). rewrite <-Nat2Z.inj_mod.
  pose proof (Nat.mod_upper_bound m 2 ltac:(lia)).
  case_decide; lia.
Qed.

Lemma first_round_match_players fpo i :
  m_players (first_round_match fpo i)
  = [mjoin (fpo !! (2 * i)); mjoin (fpo !! (2 * i + 1))].
Proof.
  unfold first_round_match, slot_at, array_get. cbn [m_players].
  rewrite !decide_True by lia.
  replace (Z.to_nat (Z.of_nat i * 2)) with (2 * i) by lia.
  by replace (Z.to_nat (Z.of_nat i * 2 + 1)) with (2 * i + 1) by lia.
Qed.

Lemma generateBracket_winners players :
  2 ≤ length players →
  winners (generateBracket players)
  = mark_grand_finals (link_next_matches (pushed_rounds players)).
Proof. intros Hn. unfold generateBracket. case_decide; [lia|done]. Qed.

Lemma match_at_Some rounds r m mt :
  match_at rounds r m = Some mt ↔
  ∃ round, rounds !! r = Some round ∧ round !! m = Some mt.
Proof.
  unfold match_at. destruct (rounds !! r) as [round|]; simpl.
  - split; [eauto|]. by intros (round' & [= <-] & ?).
  - split; [done|]. by intros (? & [=] & _).
Qed.

(** The shape of a generated bracket, position by position. *)
Section generated.
Context (players : list Player) (Hn : 2 ≤ length players).
Let b := generateBracket players.
Let R := Z.to_nat (Z.log2_up (Z.of_nat (length players))).

Lemma generated_rounds :
  1 ≤ R ∧ length (winners b) = R
  ∧ ∀ r round, winners b !! r = Some round → length round = 2 ^ (R - 1 - r).
Proof.
  destruct (pushed_rounds_lengths _ Hn) as (K & HK & Hlog & Hlen & Hrounds).
  assert (R = K) as -> by (unfold R; lia).
  unfold b. rewrite generateBracket_winners by done.
  destruct (finished_lengths (pushed_rounds players)) as [Hl Hr].
  split_and!; [done|by rewrite Hl|].
  intros r round [round0 [H0 ->]]%Hr. by apply Hrounds.
Qed.

Lemma generated_position r m mt :
  match_at (winners b) r m = Some mt → r < R ∧ m < 2 ^ (R - 1 - r).
Proof.
  destruct generated_rounds as (_ & Hlen & Hrounds).
  intros (round & Hr & Hm)%match_at_Some. split.
  - rewrite <-Hlen. by eapply lookup_lt_Some.
  - rewrite <-(Hrounds _ _ Hr). by eapply lookup_lt_Some.
Qed.

Lemma generated_match r m :
  r < R → m < 2 ^ (R - 1 - r) →
  ∃ mt0, match_at (pushed_rounds players) r m = Some mt0
         ∧ match_at (winners b) r m = Some (finish R r m mt0)
         ∧ m_id mt0 = match_label (Z.of_nat r + 1) (Z.of_nat m + 1)
         ∧ matchIndex mt0 = Z.of_nat m
         ∧ nextMatchId mt0 = None ∧ isGrandFinals mt0 = None.
Proof.
  intros Hr Hm.
  destruct (pushed_rounds_lengths _ Hn) as (K & HK & Hlog & Hlen & Hrounds).
  assert (R = K) as HR by (unfold R; lia).
  destruct (lookup_lt_is_Some_2 (pushed_rounds players) r) as [round Hround];
    [lia|].
  destruct (lookup_lt_is_Some_2 round m) as [mt0 Hmt0].
  { rewrite (Hrounds _ _ Hround), <-HR. done. }
  exists mt0.
  assert (H0 : match_at (pushed_rounds players) r m = Some mt0).
  { apply match_at_Some. eauto. }
  destruct (pushed_rounds_lookup _ _ _ _ _ Hround Hmt0) as (? & ? & ? & ?).
  split_and!; try done.
  unfold b. rewrite generateBracket_winners by done.
  by rewrite finished_match_at, H0, Hlen, HR.
Qed.

Lemma generated_match_inv r m mt :
  match_at (winners b) r m = Some mt →
  ∃ mt0, match_at (pushed_rounds players) r m = Some mt0
         ∧ mt = finish R r m mt0
         ∧ m_id mt0 = match_label (Z.of_nat r + 1) (Z.of_nat m + 1)
         ∧ matchIndex mt0 = Z.of_nat m
         ∧ nextMatchId mt0 = None ∧ isGrandFinals mt0 = None.
Proof.
  intros Hmt. destruct (generated_position _ _ _ Hmt) as [Hr Hm].
  destruct (generated_match r m Hr Hm) as (mt0 & H0 & H1 & ?).
  exists mt0. split; [done|]. split; [congruence|done].
Qed.

Lemma half_position r m :
  r + 1 < R → m < 2 ^ (R - 1 - r) → m / 2 < 2 ^ (R - 1 - (r + 1)).
Proof.
  intros Hr Hm. replace (R - 1 - r) with (S (R - 1 - (r + 1))) in Hm by lia.
  simpl in Hm. apply Nat.Div0.div_lt_upper_bound. lia.
Qed.

(** The parent link of a match of a non-final round. *)
Lemma generated_parent r m mt :
  r + 1 < R → match_at (winners b) r m = Some mt →
  ∃ parent, match_at (winners b) (r + 1) (m / 2) = Some parent
            ∧ nextMatchId mt = Some (m_id parent)
            ∧ m_id parent = match_label (Z.of_nat r + 2) (Z.of_nat (m / 2) + 1).
Proof.
  intros Hr Hmt. destruct (generated_position _ _ _ Hmt) as [_ Hm].
  destruct (generated_match_inv _ _ _ Hmt) as (mt0 & _ & -> & _ & _ & _).
  destruct (generated_match (r + 1) (m / 2)) as (p0 & _ & Hp & Hid & _);
    [lia|by apply half_position|].
  eexists. split; [exact Hp|].
  destruct (finish_fields R (r + 1) (m / 2) p0) as (-> & _).
  rewrite Hid. replace (Z.of_nat (r + 1) + 1)%Z with (Z.of_nat r + 2)%Z by lia.
  split; [|done]. unfold finish. repeat case_decide; try lia; done.
Qed.

Lemma generated_final r m mt :
  r + 1 = R → match_at (winners b) r m = Some mt →
  m = 0 ∧ nextMatchId mt = None ∧ isGrandFinals mt = Some true.
Proof.
  intros Hr Hmt. destruct (generated_position _ _ _ Hmt) as [_ Hm].
  replace (R - 1 - r) with 0 in Hm by lia. simpl in Hm.
  assert (m = 0) as -> by lia.
  destruct (generated_match_inv _ _ _ Hmt) as (mt0 & _ & -> & _ & _ & Hnext & _).
  unfold finish. repeat case_decide; try lia; try done.
Qed.

(** Ids are unique within a generated bracket. *)
Lemma generated_id_unique r m mt r' m' mt' :
  match_at (winners b) r m = Some mt → match_at (winners b) r' m' = Some mt' →
  m_id mt = m_id mt' → r = r' ∧ m = m'.
Proof.
  intros (mt0 & _ & -> & Hid & _)%generated_match_inv
         (mt0' & _ & -> & Hid' & _)%generated_match_inv.
  destruct (finish_fields R r m mt0) as (-> & _).
  destruct (finish_fields R r' m' mt0') as (-> & _).
  rewrite Hid, Hid'. intros [??]%match_label_inj. lia.
Qed.

(** The first round: slot 0 is always occupied; the match is a bye exactly
    when slot 1 is empty. *)
Lemma generated_first_round i mt :
  match_at (winners b) 0 i = Some mt →
  ∃ p1 o2, m_players mt = [Some p1; o2]
           ∧ isBye mt = Some (bool_decide (o2 = None))
           ∧ winnerId mt = (if bool_decide (o2 = None) then Some p1 else None).
Proof.
  intros Hmt. destruct (generated_position _ _ _ Hmt) as [_ Hi].
  destruct (generated_match_inv _ _ _ Hmt) as (mt0 & H0 & -> & _).
  destruct (finish_fields R 0 i mt0) as (_ & _ & -> & -> & ->).
  apply match_at_Some in H0 as (round & [= <-] & ->%first_round_lookup).
  destruct (bracket_size_spec _ Hn) as (K & HK & Hlog & Hsz & Hlo & Hhi).
  assert (R = K) as HR by (unfold R; lia). rewrite HR, Nat.sub_0_r in Hi.
  destruct (finalPlayerOrder_in_range players K Hn HK Hsz Hlo Hhi i Hi)
    as (s & _ & Hs & Heven & Hodd & _ & [o2 Ho2]).
  assert (HK2 : 2 ^ K = 2 * 2 ^ (K - 1)).
  { replace K with (S (K - 1)) at 1 by lia. done. }
  destruct (playerIds_occupied players (Z.to_nat (s - 1))) as (p & _ & Hp); [lia|].
  rewrite Hp in Heven. rewrite Ho2 in Hodd.
  exists (p_id p), o2. unfold first_round_match, slot_at, array_get. simpl.
  repeat case_decide; try lia.
  replace (Z.to_nat (Z.of_nat i * 2)) with (2 * i) by lia.
  replace (Z.to_nat (Z.of_nat i * 2 + 1)) with (2 * i + 1) by lia.
  rewrite Heven, Hodd. simpl.
  destruct o2; simpl; done.
Qed.

(** A bye winner sits in the parent slot given by the parity of the bye's
    index as soon as the bracket is generated. *)
Lemma generated_winner_placed r m mt w :
  r + 1 < R → match_at (winners b) r m = Some mt → winnerId mt = Some w →
  ∃ parent, match_at (winners b) (r + 1) (m / 2) = Some parent
            ∧ m_players parent !! playerIndexInNextMatch mt = Some (Some w).
Proof.
  intros Hr Hmt Hw. destruct (generated_position _ _ _ Hmt) as [_ Hm].
  destruct (generated_match (r + 1) (m / 2)) as (p0 & Hp0 & Hp & _);
    [lia|by apply half_position|].
  eexists. split; [exact Hp|].
  destruct (finish_fields R (r + 1) (m / 2) p0) as (_ & _ & -> & _).
  destruct (generated_match_inv _ _ _ Hmt) as (mt0 & H0 & Heq & _ & Hidx & _).
  rewrite (playerIndexInNextMatch_parity mt m)
    by (rewrite Heq; by destruct (finish_fields R r m mt0) as (_ & -> & _)).
  destruct r as [|r].
  - (* a first-round bye *)
    destruct (generated_first_round _ _ Hmt) as (p1 & o2 & Hpl & Hbye & Hwin).
    rewrite Heq in Hbye, Hwin.
    destruct (finish_fields R 0 m mt0) as (_ & _ & _ & Hw0 & Hb0).
    rewrite Hw0 in Hwin. rewrite Hb0 in Hbye. rewrite Heq, Hw0 in Hw.
    apply match_at_Some in H0 as (round & [= <-] & Hmt0).
    apply match_at_Some in Hp0 as (round1 & Hr1 & Hp0).
    unfold pushed_rounds in Hr1. simpl in Hr1.
    rewrite later_rounds_step in Hr1. case_decide; [|done].
    simpl in Hr1. injection Hr1 as <-.
    apply later_round_lookup in Hp0 as ->.
    pose proof (Nat.div_mod_eq m 2) as Hdm.
    pose proof (Nat.mod_upper_bound m 2 ltac:(lia)) as Hmod.
    unfold later_round_match. cbv zeta. cbn [m_players].
    destruct (decide (m mod 2 = 0)) as [E|E].
    + rewrite E. replace (2 * (m / 2)) with m by lia.
      rewrite Hmt0, Hbye. simpl.
      destruct (bool_decide (o2 = None)); simpl; [congruence|].
      rewrite Hwin in Hw. done.
    + replace (m mod 2) with 1 by lia.
      replace (2 * (m / 2) + 1) with m by lia.
      rewrite Hmt0, Hbye. simpl.
      destruct (bool_decide (o2 = None)); simpl; [congruence|].
      rewrite Hwin in Hw. done.
  - (* later rounds are generated without winners *)
    apply match_at_Some in H0 as (round & Hround & Hmt0).
    simpl in Hround.
    destruct (later_rounds_lookup _ _ _ _ _ _ Hround Hmt0) as (_ & _ & Hnone & _).
    rewrite Heq in Hw. destruct (finish_fields R (S r) m mt0) as (_ & _ & _ & Hw0 & _).
    congruence.
Qed.
End generated.

(** C3.  For [n >= 2] players, [generateBracket] returns
    [R = ceil (log2 n)] rounds; round [r] has [2 ^ (R - 1 - r)] matches;
    every match of a non-final round sits at position [matchIndex] and its
    [nextMatchId] is the id of match [floor (matchIndex / 2)] of the next
    round; the last round is a single match flagged [isGrandFinals]. *)
Theorem generateBracket_binary_tree (players : list Player) :
  2 ≤ length players →
  let b := generateBracket players in
  let R := Z.to_nat (Z.log2_up (Z.of_nat (length players))) in
  length (winners b) = R
  ∧ (∀ r round, winners b !! r = Some round → length round = 2 ^ (R - 1 - r))
  ∧ (∀ r m mt, r + 1 < R → match_at (winners b) r m = Some mt →
       matchIndex mt = Z.of_nat m
       ∧ ∃ parent,
           match_at (winners b) (r + 1) (Z.to_nat (matchIndex mt / 2)) = Some parent
           ∧ nextMatchId mt = Some (m_id parent))
  ∧ (∃ final, winners b !! (R - 1) = Some [final]
              ∧ isGrandFinals final = Some true).
Proof.
  intros Hn b R.
  destruct (generated_rounds players Hn) as (HR & Hlen & Hrounds).
  fold b R in Hlen, Hrounds, HR. split_and!; [done..| |].
  - intros r m mt Hr Hmt.
    destruct (generated_match_inv players Hn _ _ _ Hmt) as (mt0 & _ & E & _ & Hidx & _).
    assert (Hm : matchIndex mt = Z.of_nat m).
    { destruct (finish_fields R r m mt0) as (_ & Hf & _).
      rewrite E. etrans; [exact Hf|done]. }
    split; [done|]. rewrite Hm.
    change 2%Z with (Z.of_nat 2). rewrite <-Nat2Z.inj_div, Nat2Z.id.
    destruct (generated_parent players Hn r m mt Hr Hmt) as (parent & ? & ? & _).
    eauto.
  - destruct (lookup_lt_is_Some_2 (winners b) (R - 1)) as [round Hround]; [lia|].
    pose proof (Hrounds _ _ Hround) as Hl.
    replace (R - 1 - (R - 1)) with 0 in Hl by lia. simpl in Hl.
    destruct round as [|final [|??]]; simpl in Hl; try lia.
    exists final. split; [done|].
    apply (generated_final players Hn (R - 1) 0); [lia|].
    apply match_at_Some. eauto.
Qed.

Lemma generateBracket_binary_tree_witness :
  let b := generateBracket three_players in
  length (winners b) = 2
  ∧ (∀ r round, winners b !! r = Some round → length round = 2 ^ (2 - 1 - r))
  ∧ (∀ r m mt, r + 1 < 2 → match_at (winners b) r m = Some mt →
       matchIndex mt = Z.of_nat m
       ∧ ∃ parent,
           match_at (winners b) (r + 1) (Z.to_nat (matchIndex mt / 2)) = Some parent
           ∧ nextMatchId mt = Some (m_id parent))
  ∧ (∃ final, winners b !! (2 - 1) = Some [final]
              ∧ isGrandFinals final = Some true).
Proof. apply (generateBracket_binary_tree three_players). simpl. lia. Defined.

(** C4.  For [n >= 2] players, a first-round match of the generated
    bracket is flagged [isBye] exactly when exactly one of its two slots is
    null; a bye has its only player as [winnerId], and that player already
    sits in the round-1 match [floor (matchIndex / 2)], in the slot chosen
    by the parity of the bye's index, with no score reported. *)
Theorem generateBracket_byes (players : list Player) (i : nat) (mt : Match) :
  2 ≤ length players →
  match_at (winners (generateBracket players)) 0 i = Some mt →
  (isBye mt = Some true ↔
     ∃ p, m_players mt = [Some p; None] ∨ m_players mt = [None; Some p])
  ∧ (isBye mt = Some true →
     ∃ p, (m_players mt = [Some p; None] ∨ m_players mt = [None; Some p])
          ∧ winnerId mt = Some p
          ∧ ∃ parent,
              match_at (winners (generateBracket players)) 1
                (Z.to_nat (matchIndex mt / 2)) = Some parent
              ∧ m_players parent !! playerIndexInNextMatch mt = Some (Some p)).
Proof.
  intros Hn Hmt.
  destruct (generated_first_round players Hn i mt Hmt) as (p1 & o2 & Hpl & Hbye & Hwin).
  destruct o2 as [p2|]; simpl in Hbye, Hwin.
  { rewrite Hpl, Hbye. split; [|done]. split; [done|]. by intros [p [[=]|[=]]]. }
  split.
  - rewrite Hpl, Hbye. split; [eauto|done].
  - intros _.
    exists p1. split_and!; [by left|done|].
    destruct (generated_rounds players Hn) as (HR & Hlen & Hrounds).
    destruct (generated_position players Hn _ _ _ Hmt) as [_ Hi].
    set (R := Z.to_nat (Z.log2_up (Z.of_nat (length players)))) in *.
    assert (2 ≤ R).
    { (* a bracket of one round holds exactly two players, hence no bye *)
      destruct (decide (2 ≤ R)) as [|HR1]; [done|exfalso].
      assert (R = 1) as HR' by lia.
      destruct (bracket_size_spec _ Hn) as (K & HK & Hlog & Hsz & Hlo & Hhi).
      assert (K = 1) as -> by (unfold R in HR'; lia).
      rewrite HR' in Hi. simpl in Hi, Hlo, Hhi. assert (i = 0) as -> by lia.
      destruct (generated_match_inv players Hn _ _ _ Hmt) as (mt0 & H0 & E & _).
      fold R in E.
      apply match_at_Some in H0 as (round & [= <-] & ->%first_round_lookup).
      destruct (finalPlayerOrder_in_range players 1 Hn HK Hsz Hlo Hhi 0 ltac:(simpl; lia))
        as (s & [= <-] & _ & _ & Hodd & _ & _).
      destruct (playerIds_occupied players 1) as (p & _ & Hp); [lia|].
      change (2 * 0 + 1) with 1 in Hodd.
      replace (Z.to_nat (Z.of_nat (2 ^ 1) - 1)) with 1 in Hodd by (simpl; lia).
      rewrite Hp in Hodd.
      rewrite E in Hpl. destruct (finish_fields R 0 0
        (first_round_match (final_player_order players) 0)) as (_ & _ & Hf & _).
      rewrite Hf, first_round_match_players in Hpl.
      change (2 * 0 + 1) with 1 in Hpl. rewrite Hodd in Hpl. by simplify_eq/=. }
    destruct (generated_winner_placed players Hn 0 i mt p1 ltac:(done) Hmt Hwin)
      as (parent' & Hp' & Hslot).
    exists parent'. split; [|done].
    destruct (generated_match_inv players Hn _ _ _ Hmt) as (mt0 & _ & E & _ & Hidx & _).
    destruct (finish_fields R 0 i mt0) as (_ & Hf & _).
    rewrite E. fold R. rewrite Hf, Hidx.
    change 2%Z with (Z.of_nat 2). by rewrite <-Nat2Z.inj_div, Nat2Z.id.
Qed.

(** C8.  For [n >= 2] players the bracket size is below [2 n], and every
    first-round match of the generated bracket has a non-null player. *)
Theorem generateBracket_no_double_bye (players : list Player) (i : nat)
    (mt : Match) :
  2 ≤ length players →
  match_at (winners (generateBracket players)) 0 i = Some mt →
  (bracket_size (length players) < 2 * Z.of_nat (length players))%Z
  ∧ ∃ p, Some p ∈ m_players mt.
Proof.
  intros Hn Hmt. split.
  - destruct (bracket_size_spec _ Hn) as (K & _ & _ & -> & _ & ?). lia.
  - destruct (generated_first_round players Hn i mt Hmt) as (p1 & o2 & -> & _).
    exists p1. apply elem_of_cons. by left.
Qed.

(** C6.  With pairwise distinct seeds, a permutation of the player list
    yields the same first round (indeed the same bracket): the placement
    depends only on which player holds which seed. *)
Theorem generateBracket_placement_by_seed (players players' : list Player) :
  NoDup (seed <$> players) → players ≡ₚ players' →
  winners (generateBracket players) !! 0 = winners (generateBracket players') !! 0
  ∧ generateBracket players = generateBracket players'.
Proof.
  intros Hnd Hperm.
  assert (generateBracket players = generateBracket players') as ->; [|done].
  unfold generateBracket, first_round, final_player_order.
  rewrite <-(Permutation_length Hperm).
  by rewrite (sort_by_seed_of_permutation _ _ Hnd Hperm).
Qed.

Lemma generateBracket_placement_by_seed_witness :
  winners (generateBracket three_players) !! 0
  = winners (generateBracket (sample_player <$> [2; 3; 1]%Z)) !! 0
  ∧ generateBracket three_players = generateBracket (sample_player <$> [2; 3; 1]%Z).
Proof.
  apply (generateBracket_placement_by_seed three_players).
  - compute_done.
  - symmetry.
    apply (Permutation_cons_append [sample_player 3; sample_player 1]
             (sample_player 2)).
Defined.

(** ** The store after a service call *)
Lemma updateTournament_run id updates store :
  updateTournament id updates store
  = ((λ t, if decide (t_id t = id) then apply_updates updates t else t) <$> store,
     Return (last (apply_updates updates <$> filter (λ t, t_id t = id) store))).
Proof. done. Qed.

Lemma apply_updates_bracket nb t :
  apply_updates (bracket_update nb) t = merge_updates t (bracket_update nb).
Proof. unfold apply_updates. simpl. by destruct (status t). Qed.

Lemma apply_updates_bracket_id nb t :
  t_id (apply_updates (bracket_update nb) t) = t_id t.
Proof. by rewrite apply_updates_bracket. Qed.

Lemma find_tournament_Some tid store t :
  find_tournament tid store = Some t → t_id t = tid.
Proof.
  unfold find_tournament. intros [[i t'] [H ->]]%fmap_Some.
  by apply list_find_Some in H as (_ & ? & _).
Qed.

(** The tournament found under [tid] after [updateTournament(tid,
    { bracket: nb })]. *)
Lemma stored_after_bracket_update tid nb store t :
  find_tournament tid store = Some t →
  find_tournament tid (updateTournament tid (bracket_update nb) store).1
  = Some (merge_updates t (bracket_update nb)).
Proof.
  intros Hfind. pose proof (find_tournament_Some _ _ _ Hfind) as Hid.
  rewrite updateTournament_run. simpl. unfold find_tournament in *.
  rewrite list_find_fmap.
  rewrite (list_find_ext _ (λ t, t_id t = tid)).
  - destruct (list_find _ store) as [[i t']|]; simplify_eq/=.
    rewrite decide_True by done. by rewrite apply_updates_bracket.
  - intros t'. simpl. case_decide; [|done].
    by rewrite apply_updates_bracket_id.
Qed.

(** C7.  [updateTournament(id, updates)] stores every tournament whose id
    differs from [id] back unchanged, at its place in a list of the same
    length. *)
Theorem updateTournament_frame (store : list Tournament) (id : string)
    (updates : TournamentUpdates) (i : nat) (t : Tournament) :
  store !! i = Some t → t_id t ≠ id →
  (updateTournament id updates store).1 !! i = Some t
  ∧ length (updateTournament id updates store).1 = length store.
Proof.
  intros Hi Hid. rewrite updateTournament_run. simpl.
  rewrite list_lookup_fmap, Hi, length_fmap. simpl.
  by rewrite decide_False.
Qed.

(** C10.  For the stored tournament [t] with the given id and the pending
    record [{ ...t, ...updates }]: starting (status 'Open for Registration',
    update to 'In Progress') with fewer than two players keeps the status
    and generates no bracket (the bracket field is the pending one, the
    stored one when the update carries none); with two or more players it
    stores status 'In Progress' and the bracket generated from the players
    sorted by seed; reverting ('In Progress' to 'Open for Registration')
    stores an undefined bracket. *)
Theorem updateTournament_start_and_revert (store : list Tournament)
    (id : string) (updates : TournamentUpdates) (i : nat) (t : Tournament) :
  store !! i = Some t → t_id t = id →
  let pending := merge_updates t updates in
  ∃ t', (updateTournament id updates store).1 !! i = Some t'
    ∧ (status t = REGISTRATION_OPEN → u_status updates = Some IN_PROGRESS →
       length (t_players pending) < 2 →
       status t' = REGISTRATION_OPEN ∧ bracket t' = bracket pending
       ∧ (u_bracket updates = None → bracket t' = bracket t))
    ∧ (status t = REGISTRATION_OPEN → u_status updates = Some IN_PROGRESS →
       2 ≤ length (t_players pending) →
       status t' = IN_PROGRESS
       ∧ bracket t' = Some (generateBracket (sort_by_seed (t_players pending))))
    ∧ (status t = IN_PROGRESS → u_status updates = Some REGISTRATION_OPEN →
       bracket t' = None).
Proof.
  intros Hi Hid pending. rewrite updateTournament_run. simpl.
  rewrite list_lookup_fmap, Hi. simpl. rewrite decide_True by done.
  eexists. split; [done|].
  unfold apply_updates. fold pending.
  assert (Hst : status pending = default (status t) (u_status updates)) by done.
  split_and!; intros Ht Hu; rewrite Ht, Hst, Hu; simpl.
  - intros Hlt. rewrite decide_False by lia. simpl. split_and!; [done..|].
    intros Hb. unfold pending. simpl. by rewrite Hb.
  - intros Hge. rewrite decide_True by lia. simpl. split; [|done].
    by rewrite Hu.
  - done.
Qed.

(** ** Looking matches up by id *)
Lemma match_at_alter f r i rounds r0 i0 :
  match_at (alter_match f r i rounds) r0 i0
  = (λ m, if decide (r0 = r ∧ i0 = i) then f m else m) <$> match_at rounds r0 i0.
Proof.
  unfold match_at, alter_match.
  destruct (decide (r0 = r)) as [->|Hr].
  - rewrite list_lookup_alter_eq. destruct (rounds !! r) as [round|]; simpl; [|done].
    destruct (decide (i0 = i)) as [->|Hi].
    + rewrite list_lookup_alter_eq. destruct (round !! i); simpl; [|done].
      by rewrite decide_True.
    + rewrite list_lookup_alter_ne by done. destruct (round !! i0); simpl; [|done].
      rewrite decide_False; [done|by intros [_ ?]].
  - rewrite list_lookup_alter_ne by done.
    destruct (rounds !! r0 ≫= (.!! i0)); simpl; [|done].
    rewrite decide_False; [done|by intros [? _]].
Qed.

Lemma match_at_cons_0 round rest i : match_at (round :: rest) 0 i = round !! i.
Proof. done. Qed.

Lemma match_at_cons_S round rest r i :
  match_at (round :: rest) (S r) i = match_at rest r i.
Proof. done. Qed.

Lemma find_in_rounds_cons mid round rest :
  find_in_rounds mid (round :: rest)
  = match find_match mid round with
    | Some (i, m) => Some (0, i, m)
    | None => (λ '(r, i, m), (S r, i, m)) <$> find_in_rounds mid rest
    end.
Proof.
  simpl. destruct (find_match mid round) as [[??]|]; [done|].
  by destruct (find_in_rounds mid rest) as [[[??]?]|].
Qed.

Lemma find_in_rounds_None mid rounds :
  find_in_rounds mid rounds = None ↔
  ∀ r i m, match_at rounds r i = Some m → m_id m ≠ mid.
Proof.
  induction rounds as [|round rest IH]; simpl.
  - split; [|done]. by intros _ [|?] ??.
  - destruct (find_match mid round) as [[i m]|] eqn:E.
    + apply list_find_Some in E as (Hi & Hid & _).
      split; [done|]. intros H. by destruct (H 0 i m Hi).
    + apply list_find_None in E. rewrite Forall_forall in E.
      destruct (find_in_rounds mid rest) as [[[r i] m]|].
      * split; [done|]. intros H. exfalso.
        assert (Hn : Some (r, i, m) = None); [|done].
        apply IH. intros r0 i0 m0. apply (H (S r0)).
      * split; [|done]. intros _ [|r0] i0 m0.
        -- rewrite match_at_cons_0. intros ?%list_elem_of_lookup_2. by apply E.
        -- rewrite match_at_cons_S. by apply IH.
Qed.

Lemma find_in_rounds_Some mid rounds r i m :
  find_in_rounds mid rounds = Some (r, i, m) ↔
  match_at rounds r i = Some m ∧ m_id m = mid
  ∧ (∀ i0 m0, i0 < i → match_at rounds r i0 = Some m0 → m_id m0 ≠ mid)
  ∧ (∀ r0 i0 m0, r0 < r → match_at rounds r0 i0 = Some m0 → m_id m0 ≠ mid).
Proof.
  revert r i m. induction rounds as [|round rest IH]; intros r i m.
  { split; [done|]. by intros [? _]. }
  rewrite find_in_rounds_cons.
  destruct (find_match mid round) as [[i' m']|] eqn:E.
  - apply list_find_Some in E as (Hi & Hid & Hbefore). split.
    + intros [= <- <- <-]. split_and!; [exact Hi|exact Hid| |intros; lia].
      intros i0 m0 ? H0. rewrite match_at_cons_0 in H0. by eapply Hbefore.
    + intros (Hat & Hm & Hrow & Hrounds). destruct r as [|r].
      * rewrite match_at_cons_0 in Hat.
        destruct (Nat.lt_trichotomy i i') as [?|[->|?]].
        -- by destruct (Hbefore i m).
        -- congruence.
        -- by destruct (Hrow i' m').
      * by destruct (Hrounds 0 i' m' ltac:(lia)).
  - apply list_find_None in E. rewrite Forall_forall in E. split.
    + intros [[[r' i'] m'] [Hf [= -> -> ->]]]%fmap_Some.
      apply IH in Hf as (Hat & Hm & Hrow & Hrounds).
      split_and!; [exact Hat|exact Hm|exact Hrow|].
      intros [|r0] i0 m0 ?.
      * rewrite match_at_cons_0. intros ?%list_elem_of_lookup_2. by apply E.
      * rewrite match_at_cons_S. apply Hrounds. lia.
    + intros (Hat & Hm & Hrow & Hrounds). destruct r as [|r].
      { rewrite match_at_cons_0 in Hat.
        apply list_elem_of_lookup_2 in Hat. by destruct (E m). }
      apply fmap_Some. exists (r, i, m). split; [|done].
      apply IH. split_and!; [exact Hat|exact Hm|exact Hrow|].
      intros r0 i0 m0 ?. apply (Hrounds (S r0)). lia.
Qed.

(** A position-wise change of the matches that keeps their ids keeps the
    outcome of every search by id. *)
Lemma find_in_rounds_same_ids mid rounds rounds' (g : nat → nat → Match → Match) :
  (∀ r i, match_at rounds' r i = g r i <$> match_at rounds r i) →
  (∀ r i m, m_id (g r i m) = m_id m) →
  find_in_rounds mid rounds'
  = (λ '(r, i, m), (r, i, g r i m)) <$> find_in_rounds mid rounds.
Proof.
  intros Hat Hid.
  assert (Hback : ∀ r i m', match_at rounds' r i = Some m' →
            ∃ m, match_at rounds r i = Some m ∧ m_id m' = m_id m).
  { intros r i m'. rewrite Hat. intros [m [? ->]]%fmap_Some. eauto. }
  destruct (find_in_rounds mid rounds) as [[[r i] m]|] eqn:E; simpl.
  - apply find_in_rounds_Some in E as (Hm & Hmid & Hrow & Hrounds).
    apply find_in_rounds_Some. split_and!.
    + by rewrite Hat, Hm.
    + by rewrite Hid.
    + intros i0 m0 ? (m00 & ? & ->)%Hback. by eapply Hrow.
    + intros r0 i0 m0 ? (m00 & ? & ->)%Hback. by eapply Hrounds.
  - apply find_in_rounds_None. intros r i m' (m & ? & ->)%Hback.
    by eapply find_in_rounds_None.
Qed.

Lemma find_in_rounds_alter mid f r i rounds :
  (∀ m, m_id (f m) = m_id m) →
  find_in_rounds mid (alter_match f r i rounds)
  = (λ '(r0, i0, m), (r0, i0, if decide (r0 = r ∧ i0 = i) then f m else m))
      <$> find_in_rounds mid rounds.
Proof.
  intros Hf.
  apply (find_in_rounds_same_ids mid rounds _
           (λ r0 i0 m, if decide (r0 = r ∧ i0 = i) then f m else m)).
  - intros. apply match_at_alter.
  - intros. by case_decide.
Qed.

Lemma array_set_lookup {A} (hole v : A) i a :
  array_set hole i v a !! i = Some v.
Proof.
  unfold array_set. case_decide.
  - by apply list_lookup_insert_eq.
  - rewrite lookup_app_r by lia.
    rewrite lookup_app_r by (rewrite length_replicate; lia).
    rewrite length_replicate. by replace (i - length a - (i - length a)) with 0 by lia.
Qed.

Lemma playerIndexInNextMatch_even m :
  Z.even (matchIndex m) = true → playerIndexInNextMatch m = 0.
Proof.
  intros H. unfold playerIndexInNextMatch. rewrite Zrem_even, H.
  by rewrite decide_True.
Qed.

Lemma playerIndexInNextMatch_odd m :
  Z.odd (matchIndex m) = true → playerIndexInNextMatch m = 1.
Proof.
  intros H. unfold playerIndexInNextMatch. rewrite Zrem_odd, H.
  rewrite decide_False; [done|].
  destruct (matchIndex m); simpl in *; done.
Qed.

Lemma truthy_Some v s : truthy v = Some s ↔ v = Some s ∧ s ≠ "".
Proof.
  unfold truthy. destruct v as [s'|]; [|split; [done|by intros [? _]]].
  case_decide as Hs.
  - split; [done|]. intros [[= ->] ?]. done.
  - split; [by intros [= ->]|]. by intros [[= ->] _].
Qed.

Lemma updateMatchWinner_run tid mid w sc store t b :
  find_tournament tid store = Some t → bracket t = Some b →
  updateMatchWinner tid mid w sc store
  = updateTournament tid
      (bracket_update (mkBracket (findAndAdvance mid w sc (winners b)))) store.
Proof.
  intros Hfind Hb. unfold updateMatchWinner, mbind, service_bind, getFromStorage.
  by rewrite Hfind, Hb.
Qed.

(** The bracket copy after [findAndAdvance], when the reported match has a
    truthy [nextMatchId] that names a match of the bracket. *)
Lemma findAndAdvance_advances rounds mid w sc r i m next r' j nm :
  find_in_rounds mid rounds = Some (r, i, m) →
  nextMatchId m = Some next → next ≠ "" →
  find_in_rounds next rounds = Some (r', j, nm) →
  ∃ m' nm',
    match_at (findAndAdvance mid w sc rounds) r i = Some m' ∧ m_id m' = mid
    ∧ winnerId m' = Some w ∧ scores m' = sc
    ∧ match_at (findAndAdvance mid w sc rounds) r' j = Some nm' ∧ m_id nm' = next
    ∧ m_players nm' !! playerIndexInNextMatch m = Some (Some w).
Proof.
  intros Hm Hnext Hne Hnm.
  pose proof Hm as (Hat & Hmid & _)%find_in_rounds_Some.
  pose proof Hnm as (Hnat & Hnid & _)%find_in_rounds_Some.
  unfold findAndAdvance. rewrite Hm. cbv zeta.
  rewrite match_at_alter, Hat. simpl. rewrite decide_True by done.
  unfold advance_winner.
  replace (truthy (nextMatchId (report_result w sc m))) with (Some next)
    by (symmetry; by apply truthy_Some).
  rewrite find_in_rounds_alter, Hnm by done. simpl.
  set (setp := λ nextMatch : Match, set_players _ nextMatch).
  rewrite !match_at_alter, Hat, Hnat. simpl.
  rewrite (decide_True (P := r = r ∧ i = i)) by done.
  rewrite (decide_True (P := r' = r' ∧ j = j)) by done.
  eexists _, _. split_and!; try done.
  - by case_decide.
  - by case_decide.
  - by case_decide.
  - case_decide; simpl; done.
  - subst setp. simpl.
    change (playerIndexInNextMatch (report_result w sc m))
      with (playerIndexInNextMatch m).
    apply array_set_lookup.
Qed.

(** ** Reversal *)

Lemma checkNextMatch_run next w rounds :
  checkNextMatch next w rounds
  = if existsb (next_played next) rounds then Throw subsequent_played
    else Return (clear_round next w <$> rounds).
Proof.
  induction rounds as [|round rest IH]; csimpl; [done|].
  unfold next_played at 1, clear_round at 1.
  destruct (find_match next round) as [[j nm]|]; simpl.
  - destruct (truthy (winnerId nm)) as [s|]; simpl; [done|].
    rewrite IH. by destruct (existsb _ rest).
  - rewrite IH. by destruct (existsb _ rest).
Qed.

Lemma existsb_next_played next rounds :
  existsb (next_played next) rounds = true ↔
  ∃ round j nm, round ∈ rounds ∧ find_match next round = Some (j, nm)
                ∧ is_Some (truthy (winnerId nm)).
Proof.
  induction rounds as [|round rest IH]; simpl.
  - split; [done|]. by intros (? & ? & ? & ?%elem_of_nil & _).
  - rewrite orb_true_iff, IH. unfold next_played. split.
    + intros [H|(round' & j & nm & ? & ?)].
      * destruct (find_match next round) as [[j nm]|] eqn:E; [|done].
        apply bool_decide_eq_true in H. exists round, j, nm.
        split_and!; [apply elem_of_cons; by left|done..].
      * exists round', j, nm. split; [apply elem_of_cons; by right|done].
    + intros (round' & j & nm & [->|?]%elem_of_cons & Hf & Hw).
      * left. rewrite Hf. by apply bool_decide_eq_true.
      * right. eauto 10.
Qed.

Lemma match_at_clear_round rounds next w r i :
  match_at (clear_round next w <$> rounds) r i
  = cleared_at rounds next w r i <$> match_at rounds r i.
Proof.
  unfold match_at, cleared_at. rewrite list_lookup_fmap.
  destruct (rounds !! r) as [round|]; simpl; [|done].
  unfold clear_round. destruct (find_match next round) as [[j nm]|]; simpl.
  - destruct (decide (i = j)) as [->|Hij].
    + rewrite list_lookup_alter_eq. destruct (round !! j); simpl; [|done].
      case_decide as H; [done|]. by destruct H.
    + rewrite list_lookup_alter_ne by done. destruct (round !! i); simpl; [|done].
      case_decide as H; [congruence|done].
  - by destruct (round !! i).
Qed.

Lemma clear_player_lookup w ps k :
  clear_player w ps !! k
  = if decide (indexOf (Some w) ps = Some k) then Some None else ps !! k.
Proof.
  unfold clear_player, indexOf.
  destruct (list_find _ ps) as [[p x]|] eqn:E; simpl.
  - apply list_find_Some in E as (Hp & _). apply lookup_lt_Some in Hp.
    destruct (decide (p = k)) as [->|Hpk].
    + rewrite decide_True by done. by apply list_lookup_insert_eq.
    + rewrite decide_False by congruence. by apply list_lookup_insert_ne.
  - done.
Qed.

Lemma reverseMatchWinner_run tid mid store :
  reverseMatchWinner tid mid store
  = match find_tournament tid store ≫= bracket with
    | None => (store, Throw "Tournament not found.")
    | Some b =>
        match find_in_rounds mid (winners b) with
        | Some (r, i, m) =>
            match truthy (winnerId m) with
            | Some w =>
                if match truthy (nextMatchId m) with
                   | Some next => existsb (next_played next) (winners b)
                   | None => false
                   end
                then (store, Throw subsequent_played)
                else updateTournament tid
                       (bracket_update (mkBracket (reversed_rounds (winners b) r i m w)))
                       store
            | None => (store, Throw "Match not found or it has no winner to reverse.")
            end
        | None => (store, Throw "Match not found or it has no winner to reverse.")
        end
    end.
Proof.
  unfold reverseMatchWinner, mbind at 1, service_bind, getFromStorage.
  destruct (find_tournament tid store ≫= bracket) as [b|]; [|done].
  destruct (find_in_rounds mid (winners b)) as [[[r i] m]|]; [|done].
  destruct (truthy (winnerId m)) as [w|]; [|done].
  unfold reversed_rounds.
  destruct (truthy (nextMatchId m)) as [next|]; [|done].
  rewrite checkNextMatch_run. by destruct (existsb _ _).
Qed.

Lemma reversed_rounds_match rounds r i m w :
  match_at rounds r i = Some m →
  ∃ m', match_at (reversed_rounds rounds r i m w) r i = Some m'
        ∧ m_id m' = m_id m ∧ winnerId m' = None ∧ scores m' = [0%Z; 0%Z].
Proof.
  intros Hat. unfold reversed_rounds. rewrite match_at_alter.
  destruct (truthy (nextMatchId m)) as [next|].
  - rewrite match_at_clear_round, Hat. simpl. rewrite decide_True by done.
    eexists. split; [done|]. unfold cleared_at. by case_decide.
  - rewrite Hat. simpl. rewrite decide_True by done. by eexists.
Qed.

Lemma reversed_rounds_next rounds r i m w next r' round j nm :
  match_at rounds r i = Some m → truthy (winnerId m) = Some w →
  truthy (nextMatchId m) = Some next →
  existsb (next_played next) rounds = false →
  rounds !! r' = Some round → find_match next round = Some (j, nm) →
  match_at (reversed_rounds rounds r i m w) r' j
  = Some (set_players (clear_player w (m_players nm)) nm).
Proof.
  intros Hat Hw Hnext Hplayed Hround Hfind.
  pose proof Hfind as (Hj & _)%list_find_Some.
  assert (Hnm : match_at rounds r' j = Some nm).
  { apply match_at_Some. eauto. }
  assert (Hnw : truthy (winnerId nm) = None).
  { destruct (truthy (winnerId nm)) as [s|] eqn:E; [|done].
    apply not_true_iff_false in Hplayed. destruct Hplayed.
    apply existsb_next_played. exists round, j, nm.
    split_and!; [by eapply list_elem_of_lookup_2|done|by rewrite E]. }
  unfold reversed_rounds. rewrite Hnext, match_at_alter, match_at_clear_round, Hnm.
  simpl. rewrite decide_False.
  - unfold cleared_at. rewrite Hround. simpl. rewrite Hfind. simpl.
    by rewrite decide_True.
  - intros [-> ->]. congruence.
Qed.

(** C9.  [reverseMatchWinner] throws exactly in the cases of
    [reverse_refused]; whenever it throws the store is unchanged; when it
    returns, the stored bracket has the match with a null [winnerId] and
    scores [[0, 0]], and in every next match the first slot that held the
    former winner is null, the other slots being unchanged. *)
Theorem reverseMatchWinner_spec (store : list Tournament) (tid mid : string) :
  let out := reverseMatchWinner tid mid store in
  ((∃ message, out.2 = Throw message) ↔ reverse_refused store tid mid)
  ∧ (∀ message, out.2 = Throw message → out.1 = store)
  ∧ (∀ ret, out.2 = Return ret →
       ∃ t b r i m w tn bn m',
         find_tournament tid store = Some t ∧ bracket t = Some b
         ∧ find_in_rounds mid (winners b) = Some (r, i, m)
         ∧ truthy (winnerId m) = Some w
         ∧ find_tournament tid out.1 = Some tn ∧ bracket tn = Some bn
         ∧ match_at (winners bn) r i = Some m' ∧ m_id m' = mid
         ∧ winnerId m' = None ∧ scores m' = [0%Z; 0%Z]
         ∧ ∀ next r' round j nm,
             truthy (nextMatchId m) = Some next →
             winners b !! r' = Some round →
             find_match next round = Some (j, nm) →
             ∃ nm', match_at (winners bn) r' j = Some nm' ∧ m_id nm' = next
                    ∧ ∀ k, m_players nm' !! k
                           = if decide (indexOf (Some w) (m_players nm) = Some k)
                             then Some None else m_players nm !! k).
Proof.
  intros out. subst out. rewrite reverseMatchWinner_run. unfold reverse_refused.
  destruct (find_tournament tid store) as [t|] eqn:Hfind; simpl.
  2: { split_and!; [|done..]. split; [intros _; by left|intros _; by eexists]. }
  destruct (bracket t) as [b|] eqn:Hb; simpl.
  2: { split_and!; [|done..]. split; [intros _|intros _; by eexists].
       right; left. by exists t. }
  destruct (find_in_rounds mid (winners b)) as [[[r i] m]|] eqn:Hm; simpl.
  2: { split_and!; [|done..]. split; [intros _|intros _; by eexists].
       right; right. exists t, b. split_and!; [done..|by left]. }
  destruct (truthy (winnerId m)) as [w|] eqn:Hw; simpl.
  2: { split_and!; [|done..]. split; [intros _|intros _; by eexists].
       right; right. exists t, b. split_and!; [done..|]. right.
       exists r, i, m. split; [done|by left]. }
  pose proof Hm as (Hat & Hmid & _)%find_in_rounds_Some.
  destruct (match truthy (nextMatchId m) with
            | Some next => existsb (next_played next) (winners b)
            | None => false
            end) eqn:Hplayed.
  - simpl. split_and!; [|done|done]. split; [intros _|by eexists].
    destruct (truthy (nextMatchId m)) as [next|] eqn:Hnext; [|done].
    apply existsb_next_played in Hplayed as (round & j & nm & ? & ? & ?).
    right; right. exists t, b. split_and!; [done..|]. right.
    exists r, i, m. split; [done|]. right. exists next, round, j, nm. done.
  - rewrite updateTournament_run. simpl. split_and!.
    + split; [by intros [? [=]]|]. intros [?|[(t' & ? & ?)|(t' & b' & ? & ? & H)]];
        simplify_eq.
      destruct H as [?|(r' & i' & m' & ? & H)]; simplify_eq.
      destruct H as [?|(next & round & j & nm & Hnext & Hin & Hf & Hplay)];
        simplify_eq.
      rewrite Hnext in Hplayed. apply not_true_iff_false in Hplayed.
      destruct Hplayed. apply existsb_next_played. eauto 10.
    + done.
    + intros ret _.
      destruct (reversed_rounds_match (winners b) r i m w Hat)
        as (m' & Hm' & Hid' & Hw' & Hs').
      pose proof (stored_after_bracket_update tid
        (mkBracket (reversed_rounds (winners b) r i m w)) store t Hfind) as Hst.
      rewrite updateTournament_run in Hst. simpl in Hst.
      eexists t, b, r, i, m, w, _, _, m'.
      split_and!; [done|done|done|done|exact Hst|done|done|congruence|done|done|].
      intros next r' round j nm Hnext Hround Hf. rewrite Hnext in Hplayed.
      eexists. split; [by eapply reversed_rounds_next|].
      pose proof Hf as (_ & ? & _)%list_find_Some.
      split; [done|]. intros k. simpl. apply clear_player_lookup.
Qed.

(** The guard on [nextMatchId] is a truthiness test, so an empty id is not
    followed although it is not null.  The service never writes such an id:
    the store below is edited by hand, its bracket is not linked, and the
    advance does not happen in it. *)
Example updateMatchWinner_empty_nextMatchId :
  find_tournament "t" unlabelled_store
  = Some (sample_tournament "t" IN_PROGRESS two_players
            (Some (mkBracket [[unlabelled_feeder]; [unlabelled_final]])))
  ∧ ¬ linked_bracket [[unlabelled_feeder]; [unlabelled_final]]
  ∧ find_in_rounds "A" [[unlabelled_feeder]; [unlabelled_final]]
    = Some (0, 0, unlabelled_feeder)
  ∧ nextMatchId unlabelled_feeder = Some ""
  ∧ find_in_rounds "" [[unlabelled_feeder]; [unlabelled_final]]
    = Some (1, 0, unlabelled_final)
  ∧ Z.even (matchIndex unlabelled_feeder) = true
  ∧ ∃ t' b' nm',
      find_tournament "t"
        (updateMatchWinner "t" "A" "p1" [1%Z; 0%Z] unlabelled_store).1 = Some t'
      ∧ bracket t' = Some b'
      ∧ match_at (winners b') 1 0 = Some nm'
      ∧ m_players nm' !! 0 = Some None.
Proof.
  split_and!; [reflexivity| |reflexivity..|].
  - intros Hl. by destruct (Hl 0 0 unlabelled_feeder eq_refl) as [(Hid & _) _].
  - eexists _, _, _. split_and!; reflexivity.
Qed.

(** C5 as stated fails: the only match of the bracket of two players is
    the final, and it has no next match to feed into. *)
Lemma generateBracket_final_has_no_next :
  ∃ mt, match_at (winners (generateBracket two_players)) 0 0 = Some mt
        ∧ ¬ ∃ parent r m, next_match_of (generateBracket two_players) mt parent r m.
Proof.
  eexists. split; [vm_compute; reflexivity|].
  intros (parent & r & m & _ & Hnext & _). simpl in Hnext. discriminate.
Qed.

(** C5, amended.  In the bracket generated for [n >= 2] players every
    match has at most one winner; a match of the final round has no next
    match; a match of any other round has exactly one next match, the only
    match of the bracket whose id is its [nextMatchId], which is match
    [floor (m / 2)] of the next round, and a winner that is set occupies
    the slot of that match chosen by the parity of the match index. *)
Theorem generateBracket_next_match (players : list Player) (r m : nat)
    (mt : Match) :
  2 ≤ length players →
  match_at (winners (generateBracket players)) r m = Some mt →
  let b := generateBracket players in
  let R := Z.to_nat (Z.log2_up (Z.of_nat (length players))) in
  (∀ w w', winnerId mt = Some w → winnerId mt = Some w' → w = w')
  ∧ (r + 1 = R → nextMatchId mt = None)
  ∧ (r + 1 < R →
     ∃ parent, next_match_of b mt parent (r + 1) (m / 2)
               ∧ ∀ w, winnerId mt = Some w →
                   m_players parent !! playerIndexInNextMatch mt
                   = Some (Some w)).
Proof.
  intros Hn Hmt b R. split_and!.
  - congruence.
  - intros Hr. by destruct (generated_final players Hn r m mt Hr Hmt) as (_ & ? & _).
  - intros Hr.
    destruct (generated_parent players Hn r m mt Hr Hmt) as (parent & Hp & Hnext & _).
    exists parent. split.
    + split_and!; [done..|]. intros r' m' mt' Hmt' Hid.
      by apply (generated_id_unique players Hn _ _ _ _ _ _ Hmt' Hp).
    + intros w Hw.
      destruct (generated_winner_placed players Hn r m mt w Hr Hmt Hw)
        as (parent' & Hp' & Hslot).
      fold b in Hp, Hp'. by simplify_eq.
Qed.

Lemma generateBracket_next_match_witness :
  let mt := mkMatch "1W1" 0 0 [Some "p1"; None] [0%Z; 0%Z] (Some "p1")
              (Some true) (Some "2W1") None None in
  let b := generateBracket three_players in
  (∀ w w', winnerId mt = Some w → winnerId mt = Some w' → w = w')
  ∧ (0 + 1 = 2 → nextMatchId mt = None)
  ∧ (0 + 1 < 2 →
     ∃ parent, next_match_of b mt parent (0 + 1) (0 / 2)
               ∧ ∀ w, winnerId mt = Some w →
                   m_players parent !! playerIndexInNextMatch mt
                   = Some (Some w)).
Proof.
  apply (generateBracket_next_match three_players 0 0); [simpl; lia|].
  vm_compute. reflexivity.
Defined.

Lemma generateBracket_byes_witness :
  let mt := mkMatch "1W1" 0 0 [Some "p1"; None] [0%Z; 0%Z] (Some "p1")
              (Some true) (Some "2W1") None None in
  (isBye mt = Some true ↔
     ∃ p, m_players mt = [Some p; None] ∨ m_players mt = [None; Some p])
  ∧ (isBye mt = Some true →
     ∃ p, (m_players mt = [Some p; None] ∨ m_players mt = [None; Some p])
          ∧ winnerId mt = Some p
          ∧ ∃ parent,
              match_at (winners (generateBracket three_players)) 1
                (Z.to_nat (matchIndex mt / 2)) = Some parent
              ∧ m_players parent !! playerIndexInNextMatch mt = Some (Some p)).
Proof.
  apply (generateBracket_byes three_players 0); [simpl; lia|].
  vm_compute. reflexivity.
Defined.

Lemma generateBracket_no_double_bye_witness :
  (bracket_size (length three_players) < 2 * Z.of_nat (length three_players))%Z
  ∧ ∃ p, Some p ∈ m_players
           (mkMatch "1W1" 0 0 [Some "p1"; None] [0%Z; 0%Z] (Some "p1")
              (Some true) (Some "2W1") None None).
Proof.
  apply (generateBracket_no_double_bye three_players 0); [simpl; lia|].
  vm_compute. reflexivity.
Defined.

Lemma updateTournament_frame_witness :
  (updateTournament "t1" (status_update COMPLETED) sample_store).1 !! 1
  = Some (sample_tournament "t2" REGISTRATION_OPEN three_players None)
  ∧ length (updateTournament "t1" (status_update COMPLETED) sample_store).1
    = length sample_store.
Proof.
  apply (updateTournament_frame sample_store "t1" (status_update COMPLETED) 1);
    [reflexivity|done].
Defined.

Lemma updateTournament_start_and_revert_witness :
  let t := sample_tournament "t2" REGISTRATION_OPEN three_players None in
  let updates := status_update IN_PROGRESS in
  let pending := merge_updates t updates in
  ∃ t', (updateTournament "t2" updates sample_store).1 !! 1 = Some t'
    ∧ (status t = REGISTRATION_OPEN → u_status updates = Some IN_PROGRESS →
       length (t_players pending) < 2 →
       status t' = REGISTRATION_OPEN ∧ bracket t' = bracket pending
       ∧ (u_bracket updates = None → bracket t' = bracket t))
    ∧ (status t = REGISTRATION_OPEN → u_status updates = Some IN_PROGRESS →
       2 ≤ length (t_players pending) →
       status t' = IN_PROGRESS
       ∧ bracket t' = Some (generateBracket (sort_by_seed (t_players pending))))
    ∧ (status t = IN_PROGRESS → u_status updates = Some REGISTRATION_OPEN →
       bracket t' = None).
Proof.
  apply (updateTournament_start_and_revert sample_store "t2"
           (status_update IN_PROGRESS) 1); reflexivity.
Defined.

(** Reversal on the sample store: refused while the match has no winner,
    and undone after a report. *)
Example reverseMatchWinner_refused :
  reverseMatchWinner "t1" "1W2" sample_store
  = (sample_store, Throw "Match not found or it has no winner to reverse.").
Proof. vm_compute. reflexivity. Qed.

Example reverseMatchWinner_undoes_report :
  let reported := (updateMatchWinner "t1" "1W2" "p3" [1%Z; 2%Z] sample_store).1 in
  (bracket <$> find_tournament "t1" (reverseMatchWinner "t1" "1W2" reported).1)
  = Some (Some (mkBracket
       (alter_match (set_justCompleted false) 0 1
          (winners (generateBracket four_players))))).
Proof. vm_compute. reflexivity. Qed.

(** * Further properties of the service *)

(** ** Player management *)
(** ** Updates that carry no status *)
Lemma apply_updates_no_status u t :
  u_status u = None → apply_updates u t = merge_updates t u.
Proof.
  intros Hs. unfold apply_updates. simpl. rewrite Hs. simpl.
  by destruct (status t).
Qed.

Lemma apply_updates_id u t :
  t_id (apply_updates u t) = default (t_id t) (u_id u).
Proof. unfold apply_updates. by repeat case_match. Qed.

Lemma stored_after_update tid u store t :
  u_id u = None → find_tournament tid store = Some t →
  find_tournament tid (updateTournament tid u store).1
  = Some (apply_updates u t).
Proof.
  intros Hu Hfind. pose proof (find_tournament_Some _ _ _ Hfind) as Hid.
  rewrite updateTournament_run. simpl. unfold find_tournament in *.
  rewrite list_find_fmap.
  rewrite (list_find_ext _ (λ t, t_id t = tid)).
  - destruct (list_find _ store) as [[i t']|]; simplify_eq/=.
    by rewrite decide_True.
  - intros t'. simpl. case_decide; [|done].
    by rewrite apply_updates_id, Hu.
Qed.

Lemma stored_after_players tid ps store t :
  find_tournament tid store = Some t →
  find_tournament tid (updateTournament tid (players_update ps) store).1
  = Some (merge_updates t (players_update ps)).
Proof.
  intros Hfind. rewrite (stored_after_update _ _ _ t) by done.
  by rewrite apply_updates_no_status.
Qed.

Lemma consecutive_seeds_snoc ps p :
  consecutive_seeds ps → seed p = (Z.of_nat (length ps) + 1)%Z →
  consecutive_seeds (ps ++ [p]).
Proof.
  unfold consecutive_seeds. intros Hps Hp.
  rewrite fmap_app, length_app, Hps. simpl.
  replace (Z.of_nat (length ps + 1)) with (Z.of_nat (length ps) + 1)%Z by lia.
  rewrite seqZ_app by lia. simpl. rewrite Hp. f_equal.
  replace (1 + Z.of_nat (length ps))%Z with (Z.of_nat (length ps) + 1)%Z by lia.
  done.
Qed.

(** ** Closed forms of the player operations *)
Lemma addPlayer_run simpleHash tid data newId store :
  addPlayer simpleHash tid data newId store
  = match find_tournament tid store with
    | None => (store, Throw "Tournament not found")
    | Some t =>
        if decide (status t ≠ REGISTRATION_OPEN)
        then (store, Throw "Registration is not open for this tournament.")
        else
          match simpleHash (d_selfReportingPassword data) with
          | Return h =>
              updateTournament tid
                (players_update
                   (t_players t
                    ++ [mkPlayer newId (d_gamertag data) (d_discordOrIGN data)
                          (d_icon data) (Z.of_nat (length (t_players t)) + 1) h]))
                store
          | Throw message => (store, Throw message)
          end
    end.
Proof.
  unfold addPlayer, mbind at 1, service_bind, getFromStorage.
  destruct (find_tournament tid store) as [t|]; [|done].
  case_decide; [done|].
  unfold mbind, service_bind, lift_result.
  by destruct (simpleHash _).
Qed.

Lemma removePlayer_run tid pid store :
  removePlayer tid pid store
  = match find_tournament tid store with
    | None => (store, Throw "Tournament not found")
    | Some t =>
        updateTournament tid
          (players_update
             (imap (λ index p, set_seed (Z.of_nat index + 1) p)
                (filter (λ p, p_id p ≠ pid) (t_players t))))
          store
    end.
Proof.
  unfold removePlayer, mbind at 1, service_bind, getFromStorage.
  by destruct (find_tournament tid store).
Qed.

Lemma updatePlayer_run tid pid u store :
  updatePlayer tid pid u store
  = match find_tournament tid store with
    | None => (store, Throw "Tournament not found")
    | Some t =>
        updateTournament tid
          (players_update
             ((λ p, if decide (p_id p = pid) then merge_player p u else p)
                <$> t_players t))
          store
    end.
Proof.
  unfold updatePlayer, mbind at 1, service_bind, getFromStorage.
  by destruct (find_tournament tid store).
Qed.

(** X1.  [addPlayer] on a stored tournament whose registration is open,
    when the password hashes: the call returns and the stored tournament has
    the old players followed by the new one, who carries the generated id,
    the seed [players.length + 1] and the hash of the password; status and
    bracket are as before, and seeds that numbered the players [1..n] now
    number them [1..n + 1]. *)
Theorem addPlayer_appends (simpleHash : string → result string)
    (tid : string) (data : PlayerData) (newId : string)
    (store : list Tournament) (t : Tournament) (h : string) :
  find_tournament tid store = Some t →
  status t = REGISTRATION_OPEN →
  simpleHash (d_selfReportingPassword data) = Return h →
  let out := addPlayer simpleHash tid data newId store in
  ∃ ret t',
    out.2 = Return ret
    ∧ find_tournament tid out.1 = Some t'
    ∧ t_players t'
      = t_players t
        ++ [mkPlayer newId (d_gamertag data) (d_discordOrIGN data) (d_icon data)
              (Z.of_nat (length (t_players t)) + 1) h]
    ∧ status t' = REGISTRATION_OPEN ∧ bracket t' = bracket t
    ∧ (consecutive_seeds (t_players t) → consecutive_seeds (t_players t')).
Proof.
  intros Hfind Hst Hh out. subst out. rewrite addPlayer_run, Hfind.
  rewrite decide_False by (by rewrite Hst; intros []). rewrite Hh.
  set (ps := t_players t ++ _).
  pose proof (stored_after_players tid ps store t Hfind) as Hs.
  rewrite updateTournament_run in *. simpl in *.
  eexists _, _. split; [done|]. split; [exact Hs|]. simpl.
  split_and!; [done..|].
  intros Hc. by apply consecutive_seeds_snoc.
Qed.

Lemma addPlayer_appends_witness :
  let out := addPlayer sample_hash "t2" sample_data "p9" sample_store in
  ∃ ret t',
    out.2 = Return ret
    ∧ find_tournament "t2" out.1 = Some t'
    ∧ t_players t'
      = t_players open_tournament
        ++ [mkPlayer "p9" (d_gamertag sample_data) (d_discordOrIGN sample_data)
              (d_icon sample_data)
              (Z.of_nat (length (t_players open_tournament)) + 1) "h:pw"]
    ∧ status t' = REGISTRATION_OPEN ∧ bracket t' = bracket open_tournament
    ∧ (consecutive_seeds (t_players open_tournament) →
       consecutive_seeds (t_players t')).
Proof.
  apply (addPlayer_appends sample_hash "t2" sample_data "p9" sample_store
           open_tournament "h:pw"); reflexivity.
Defined.

(** X2.  [addPlayer] throws exactly when no tournament has the id, or
    the registration of the tournament found is not open, or hashing the
    password throws; whenever it throws, the store is as before. *)
Theorem addPlayer_refusal (simpleHash : string → result string)
    (tid : string) (data : PlayerData) (newId : string)
    (store : list Tournament) :
  let out := addPlayer simpleHash tid data newId store in
  ((∃ message, out.2 = Throw message) ↔
     find_tournament tid store = None
     ∨ (∃ t, find_tournament tid store = Some t ∧ status t ≠ REGISTRATION_OPEN)
     ∨ (∃ message, simpleHash (d_selfReportingPassword data) = Throw message
                   ∧ is_Some (find_tournament tid store)))
  ∧ (∀ message, out.2 = Throw message → out.1 = store).
Proof.
  intros out. subst out. rewrite addPlayer_run.
  destruct (find_tournament tid store) as [t|] eqn:Hfind.
  2: { split; [|done]. split; [by left|intros _; by eexists]. }
  case_decide as Hst.
  { split; [|done]. split; [intros _|intros _; by eexists].
    right; left. eauto. }
  destruct (simpleHash _) as [h|msg] eqn:Hh.
  - rewrite updateTournament_run. simpl. split; [|done].
    split; [by intros [? [=]]|].
    intros [?|[(t' & [= <-] & ?)|(? & ? & _)]]; done.
  - split; [|done]. split; [intros _|intros _; by eexists].
    right; right. eauto.
Qed.

Lemma filter_keeps_all {A} (P : A → Prop) `{∀ x, Decision (P x)} (l : list A) :
  Forall P l → filter P l = l.
Proof.
  induction 1 as [|x l Hx Hl IH]; [done|].
  by rewrite filter_cons_True, IH.
Qed.

Lemma imap_reseed_seeds (ps : list Player) :
  consecutive_seeds (imap (λ index p, set_seed (Z.of_nat index + 1) p) ps).
Proof.
  unfold consecutive_seeds. rewrite length_imap. apply list_eq. intros i.
  rewrite list_lookup_fmap, list_lookup_imap.
  destruct (ps !! i) as [p|] eqn:Hp; simpl.
  - apply lookup_lt_Some in Hp. rewrite lookup_seqZ_lt by lia. f_equal. lia.
  - apply lookup_ge_None in Hp. by rewrite lookup_seqZ_ge by lia.
Qed.

Lemma imap_reseed_ids (ps : list Player) :
  p_id <$> imap (λ index p, set_seed (Z.of_nat index + 1) p) ps = p_id <$> ps.
Proof.
  apply list_eq. intros i. rewrite !list_lookup_fmap, list_lookup_imap.
  by destruct (ps !! i).
Qed.

Lemma imap_reseed_consecutive (ps : list Player) :
  consecutive_seeds ps →
  imap (λ index p, set_seed (Z.of_nat index + 1) p) ps = ps.
Proof.
  unfold consecutive_seeds. intros Hc. apply list_eq. intros i.
  rewrite list_lookup_imap.
  destruct (ps !! i) as [p|] eqn:Hp; simpl; [|done].
  assert (Hs : (seed <$> ps) !! i = Some (seed p)) by (by rewrite list_lookup_fmap, Hp).
  rewrite Hc in Hs. apply lookup_seqZ in Hs as [Hs _].
  f_equal. destruct p; simpl in *. unfold set_seed; simpl. f_equal. lia.
Qed.

(** X3.  [removePlayer] on a stored tournament, whatever its status:
    the call returns; the stored players are the players whose id differs
    from [playerId], in their order, each unchanged but for its seed; their
    seeds are [1..n] in list order; no player of that id is left; status and
    bracket are as before. *)
Theorem removePlayer_reseeds (tid pid : string) (store : list Tournament)
    (t : Tournament) :
  find_tournament tid store = Some t →
  let out := removePlayer tid pid store in
  ∃ ret t',
    out.2 = Return ret
    ∧ find_tournament tid out.1 = Some t'
    ∧ Forall2 (λ p p', p' = set_seed (seed p') p)
        (filter (λ p, p_id p ≠ pid) (t_players t)) (t_players t')
    ∧ consecutive_seeds (t_players t')
    ∧ (pid ∉ p_id <$> t_players t')
    ∧ status t' = status t ∧ bracket t' = bracket t.
Proof.
  intros Hfind out. subst out. rewrite removePlayer_run, Hfind.
  set (kept := filter (λ p, p_id p ≠ pid) (t_players t)).
  set (ps := imap _ kept).
  pose proof (stored_after_players tid ps store t Hfind) as Hs.
  rewrite updateTournament_run in *. simpl in *.
  eexists _, _. split; [done|]. split; [exact Hs|]. simpl.
  split_and!; [|apply imap_reseed_seeds| |done..].
  - apply Forall2_same_length_lookup. split; [subst ps; by rewrite length_imap|].
    intros i p p' Hp. subst ps. rewrite list_lookup_imap, Hp. simpl.
    by intros [= <-].
  - subst ps. rewrite imap_reseed_ids. subst kept.
    intros (p & Hp & [Hne _]%list_elem_of_filter)%list_elem_of_fmap. done.
Qed.

Lemma removePlayer_reseeds_witness :
  let out := removePlayer "t2" "p1" sample_store in
  ∃ ret t',
    out.2 = Return ret
    ∧ find_tournament "t2" out.1 = Some t'
    ∧ Forall2 (λ p p', p' = set_seed (seed p') p)
        (filter (λ p, p_id p ≠ "p1") (t_players open_tournament)) (t_players t')
    ∧ consecutive_seeds (t_players t')
    ∧ ("p1" ∉ p_id <$> t_players t')
    ∧ status t' = status open_tournament
    ∧ bracket t' = bracket open_tournament.
Proof.
  apply (removePlayer_reseeds "t2" "p1" sample_store open_tournament).
  reflexivity.
Defined.

(** X4.  Removing the player that [addPlayer] just added under a
    fresh id restores the stored tournament, provided its seeds numbered the
    players [1..n]. *)
Theorem addPlayer_removePlayer (simpleHash : string → result string)
    (tid : string) (data : PlayerData) (newId : string)
    (store : list Tournament) (t : Tournament) (h : string) :
  find_tournament tid store = Some t →
  status t = REGISTRATION_OPEN →
  simpleHash (d_selfReportingPassword data) = Return h →
  consecutive_seeds (t_players t) →
  newId ∉ p_id <$> t_players t →
  find_tournament tid
    (removePlayer tid newId (addPlayer simpleHash tid data newId store).1).1
  = Some t.
Proof.
  intros Hfind Hst Hh Hc Hfresh. rewrite addPlayer_run, Hfind.
  rewrite decide_False by (by rewrite Hst; intros []). rewrite Hh.
  set (new := mkPlayer _ _ _ _ _ _). set (ps := t_players t ++ [new]).
  pose proof (stored_after_players tid ps store t Hfind) as Hs.
  set (store' := (updateTournament tid (players_update ps) store).1) in *.
  rewrite removePlayer_run, Hs. rewrite (stored_after_players _ _ _ _ Hs).
  f_equal. simpl t_players.
  assert (Hkept : filter (λ p, p_id p ≠ newId) ps = t_players t).
  { subst ps. rewrite filter_app.
    rewrite (filter_cons_False _ new) by (intros Hn; by apply Hn).
    rewrite filter_nil, app_nil_r.
    apply filter_keeps_all. rewrite Forall_forall. intros p Hp Heq.
    apply Hfresh. rewrite <-Heq. by apply list_elem_of_fmap_2. }
  rewrite Hkept, imap_reseed_consecutive by done.
  by destruct t.
Qed.

Lemma addPlayer_removePlayer_witness :
  find_tournament "t3"
    (removePlayer "t3" "p9"
       (addPlayer sample_hash "t3" sample_data "p9" seeded_store).1).1
  = Some (sample_tournament "t3" REGISTRATION_OPEN two_players None).
Proof.
  apply (addPlayer_removePlayer sample_hash "t3" sample_data "p9" seeded_store
           (sample_tournament "t3" REGISTRATION_OPEN two_players None) "h:pw").
  - reflexivity.
  - reflexivity.
  - reflexivity.
  - reflexivity.
  - vm_compute. intros H. by repeat (apply elem_of_cons in H as [H|H]; [done|]);
      apply elem_of_nil in H.
Defined.

Lemma merge_updates_same_players t :
  merge_updates t (players_update (t_players t)) = t.
Proof. by destruct t. Qed.

Lemma merge_player_seed q s : merge_player q (seed_update s) = set_seed s q.
Proof. done. Qed.

(** The store after [updatePlayer] on a stored tournament. *)
Lemma updatePlayer_stored tid pid u store t :
  find_tournament tid store = Some t →
  ∃ ret store',
    updatePlayer tid pid u store = (store', Return ret)
    ∧ find_tournament tid store'
      = Some (merge_updates t
                (players_update
                   ((λ p, if decide (p_id p = pid) then merge_player p u else p)
                      <$> t_players t))).
Proof.
  intros Hfind. rewrite updatePlayer_run, Hfind.
  set (ps := _ <$> t_players t).
  pose proof (stored_after_players tid ps store t Hfind) as Hs.
  rewrite updateTournament_run in *. by eexists _, _.
Qed.

(** X5.  [updatePlayer] on a stored tournament returns; every player
    of the given id is merged with the updates at its position and the other
    players are unchanged; when no player has the id the tournament is stored
    back as it was; status and bracket are unchanged. *)
Theorem updatePlayer_targets (tid pid : string) (u : PlayerUpdates)
    (store : list Tournament) (t : Tournament) :
  find_tournament tid store = Some t →
  let out := updatePlayer tid pid u store in
  ∃ ret t',
    out.2 = Return ret
    ∧ find_tournament tid out.1 = Some t'
    ∧ length (t_players t') = length (t_players t)
    ∧ (∀ i p, t_players t !! i = Some p →
         t_players t' !! i
         = Some (if decide (p_id p = pid) then merge_player p u else p))
    ∧ (pid ∉ p_id <$> t_players t → t' = t)
    ∧ status t' = status t ∧ bracket t' = bracket t.
Proof.
  intros Hfind out. subst out.
  destruct (updatePlayer_stored tid pid u store t Hfind)
    as (ret & store' & -> & Hs).
  set (ps := _ <$> t_players t) in Hs.
  eexists _, _. split; [done|]. split; [exact Hs|]. simpl.
  split_and!; [subst ps; by rewrite length_fmap| | |done..].
  - intros i p Hp. subst ps. by rewrite list_lookup_fmap, Hp.
  - intros Hpid.
    assert (ps = t_players t) as ->; [|apply merge_updates_same_players].
    subst ps. rewrite <-(list_fmap_id (t_players t)) at 2.
    apply list_fmap_ext. intros i p Hp. rewrite decide_False; [done|].
    intros Heq. apply Hpid. rewrite <-Heq.
    apply list_elem_of_fmap_2. by eapply list_elem_of_lookup_2.
Qed.

Lemma updatePlayer_targets_witness :
  let out := updatePlayer "t2" "p1" (seed_update 7) sample_store in
  ∃ ret t',
    out.2 = Return ret
    ∧ find_tournament "t2" out.1 = Some t'
    ∧ length (t_players t') = length (t_players open_tournament)
    ∧ (∀ i p, t_players open_tournament !! i = Some p →
         t_players t' !! i
         = Some (if decide (p_id p = "p1") then merge_player p (seed_update 7)
                 else p))
    ∧ ("p1" ∉ p_id <$> t_players open_tournament → t' = open_tournament)
    ∧ status t' = status open_tournament
    ∧ bracket t' = bracket open_tournament.
Proof.
  apply (updatePlayer_targets "t2" "p1" (seed_update 7) sample_store
           open_tournament).
  reflexivity.
Defined.

Lemma set_seed_id q : set_seed (seed q) q = q.
Proof. by destruct q. Qed.

Lemma saveSeeds_cons tid p rest store :
  saveSeeds tid (p :: rest) store
  = match updatePlayer tid (p_id p) (seed_update (seed p)) store with
    | (store1, Return _) => saveSeeds tid rest store1
    | (store1, Throw message) => (store1, Throw message)
    end.
Proof. done. Qed.

(** X6.  [saveSeeds] of the admin page, for shown players of
    pairwise distinct ids, on a stored tournament: every call returns; each
    stored player keeps everything but its seed; a stored player that is
    shown gets the seed shown, one that is not shown is unchanged; status,
    bracket and the number of players are unchanged. *)
Theorem saveSeeds_writes_shown_seeds (tid : string) (shown : list Player) :
  ∀ (store : list Tournament) (t : Tournament),
  find_tournament tid store = Some t →
  NoDup (p_id <$> shown) →
  let out := saveSeeds tid shown store in
  ∃ t',
    out.2 = Return ()
    ∧ find_tournament tid out.1 = Some t'
    ∧ status t' = status t ∧ bracket t' = bracket t
    ∧ length (t_players t') = length (t_players t)
    ∧ ∀ i q, t_players t !! i = Some q →
        ∃ q', t_players t' !! i = Some q'
              ∧ q' = set_seed (seed q') q
              ∧ (∀ p, p ∈ shown → p_id p = p_id q → seed q' = seed p)
              ∧ (p_id q ∉ p_id <$> shown → q' = q).
Proof.
  induction shown as [|p rest IH]; intros store t Hfind Hnd.
  - simpl. exists t. split_and!; [done..|].
    intros i q Hq. exists q. split_and!; [done|by rewrite set_seed_id| |done].
    by intros p ?%elem_of_nil.
  - rewrite fmap_cons in Hnd. apply NoDup_cons in Hnd as [Hp Hnd].
    cbv zeta. rewrite saveSeeds_cons.
    destruct (updatePlayer_stored tid (p_id p) (seed_update (seed p)) store t Hfind)
      as (ret & store1 & -> & Hfind1).
    set (t1 := merge_updates t _) in Hfind1.
    assert (Hlen1 : length (t_players t1) = length (t_players t))
      by (subst t1; simpl; by rewrite length_fmap).
    assert (Hpl1 : ∀ i q, t_players t !! i = Some q →
              t_players t1 !! i
              = Some (if decide (p_id q = p_id p)
                      then merge_player q (seed_update (seed p)) else q)).
    { intros i q Hq. subst t1. simpl. by rewrite list_lookup_fmap, Hq. }
    destruct (IH store1 t1 Hfind1 Hnd)
      as (t' & Hret' & Hfind' & Hst' & Hb' & Hlen' & Hpl').
    exists t'. split_and!; [done|done|done|done|congruence|].
    intros i q Hq. specialize (Hpl1 i q Hq).
    destruct (Hpl' i _ Hpl1) as (q' & Hq' & Hset & Hshown & Hkeep).
    exists q'. split; [done|].
    destruct (decide (p_id q = p_id p)) as [Hid|Hid].
    + rewrite merge_player_seed in *.
      assert (q' = set_seed (seed p) q) as ->.
      { apply Hkeep. simpl. by rewrite Hid. }
      split_and!.
      * done.
      * intros p0 [->|Hin]%elem_of_cons Hp0; [done|].
        destruct Hp. rewrite <-Hid, <-Hp0. by apply list_elem_of_fmap_2.
      * intros Hnot. destruct Hnot. rewrite fmap_cons, Hid. apply elem_of_cons. by left.
    + split_and!.
      * done.
      * intros p0 [->|Hin]%elem_of_cons Hp0; [congruence|]. by apply Hshown.
      * intros Hnot. apply Hkeep. intros Hin. apply Hnot.
        rewrite fmap_cons. apply elem_of_cons. by right.
Qed.

Lemma saveSeeds_writes_shown_seeds_witness :
  let shown := [set_seed 2 (sample_player 1); set_seed 1 (sample_player 2)] in
  let out := saveSeeds "t2" shown sample_store in
  ∃ t',
    out.2 = Return ()
    ∧ find_tournament "t2" out.1 = Some t'
    ∧ status t' = status open_tournament
    ∧ bracket t' = bracket open_tournament
    ∧ length (t_players t') = length (t_players open_tournament)
    ∧ ∀ i q, t_players open_tournament !! i = Some q →
        ∃ q', t_players t' !! i = Some q'
              ∧ q' = set_seed (seed q') q
              ∧ (∀ p, p ∈ shown → p_id p = p_id q → seed q' = seed p)
              ∧ (p_id q ∉ p_id <$> shown → q' = q).
Proof.
  apply (saveSeeds_writes_shown_seeds "t2"
           [set_seed 2 (sample_player 1); set_seed 1 (sample_player 2)]
           sample_store open_tournament).
  - reflexivity.
  - compute_done.
Defined.

(** ** Clearing the animation flags *)
Lemma clearJustCompletedFlags_run tid store :
  clearJustCompletedFlags tid store
  = match find_tournament tid store with
    | Some t =>
        match bracket t with
        | Some b =>
            updateTournament tid
              (bracket_update
                 (mkBracket ((λ round : list Match, set_justCompleted false <$> round)
                               <$> winners b)))
              store
        | None => (store, Return (Some t))
        end
    | None => (store, Return None)
    end.
Proof.
  unfold clearJustCompletedFlags, mbind at 1, service_bind, getFromStorage.
  destruct (find_tournament tid store) as [t|]; [|done].
  by destruct (bracket t).
Qed.

Lemma match_at_fmap (f : Match → Match) rounds r i :
  match_at ((λ round : list Match, f <$> round) <$> rounds) r i
  = f <$> match_at rounds r i.
Proof.
  unfold match_at. rewrite list_lookup_fmap.
  destruct (rounds !! r) as [round|]; simpl; [|done].
  by rewrite list_lookup_fmap.
Qed.

(** X7.  [clearJustCompletedFlags] on a stored tournament with a
    bracket stores, at every position of the bracket, the same match with
    [justCompleted] false; status and players are unchanged. *)
Theorem clearJustCompletedFlags_only_flags (tid : string)
    (store : list Tournament) (t : Tournament) (b : Bracket) :
  find_tournament tid store = Some t → bracket t = Some b →
  ∃ t' b',
    find_tournament tid (clearJustCompletedFlags tid store).1 = Some t'
    ∧ bracket t' = Some b'
    ∧ status t' = status t ∧ t_players t' = t_players t
    ∧ ∀ r i, match_at (winners b') r i
             = set_justCompleted false <$> match_at (winners b) r i.
Proof.
  intros Hfind Hb. rewrite clearJustCompletedFlags_run, Hfind, Hb.
  rewrite (stored_after_bracket_update _ _ _ _ Hfind).
  eexists _, _. split; [done|]. simpl. split_and!; [done..|].
  intros r i. apply match_at_fmap.
Qed.

Lemma clearJustCompletedFlags_only_flags_witness :
  ∃ t' b',
    find_tournament "t1" (clearJustCompletedFlags "t1" sample_store).1 = Some t'
    ∧ bracket t' = Some b'
    ∧ status t' = status started_tournament
    ∧ t_players t' = t_players started_tournament
    ∧ ∀ r i, match_at (winners b') r i
             = set_justCompleted false
               <$> match_at (winners (generateBracket four_players)) r i.
Proof.
  apply (clearJustCompletedFlags_only_flags "t1" sample_store
           started_tournament (generateBracket four_players)); reflexivity.
Defined.

Lemma merge_bracket_twice t b b' :
  merge_updates (merge_updates t (bracket_update b)) (bracket_update b')
  = merge_updates t (bracket_update b').
Proof. done. Qed.

(** X8.  Clearing the [justCompleted] flags twice leaves the same
    store as clearing them once. *)
Theorem clearJustCompletedFlags_idempotent (tid : string)
    (store : list Tournament) :
  (clearJustCompletedFlags tid (clearJustCompletedFlags tid store).1).1
  = (clearJustCompletedFlags tid store).1.
Proof.
  rewrite (clearJustCompletedFlags_run tid store).
  destruct (find_tournament tid store) as [t|] eqn:Hfind.
  2: { simpl. by rewrite clearJustCompletedFlags_run, Hfind. }
  destruct (bracket t) as [b|] eqn:Hb.
  2: { simpl. by rewrite clearJustCompletedFlags_run, Hfind, Hb. }
  set (nb := mkBracket _).
  rewrite clearJustCompletedFlags_run.
  rewrite (stored_after_bracket_update _ nb _ _ Hfind). cbn [bracket merge_updates bracket_update u_bracket default]. unfold id.
  assert (Hnb : mkBracket ((λ round : list Match, set_justCompleted false <$> round)
                             <$> winners nb) = nb).
  { subst nb. simpl. f_equal. rewrite <-list_fmap_compose.
    apply list_fmap_ext. intros i round _. simpl.
    rewrite <-list_fmap_compose. by apply list_fmap_ext. }
  rewrite Hnb, !updateTournament_run. simpl.
  rewrite <-list_fmap_compose. apply list_fmap_ext. intros i t0 _. simpl.
  destruct (decide (t_id t0 = tid)) as [Hid|Hid].
  - rewrite decide_True by (by rewrite apply_updates_bracket_id).
    by rewrite !apply_updates_bracket.
  - by rewrite decide_False.
Qed.

(** ** Reporting passwords *)
Lemma verify_slots_spec simpleHash t password h slots :
  simpleHash password = Return h →
  ∃ ok, verify_slots simpleHash t password slots = Return ok
    ∧ (ok = true ↔
       ∃ pid player, Some pid ∈ slots ∧ pid ≠ ""
         ∧ snd <$> list_find (λ p, p_id p = pid) (t_players t) = Some player
         ∧ selfReportingPasswordHash player = h).
Proof.
  intros Hh. induction slots as [|slot rest (ok & Hok & IH)]; simpl.
  { exists false. split; [done|]. split; [done|].
    by intros (? & ? & ?%elem_of_nil & _). }
  assert (Hrest : ∃ ok', verify_slots simpleHash t password rest = Return ok'
    ∧ (ok' = true ↔
       ∃ pid player, Some pid ∈ rest ∧ pid ≠ ""
         ∧ snd <$> list_find (λ p, p_id p = pid) (t_players t) = Some player
         ∧ selfReportingPasswordHash player = h)) by eauto.
  clear Hrest.
  assert (Hskip :
    (¬ ∃ pid player, slot = Some pid ∧ pid ≠ ""
         ∧ snd <$> list_find (λ p, p_id p = pid) (t_players t) = Some player
         ∧ selfReportingPasswordHash player = h) →
    ok = true ↔
       ∃ pid player, Some pid ∈ slot :: rest ∧ pid ≠ ""
         ∧ snd <$> list_find (λ p, p_id p = pid) (t_players t) = Some player
         ∧ selfReportingPasswordHash player = h).
  { intros Hno. rewrite IH. split.
    - intros (pid & pl & ? & ?). exists pid, pl. split; [|done].
      apply elem_of_cons. by right.
    - intros (pid & pl & [Heq|?]%elem_of_cons & ?); [|eauto].
      destruct Hno. exists pid, pl. by rewrite Heq. }
  destruct (truthy slot) as [pid|] eqn:Hslot.
  2: { exists ok. split; [done|]. apply Hskip.
       intros (pid & pl & -> & Hne & _). simpl in Hslot.
       by rewrite decide_False in Hslot. }
  apply truthy_Some in Hslot as [-> Hne].
  destruct (snd <$> list_find _ (t_players t)) as [player|] eqn:Hpl.
  2: { exists ok. split; [done|]. apply Hskip.
       intros (pid' & pl & [= <-] & _ & Hf & _). congruence. }
  unfold compareHash. rewrite Hh.
  destruct (bool_decide (h = selfReportingPasswordHash player)) eqn:Hcmp.
  - exists true. split; [done|]. split; [intros _|done].
    apply bool_decide_eq_true in Hcmp. exists pid, player.
    split_and!; [apply elem_of_cons; by left|done..].
  - exists ok. split; [done|]. apply Hskip.
    apply bool_decide_eq_false in Hcmp.
    intros (pid' & pl & [= <-] & _ & Hf & Hhash). congruence.
Qed.

(** X9.  When the password hashes to [h], [verifyPlayerPassword]
    returns, and it returns true exactly when the password is the super
    admin password, or some non-empty id in the slots of the match is the id
    of a registered player, the first of that id, whose stored hash is [h]. *)
Theorem verifyPlayerPassword_accepts (simpleHash : string → result string)
    (super : string) (t : Tournament) (mt : Match) (password h : string) :
  simpleHash password = Return h →
  ∃ ok, verifyPlayerPassword simpleHash super t mt password = Return ok
    ∧ (ok = true ↔
       password = super
       ∨ ∃ pid player, Some pid ∈ m_players mt ∧ pid ≠ ""
           ∧ snd <$> list_find (λ p, p_id p = pid) (t_players t) = Some player
           ∧ selfReportingPasswordHash player = h).
Proof.
  intros Hh. unfold verifyPlayerPassword. case_decide as Hsuper.
  - exists true. split; [done|]. split; [by left|done].
  - destruct (verify_slots_spec simpleHash t password h (m_players mt) Hh)
      as (ok & Hok & Hiff).
    exists ok. split; [done|]. rewrite Hiff. split; [by right|].
    by intros [?|?].
Qed.

Lemma verifyPlayerPassword_accepts_witness :
  let mt := mkMatch "1W1" 0 0 [Some "p1"; None] [0%Z; 0%Z] (Some "p1")
              (Some true) (Some "2W1") None None in
  ∃ ok, verifyPlayerPassword sample_hash "root" open_tournament mt "pw"
        = Return ok
    ∧ (ok = true ↔
       "pw" = "root"
       ∨ ∃ pid player, Some pid ∈ m_players mt ∧ pid ≠ ""
           ∧ snd <$> list_find (λ p, p_id p = pid) (t_players open_tournament)
             = Some player
           ∧ selfReportingPasswordHash player = "h:pw").
Proof.
  apply (verifyPlayerPassword_accepts sample_hash "root" open_tournament
           (mkMatch "1W1" 0 0 [Some "p1"; None] [0%Z; 0%Z] (Some "p1")
              (Some true) (Some "2W1") None None) "pw" "h:pw").
  reflexivity.
Defined.

(** ** The seeding order for any size *)
Lemma seeding_rounds_stops j : ∀ l H i size,
  length l = 2 ^ i →
  (j = 0 → (size ≤ Z.of_nat (2 ^ i))%Z) →
  (0 < j → (Z.of_nat (2 ^ (i + j - 1)) < size ≤ Z.of_nat (2 ^ (i + j)))%Z) →
  seeding_rounds size l H = Nat.iter j next_seeding_round l.
Proof.
  induction j as [|j IH]; intros l H i size Hlen H0 Hj;
    rewrite seeding_rounds_step.
  - rewrite Hlen. rewrite decide_False; [done|]. specialize (H0 eq_refl). lia.
  - specialize (Hj ltac:(lia)).
    replace (i + S j - 1) with (i + j) in Hj by lia.
    assert (2 ^ i ≤ 2 ^ (i + j)) by (apply Nat.pow_le_mono_r; lia).
    rewrite Hlen. rewrite decide_True by lia.
    rewrite Nat.iter_succ_r. apply (IH _ _ (S i)).
    + rewrite next_seeding_round_length, Hlen. simpl. lia.
    + intros ->. replace (i + 1) with (S i) in Hj by lia. lia.
    + intros ?. replace (S i + j - 1) with (i + j) by lia.
      replace (S i + j) with (i + S j) by lia. lia.
Qed.

(** X10.  For every size of at least 2, power of two or not,
    [getStandardSeedingOrder] returns the order of the next power of two: it
    has [2 ^ ceil (log2 size)] entries, at least [size]. *)
Theorem getStandardSeedingOrder_rounds_up (size : Z) :
  (2 ≤ size)%Z →
  getStandardSeedingOrder size
  = getStandardSeedingOrder (2 ^ Z.log2_up size)
  ∧ Z.of_nat (length (getStandardSeedingOrder size)) = (2 ^ Z.log2_up size)%Z
  ∧ (size ≤ Z.of_nat (length (getStandardSeedingOrder size)))%Z.
Proof.
  intros Hsize.
  pose proof (Z.log2_up_spec size ltac:(lia)) as [Hlo Hhi].
  pose proof (Z.log2_up_pos size ltac:(lia)) as Hpos.
  assert (Hp : ∀ k, (2 ^ Z.of_nat k)%Z = Z.of_nat (2 ^ k))
    by (intros k; by rewrite Nat2Z.inj_pow).
  assert (∃ k, Z.log2_up size = Z.of_nat (S k)) as [k HK].
  { exists (Z.to_nat (Z.log2_up size) - 1). lia. }
  rewrite HK in *. rewrite Hp in *.
  replace (Z.pred (Z.of_nat (S k))) with (Z.of_nat k) in Hlo by lia.
  rewrite Hp in Hlo.
  assert (Heq : getStandardSeedingOrder size
                = Nat.iter (S k) next_seeding_round [1%Z]).
  { unfold getStandardSeedingOrder. rewrite decide_False by lia.
    rewrite Nat.iter_succ_r.
    apply (seeding_rounds_stops k _ _ 1); [done|..].
    - by intros ->.
    - intros ?. replace (1 + k - 1) with k by lia.
      by replace (1 + k) with (S k) by lia. }
  rewrite Heq, getStandardSeedingOrder_pow2 by lia.
  rewrite iter_seeding_length. done.
Qed.

Lemma getStandardSeedingOrder_rounds_up_witness :
  getStandardSeedingOrder 5 = getStandardSeedingOrder (2 ^ Z.log2_up 5)
  ∧ Z.of_nat (length (getStandardSeedingOrder 5)) = (2 ^ Z.log2_up 5)%Z
  ∧ (5 ≤ Z.of_nat (length (getStandardSeedingOrder 5)))%Z.
Proof. apply (getStandardSeedingOrder_rounds_up 5). lia. Defined.

(** ** The top two seeds *)
Lemma iter_seeding_second k :
  Nat.iter (S k) next_seeding_round [1%Z] !! (2 ^ k) = Some 2%Z.
Proof.
  induction k as [|k IH]; [done|].
  replace (2 ^ S k) with (2 * 2 ^ k) by (simpl; lia).
  change (Nat.iter (S (S k)) next_seeding_round [1%Z])
    with (next_seeding_round (Nat.iter (S k) next_seeding_round [1%Z])).
  by rewrite next_seeding_round_mirror, mirror_lookup_even.
Qed.

(** X11.  In the seeding order of [2 ^ k] slots, [k >= 1], seed 1 is
    the first entry and seed 2 is the first entry of the second half. *)
Theorem getStandardSeedingOrder_top_two_apart (k : nat) (size : Z) :
  1 ≤ k → size = (2 ^ Z.of_nat k)%Z →
  getStandardSeedingOrder size !! 0 = Some 1%Z
  ∧ getStandardSeedingOrder size !! Z.to_nat (size / 2) = Some 2%Z.
Proof.
  intros Hk ->.
  assert (Hsz : (2 ^ Z.of_nat k)%Z = Z.of_nat (2 ^ k)) by (by rewrite Nat2Z.inj_pow).
  rewrite Hsz, getStandardSeedingOrder_pow2 by done.
  destruct k as [|k]; [lia|]. split; [apply iter_seeding_head|].
  replace (Z.to_nat (Z.of_nat (2 ^ S k) / 2)) with (2 ^ k).
  - apply iter_seeding_second.
  - change 2%Z with (Z.of_nat 2). rewrite <-Nat2Z.inj_div, Nat2Z.id.
    apply Nat.div_unique_exact; simpl; lia.
Qed.

Lemma getStandardSeedingOrder_top_two_apart_witness :
  getStandardSeedingOrder 16 !! 0 = Some 1%Z
  ∧ getStandardSeedingOrder 16 !! Z.to_nat (16 / 2) = Some 2%Z.
Proof. apply (getStandardSeedingOrder_top_two_apart 4 16); [lia|reflexivity]. Defined.

(** ** Who meets whom in the first round *)
Lemma playerIds_lookup players K j :
  2 ≤ length players → 1 ≤ K →
  bracket_size (length players) = Z.of_nat (2 ^ K) →
  length players ≤ 2 ^ K → 2 ^ K < 2 * length players →
  j < 2 ^ K →
  pad_with_byes (bracket_size (length players))
    ((λ p, Some (p_id p)) <$> sort_by_seed players) !! j
  = Some (p_id <$> sort_by_seed players !! j).
Proof.
  intros Hn HK Hsz Hlo Hhi Hj. destruct (decide (j < length players)) as [Hlt|Hge].
  - destruct (playerIds_occupied players j Hlt) as (p & Hp & ->). by rewrite Hp.
  - rewrite (playerIds_bye players K) by (done || lia).
    assert (sort_by_seed players !! j = None) as ->; [|done].
    apply lookup_ge_None. rewrite sort_by_seed_length. lia.
Qed.

(** X12.  First-round match [i] of a generated bracket pairs the
    player ranked [s] by seed, where [s] is entry [2 i] of the seeding order
    and lies in [1..size / 2], with the player ranked [size + 1 - s], or
    with nobody when fewer players are registered. *)
Theorem generateBracket_pairs_by_rank (players : list Player) (i : nat)
    (mt : Match) :
  2 ≤ length players →
  match_at (winners (generateBracket players)) 0 i = Some mt →
  let size := bracket_size (length players) in
  let ranked := sort_by_seed players in
  ∃ (s : Z) (p : Player),
    getStandardSeedingOrder size !! (2 * i) = Some s
    ∧ (1 ≤ s ≤ size / 2)%Z
    ∧ ranked !! Z.to_nat (s - 1) = Some p
    ∧ m_players mt
      = [Some (p_id p); p_id <$> ranked !! Z.to_nat (size - s)].
Proof.
  intros Hn Hmt size ranked.
  destruct (generated_position players Hn _ _ _ Hmt) as [_ Hi].
  destruct (generated_match_inv players Hn _ _ _ Hmt) as (mt0 & H0 & -> & _).
  destruct (finish_fields (Z.to_nat (Z.log2_up (Z.of_nat (length players)))) 0 i mt0)
    as (_ & _ & -> & _).
  apply match_at_Some in H0 as (round & [= <-] & ->%first_round_lookup).
  destruct (bracket_size_spec _ Hn) as (K & HK & Hlog & Hsz & Hlo & Hhi).
  rewrite Hlog, Nat2Z.id, Nat.sub_0_r in Hi.
  destruct (finalPlayerOrder_in_range players K Hn HK Hsz Hlo Hhi i Hi)
    as (s & Hs & Hrange & Heven & Hodd & _ & _).
  assert (HK2 : 2 ^ K = 2 * 2 ^ (K - 1)).
  { replace K with (S (K - 1)) at 1 by lia. done. }
  rewrite (playerIds_lookup players K) in Heven by (done || lia).
  rewrite (playerIds_lookup players K) in Hodd by (done || lia).
  destruct (playerIds_occupied players (Z.to_nat (s - 1))) as (p & Hp & _); [lia|].
  exists s, p. subst size ranked. split_and!.
  - rewrite (seedOrder_eq players K) by done.
    by rewrite next_seeding_round_mirror, mirror_lookup_even.
  - lia.
  - rewrite Hsz, HK2. replace (Z.of_nat (2 * 2 ^ (K - 1)) / 2)%Z
      with (Z.of_nat (2 ^ (K - 1))); [lia|].
    rewrite Nat2Z.inj_mul. rewrite Z.mul_comm, Z.div_mul by lia. done.
  - done.
  - rewrite first_round_match_players, Heven, Hodd, Hp, Hsz. done.
Qed.

Lemma generateBracket_pairs_by_rank_witness :
  ∃ (s : Z) (p : Player),
    getStandardSeedingOrder (bracket_size (length three_players)) !! (2 * 1)
    = Some s
    ∧ (1 ≤ s ≤ bracket_size (length three_players) / 2)%Z
    ∧ sort_by_seed three_players !! Z.to_nat (s - 1) = Some p
    ∧ m_players
        (mkMatch "1W2" 0 1 [Some "p2"; Some "p3"] [0%Z; 0%Z] None
           (Some false) (Some "2W1") None None)
      = [Some (p_id p);
         p_id <$> sort_by_seed three_players
                  !! Z.to_nat (bracket_size (length three_players) - s)].
Proof.
  apply (generateBracket_pairs_by_rank three_players 1); [simpl; lia|].
  vm_compute. reflexivity.
Defined.

(** ** Every player is placed once *)
Lemma fmap_slot_at_seqZ (l : list (option string)) :
  (λ s, slot_at l (s - 1)) <$> seqZ 1 (Z.of_nat (length l)) = l.
Proof.
  apply list_eq. intros i. rewrite list_lookup_fmap.
  destruct (l !! i) as [x|] eqn:Hx.
  - pose proof (lookup_lt_Some _ _ _ Hx). rewrite lookup_seqZ_lt by lia. simpl.
    unfold slot_at, array_get. rewrite decide_True by lia.
    replace (Z.to_nat (1 + Z.of_nat i - 1)) with i by lia. by rewrite Hx.
  - apply lookup_ge_None in Hx. by rewrite lookup_seqZ_ge by lia.
Qed.

Lemma pairs_concat h : ∀ l : list (option string),
  length l = 2 * h →
  concat ((λ i, [mjoin (l !! (2 * i)); mjoin (l !! (2 * i + 1))]) <$> seq 0 h) = l.
Proof.
  induction h as [|h IH]; intros l Hl.
  - by destruct l.
  - destruct l as [|a [|b l]]; simpl in Hl; try lia.
    rewrite <-cons_seq, fmap_cons, <-fmap_S_seq, <-list_fmap_compose. simpl.
    f_equal. f_equal. etrans; [|apply (IH l); lia]. f_equal.
    apply list_fmap_ext. intros _ i _. simpl.
    replace (i + S (i + 0)) with (S (i + (i + 0))) by lia. done.
Qed.

Lemma first_round_slots players :
  2 ≤ length players →
  concat (m_players <$> first_round players) = final_player_order players.
Proof.
  intros Hn. destruct (bracket_size_spec _ Hn) as (K & HK & _ & Hsz & Hlo & Hhi).
  unfold first_round. rewrite <-list_fmap_compose.
  rewrite (list_fmap_ext _
    (λ i, [mjoin (final_player_order players !! (2 * i));
           mjoin (final_player_order players !! (2 * i + 1))]))
    by (intros; apply first_round_match_players).
  apply pairs_concat.
  unfold final_player_order. rewrite length_fmap, (seedOrder_eq players K Hn HK Hsz Hlo Hhi).
  rewrite next_seeding_round_length, iter_seeding_length, Hsz.
  assert (2 ^ K = 2 ^ (K - 1) * 2) as ->
    by (replace K with (S (K - 1)) at 1 by lia; simpl; lia).
  rewrite Nat2Z.inj_mul, Z.div_add_l by lia.
  change (1 `div` 2)%Z with 0%Z. lia.
Qed.

Lemma final_player_order_perm players :
  2 ≤ length players →
  final_player_order players
  ≡ₚ ((λ p, Some (p_id p)) <$> players)
     ++ replicate (Z.to_nat (bracket_size (length players)) - length players) None.
Proof.
  intros Hn. destruct (bracket_size_spec _ Hn) as (K & HK & _ & Hsz & Hlo & Hhi).
  unfold final_player_order.
  set (ids := pad_with_byes _ _).
  assert (Hlen : length ids = 2 ^ K) by apply (playerIds_length players K Hn HK Hsz Hlo Hhi).
  assert (Hord : getStandardSeedingOrder (bracket_size (length players))
                 ≡ₚ seqZ 1 (Z.of_nat (length ids))).
  { rewrite Hsz, getStandardSeedingOrder_pow2 by done.
    by rewrite (seeds_upto_perm _ (seeds_upto_iter K)), iter_seeding_length, Hlen. }
  rewrite Hord, fmap_slot_at_seqZ. subst ids. unfold pad_with_byes.
  rewrite length_fmap, sort_by_seed_length. by rewrite sort_by_seed_perm.
Qed.

Lemma generated_first_round_list players round0 :
  2 ≤ length players →
  winners (generateBracket players) !! 0 = Some round0 →
  length round0 = length (first_round players)
  ∧ ∀ i mt, round0 !! i = Some mt →
      ∃ mt0, first_round players !! i = Some mt0
             ∧ m_players mt = m_players mt0 ∧ isBye mt = isBye mt0
             ∧ winnerId mt = winnerId mt0.
Proof.
  intros Hn Hr.
  assert (Hat : ∀ i, round0 !! i
    = match_at (winners (generateBracket players)) 0 i).
  { intros i. unfold match_at. by rewrite Hr. }
  split.
  - destruct (generated_rounds players Hn) as (_ & _ & Hl).
    rewrite (Hl _ _ Hr).
    destruct (first_round_length players Hn) as (K & _ & Hlog & ->).
    rewrite Hlog, Nat2Z.id. f_equal. lia.
  - intros i mt Hmt. rewrite Hat in Hmt.
    destruct (generated_match_inv players Hn _ _ _ Hmt) as (mt0 & H0 & -> & _).
    apply match_at_Some in H0 as (round & [= <-] & H0).
    exists mt0. split; [done|].
    by destruct (finish_fields (Z.to_nat (Z.log2_up (Z.of_nat (length players))))
                   0 i mt0) as (_ & _ & -> & -> & ->).
Qed.

Lemma generated_first_round_slots players round0 :
  2 ≤ length players →
  winners (generateBracket players) !! 0 = Some round0 →
  m_players <$> round0 = m_players <$> first_round players.
Proof.
  intros Hn Hr.
  destruct (generated_first_round_list players round0 Hn Hr) as [Hlen Hm].
  apply list_eq_same_length with (length round0);
    [by rewrite length_fmap|by rewrite length_fmap|].
  intros i x y Hi. rewrite !list_lookup_fmap.
  intros [mt [Hmt ->]]%fmap_Some [mt0' [Hmt0 ->]]%fmap_Some.
  destruct (Hm i mt Hmt) as (mt0 & H0 & -> & _). congruence.
Qed.

(** X13.  The slots of the first round of a generated bracket,
    taken together, are the ids of the players, each as often as the player
    list has it, and [bracketSize - n] empty slots. *)
Theorem generateBracket_places_everyone (players : list Player) :
  2 ≤ length players →
  ∃ round0,
    winners (generateBracket players) !! 0 = Some round0
    ∧ concat (m_players <$> round0)
      ≡ₚ ((λ p, Some (p_id p)) <$> players)
         ++ replicate (Z.to_nat (bracket_size (length players)) - length players)
              None.
Proof.
  intros Hn. destruct (generated_rounds players Hn) as (HR & Hlen & _).
  destruct (lookup_lt_is_Some_2 (winners (generateBracket players)) 0)
    as [round0 Hr]; [lia|].
  exists round0. split; [done|].
  rewrite (generated_first_round_slots players round0 Hn Hr).
  rewrite first_round_slots by done. by apply final_player_order_perm.
Qed.

Lemma generateBracket_places_everyone_witness :
  ∃ round0,
    winners (generateBracket three_players) !! 0 = Some round0
    ∧ concat (m_players <$> round0)
      ≡ₚ ((λ p, Some (p_id p)) <$> three_players)
         ++ replicate
              (Z.to_nat (bracket_size (length three_players))
               - length three_players) None.
Proof. apply (generateBracket_places_everyone three_players). simpl. lia. Defined.

(** ** The number of byes *)
Lemma length_filter_None_slots (round : list Match) :
  Forall (λ mt, ∃ p1 o2, m_players mt = [Some p1; o2]
                         ∧ isBye mt = Some (bool_decide (o2 = None))) round →
  length (filter (λ o : option string, o = None) (concat (m_players <$> round)))
  = length (filter (λ mt, isBye mt = Some true) round).
Proof.
  induction 1 as [|mt round (p1 & o2 & Hpl & Hbye) _ IH]; [done|].
  rewrite fmap_cons. simpl concat. rewrite Hpl, filter_app, length_app, IH.
  destruct o2 as [p2|]; simpl in Hbye.
  - by rewrite (filter_cons_False _ mt) by (by rewrite Hbye).
  - by rewrite (filter_cons_True _ mt) by done.
Qed.

Lemma length_filter_replicate_None k :
  length (filter (λ o : option string, o = None) (replicate k None)) = k.
Proof.
  induction k as [|k IH]; [done|].
  rewrite replicate_S, filter_cons_True by done. simpl. by f_equal.
Qed.

(** X14.  The first round of a generated bracket has exactly
    [bracketSize - n] byes. *)
Theorem generateBracket_bye_count (players : list Player) :
  2 ≤ length players →
  ∃ round0,
    winners (generateBracket players) !! 0 = Some round0
    ∧ length (filter (λ mt, isBye mt = Some true) round0)
      = Z.to_nat (bracket_size (length players)) - length players.
Proof.
  intros Hn.
  destruct (generated_rounds players Hn) as (HR & Hlen & _).
  destruct (lookup_lt_is_Some_2 (winners (generateBracket players)) 0)
    as [round0 Hr]; [lia|].
  exists round0. split; [done|].
  rewrite <-length_filter_None_slots.
  - rewrite (generated_first_round_slots players round0 Hn Hr).
    rewrite first_round_slots, final_player_order_perm by done.
    rewrite filter_app, length_app.
    assert (filter (λ o : option string, o = None)
              ((λ p, Some (p_id p)) <$> players) = []) as ->.
    { clear. induction players as [|p ps IH]; [done|]. apply IH. }
    apply length_filter_replicate_None.
  - rewrite Forall_forall. intros mt [i Hi]%list_elem_of_lookup_1.
    assert (Hat : match_at (winners (generateBracket players)) 0 i = Some mt).
    { apply match_at_Some. eauto. }
    destruct (generated_first_round players Hn i mt Hat) as (p1 & o2 & ? & ? & _).
    eauto.
Qed.

Lemma generateBracket_bye_count_witness :
  ∃ round0,
    winners (generateBracket three_players) !! 0 = Some round0
    ∧ length (filter (λ mt, isBye mt = Some true) round0)
      = Z.to_nat (bracket_size (length three_players)) - length three_players.
Proof. apply (generateBracket_bye_count three_players). simpl. lia. Defined.

(** ** A generated bracket is unplayed *)
Lemma finish_more_fields K r m mt :
  roundIndex (finish K r m mt) = roundIndex mt
  ∧ scores (finish K r m mt) = scores mt
  ∧ justCompleted (finish K r m mt) = justCompleted mt.
Proof. unfold finish. by repeat case_decide. Qed.

Lemma later_rounds_unplayed i : ∀ r prev round m mt,
  later_rounds r prev !! i = Some round → round !! m = Some mt →
  roundIndex mt = (r + Z.of_nat i)%Z ∧ scores mt = [0%Z; 0%Z]
  ∧ justCompleted mt = None
  ∧ (i = 0 → mt = later_round_match r prev m)
  ∧ (1 ≤ i → m_players mt = [None; None]).
Proof.
  induction i as [|i IH]; intros r prev round m mt;
    rewrite later_rounds_step; case_decide; try done.
  - intros [= <-] ->%later_round_lookup.
    split_and!; [simpl; lia|done..|lia].
  - simpl. intros Hround Hmt.
    destruct (IH _ _ _ _ _ Hround Hmt) as (Hr & Hs & Hj & H0 & H1).
    split_and!; [lia|done..|].
    intros _. destruct i as [|i]; [|apply H1; lia].
    rewrite (H0 eq_refl). unfold later_round_match. cbn [m_players].
    assert (Hnone : ∀ k, match later_round r prev !! k with
                         | Some pm => if flag (isBye pm) then winnerId pm else None
                         | None => None
                         end = None).
    { intros k. destruct (later_round r prev !! k) as [pm|] eqn:E; [|done].
      by apply later_round_lookup in E as ->. }
    by rewrite !Hnone.
Qed.

(** X15.  Every match of a generated bracket carries the id, round
    index and match index of its position, scores [[0, 0]] and no
    [justCompleted] flag; from the second round on it has no winner and no
    bye flag; from the third round on both its slots are empty; and a slot
    of a second-round match holds the winner of the first-round match that
    feeds it when that match is a bye, and is empty otherwise. *)
Theorem generateBracket_unplayed (players : list Player) (r m : nat)
    (mt : Match) :
  2 ≤ length players →
  match_at (winners (generateBracket players)) r m = Some mt →
  m_id mt = match_label (Z.of_nat r + 1) (Z.of_nat m + 1)
  ∧ roundIndex mt = Z.of_nat r ∧ matchIndex mt = Z.of_nat m
  ∧ scores mt = [0%Z; 0%Z] ∧ justCompleted mt = None
  ∧ (1 ≤ r → winnerId mt = None ∧ isBye mt = None)
  ∧ (2 ≤ r → m_players mt = [None; None])
  ∧ (r = 1 → ∀ j feeder, j < 2 →
       match_at (winners (generateBracket players)) 0 (2 * m + j) = Some feeder →
       m_players mt !! j
       = Some (if flag (isBye feeder) then winnerId feeder else None)).
Proof.
  intros Hn Hmt.
  set (K := Z.to_nat (Z.log2_up (Z.of_nat (length players)))).
  destruct (generated_match_inv players Hn _ _ _ Hmt)
    as (mt0 & H0 & -> & Hid & Hidx & _).
  fold K.
  destruct (finish_fields K r m mt0) as (-> & -> & -> & -> & ->).
  destruct (finish_more_fields K r m mt0) as (-> & -> & ->).
  apply match_at_Some in H0 as (round & Hround & Hm0).
  unfold pushed_rounds in Hround.
  destruct r as [|r]; simpl in Hround.
  - injection Hround as <-. apply first_round_lookup in Hm0 as ->.
    split_and!; try done; lia.
  - destruct (later_rounds_unplayed _ _ _ _ _ _ Hround Hm0)
      as (Hr & Hs & Hj & Hfirst & Hlater).
    destruct (later_rounds_lookup _ _ _ _ _ _ Hround Hm0)
      as (_ & _ & Hw & Hb & _).
    split_and!; [done|lia|done..| |].
    + intros ?. apply Hlater. lia.
    + intros [= ->] j feeder Hj2 Hfeeder.
      rewrite (Hfirst eq_refl).
      destruct (generated_match_inv players Hn _ _ _ Hfeeder)
        as (f0 & Hf0 & -> & _).
      fold K.
      destruct (finish_fields K 0 (2 * m + j) f0) as (_ & _ & _ & -> & ->).
      apply match_at_Some in Hf0 as (round0 & [= <-] & Hf0).
      unfold later_round_match. cbn [m_players].
      destruct j as [|[|j]]; [| |lia].
      * rewrite Nat.add_0_r in Hf0. by rewrite Hf0.
      * by rewrite Hf0.
Qed.

Lemma generateBracket_unplayed_witness :
  let mt := mkMatch "2W1" 1 0 [Some "p1"; None] [0%Z; 0%Z] None None None None
              (Some true) in
  m_id mt = match_label (Z.of_nat 1 + 1) (Z.of_nat 0 + 1)
  ∧ roundIndex mt = Z.of_nat 1 ∧ matchIndex mt = Z.of_nat 0
  ∧ scores mt = [0%Z; 0%Z] ∧ justCompleted mt = None
  ∧ (1 ≤ 1 → winnerId mt = None ∧ isBye mt = None)
  ∧ (2 ≤ 1 → m_players mt = [None; None])
  ∧ (1 = 1 → ∀ j feeder, j < 2 →
       match_at (winners (generateBracket three_players)) 0 (2 * 0 + j)
       = Some feeder →
       m_players mt !! j
       = Some (if flag (isBye feeder) then winnerId feeder else None)).
Proof.
  apply (generateBracket_unplayed three_players 1 0); [simpl; lia|].
  vm_compute. reflexivity.
Defined.

(** ** Sorting twice *)
Lemma insert_by_seed_head p l :
  Forall (seed_le p) l → insert_by_seed p l = p :: l.
Proof.
  destruct l as [|q l]; [done|]. intros [Hpq _]%Forall_cons. simpl.
  by rewrite decide_True.
Qed.

Lemma sort_by_seed_sorted_id l :
  StronglySorted seed_le l → sort_by_seed l = l.
Proof.
  induction 1 as [|p l _ IH Hp]; [done|]. simpl.
  rewrite IH. by apply insert_by_seed_head.
Qed.

Lemma sort_by_seed_idemp l : sort_by_seed (sort_by_seed l) = sort_by_seed l.
Proof. apply sort_by_seed_sorted_id, sort_by_seed_sorted. Qed.

Lemma generateBracket_sorted_eq (players : list Player) :
  generateBracket (sort_by_seed players) = generateBracket players.
Proof.
  unfold generateBracket, first_round, final_player_order.
  by rewrite sort_by_seed_idemp, sort_by_seed_length.
Qed.

Lemma merge_status s t : merge_updates t (status_update s) = set_status s t.
Proof. done. Qed.

(** X16.  Sorting by seed twice is sorting once, and
    [generateBracket], which sorts the players itself, gives the same
    bracket for the sorted players as for the players as stored; so the
    bracket [updateTournament] stores when it starts an open tournament of
    at least two players is [generateBracket] of the stored players. *)
Theorem generateBracket_presorted (players : list Player) :
  sort_by_seed (sort_by_seed players) = sort_by_seed players
  ∧ generateBracket (sort_by_seed players) = generateBracket players
  ∧ ∀ t, t_players t = players → status t = REGISTRATION_OPEN →
      2 ≤ length players →
      bracket (apply_updates (status_update IN_PROGRESS) t)
      = Some (generateBracket players).
Proof.
  split_and!.
  - apply sort_by_seed_sorted_id, sort_by_seed_sorted.
  - apply generateBracket_sorted_eq.
  - intros t <- Hst Hn. unfold apply_updates.
    rewrite merge_status, Hst. simpl. rewrite decide_True by done.
    simpl. by rewrite generateBracket_sorted_eq.
Qed.

(** ** Reverting and starting again *)
(** X17.  Reverting a tournament in progress to open registration
    and starting it again: after the revert the stored tournament has status
    Open and no bracket and is otherwise unchanged; after the restart, with
    at least two players, it is the original tournament with the bracket
    generated afresh from its players, so every reported result is gone;
    with fewer than two players the restart changes nothing. *)
Theorem updateTournament_restart (store : list Tournament) (id : string)
    (i : nat) (t : Tournament) :
  store !! i = Some t → t_id t = id → status t = IN_PROGRESS →
  let reverted := (updateTournament id (status_update REGISTRATION_OPEN) store).1 in
  let restarted := (updateTournament id (status_update IN_PROGRESS) reverted).1 in
  reverted !! i = Some (set_bracket None (set_status REGISTRATION_OPEN t))
  ∧ (2 ≤ length (t_players t) →
     restarted !! i = Some (set_bracket (Some (generateBracket (t_players t))) t))
  ∧ (length (t_players t) < 2 → restarted !! i = reverted !! i).
Proof.
  intros Hi Hid Hst reverted restarted.
  assert (Hrev : reverted !! i
                 = Some (set_bracket None (set_status REGISTRATION_OPEN t))).
  { subst reverted. rewrite updateTournament_run. simpl.
    rewrite list_lookup_fmap, Hi. simpl. rewrite decide_True by done.
    unfold apply_updates. rewrite merge_status, Hst. done. }
  split; [done|].
  subst restarted. rewrite updateTournament_run. simpl.
  rewrite list_lookup_fmap, Hrev. simpl. rewrite decide_True by done.
  unfold apply_updates. rewrite merge_status. simpl.
  split; intros Hlen.
  - rewrite decide_True by done. rewrite (generateBracket_sorted_eq (t_players t)).
    f_equal. destruct t. simpl in *. by subst.
  - rewrite decide_False by lia. done.
Qed.

Lemma updateTournament_restart_witness :
  let t := sample_tournament "t1" IN_PROGRESS four_players
             (Some (generateBracket four_players)) in
  let reverted :=
    (updateTournament "t1" (status_update REGISTRATION_OPEN) sample_store).1 in
  let restarted :=
    (updateTournament "t1" (status_update IN_PROGRESS) reverted).1 in
  reverted !! 0 = Some (set_bracket None (set_status REGISTRATION_OPEN t))
  ∧ (2 ≤ length (t_players t) →
     restarted !! 0
     = Some (set_bracket (Some (generateBracket (t_players t))) t))
  ∧ (length (t_players t) < 2 → restarted !! 0 = reverted !! 0).
Proof.
  apply (updateTournament_restart sample_store "t1" 0
           (sample_tournament "t1" IN_PROGRESS four_players
              (Some (generateBracket four_players)))); reflexivity.
Defined.

(** ** Linked brackets *)
Lemma match_label_nonempty r m : match_label r m ≠ "".
Proof. unfold match_label. by destruct (pretty r). Qed.

Lemma generated_linked players :
  2 ≤ length players → linked_bracket (winners (generateBracket players)).
Proof.
  intros Hn r m mt Hmt.
  destruct (generated_rounds players Hn) as (_ & -> & _).
  destruct (generated_position players Hn _ _ _ Hmt) as [Hr _].
  pose proof (generated_match_inv players Hn _ _ _ Hmt)
    as (mt0 & _ & Hfin & Hid & Hidx & _).
  destruct (finish_fields (Z.to_nat (Z.log2_up (Z.of_nat (length players))))
              r m mt0) as (Hid' & Hidx' & _).
  rewrite <-Hfin in Hid', Hidx'.
  unfold linked_match. case_decide as Hlast.
  - destruct (generated_parent players Hn _ _ _ Hlast Hmt)
      as (parent & Hp & Hnext & Hpid).
    split_and!; [congruence|congruence|congruence|]. intros _. by eexists.
  - destruct (generated_final players Hn r m mt ltac:(lia) Hmt) as (_ & Hnext & _).
    split_and!; [congruence|congruence|done|lia].
Qed.

Lemma linked_find rounds r m mt :
  linked_bracket rounds → match_at rounds r m = Some mt →
  find_in_rounds (match_label (Z.of_nat r + 1) (Z.of_nat m + 1)) rounds
  = Some (r, m, mt).
Proof.
  intros Hl Hmt. apply find_in_rounds_Some.
  destruct (Hl _ _ _ Hmt) as [(Hid & _) _].
  split_and!; [done..| |].
  - intros i0 m0 Hlt H0. destruct (Hl _ _ _ H0) as [(-> & _) _].
    intros [_ ?]%match_label_inj. lia.
  - intros r0 i0 m0 Hlt H0. destruct (Hl _ _ _ H0) as [(-> & _) _].
    intros [? _]%match_label_inj. lia.
Qed.

Lemma linked_find_inv rounds r m mid r0 m0 mt :
  linked_bracket rounds →
  mid = match_label (Z.of_nat r + 1) (Z.of_nat m + 1) →
  match_at rounds r0 m0 = Some mt → m_id mt = mid → r0 = r ∧ m0 = m.
Proof.
  intros Hl -> Hmt. destruct (Hl _ _ _ Hmt) as [(-> & _) _].
  intros [??]%match_label_inj. lia.
Qed.

Lemma linked_transport (g : nat → nat → Match → Match) rounds rounds' :
  length rounds' = length rounds →
  (∀ r i, match_at rounds' r i = g r i <$> match_at rounds r i) →
  (∀ r i, keeps_links (g r i)) →
  linked_bracket rounds → linked_bracket rounds'.
Proof.
  intros Hlen Hat Hg Hl r m mt'. rewrite Hat, Hlen.
  intros [mt [Hmt ->]]%fmap_Some.
  destruct (Hl _ _ _ Hmt) as [(Hid & Hidx & Hnext) Hparent].
  unfold linked_match in *.
  destruct (Hg r m mt) as (-> & -> & ->).
  split; [done|]. intros Hr. rewrite Hat.
  destruct (Hparent Hr) as [p ->]. by eexists.
Qed.

Lemma keeps_links_id : keeps_links (λ x, x).
Proof. by intros x. Qed.

Lemma keeps_links_compose f g :
  keeps_links f → keeps_links g → keeps_links (λ x, f (g x)).
Proof.
  intros Hf Hg x. destruct (Hf (g x)) as (-> & -> & ->). apply Hg.
Qed.

Lemma keeps_links_if (P : Prop) `{Decision P} f g :
  keeps_links f → keeps_links g →
  keeps_links (λ x, if decide P then f x else g x).
Proof. intros Hf Hg x. case_decide; [apply Hf|apply Hg]. Qed.

Lemma keeps_links_report w sc : keeps_links (report_result w sc).
Proof. by intros x. Qed.

Lemma keeps_links_reset : keeps_links reset_result.
Proof. by intros x. Qed.

Lemma keeps_links_set_players (f : Match → list (option string)) :
  keeps_links (λ x, set_players (f x) x).
Proof. by intros x. Qed.

Lemma keeps_links_set_justCompleted v : keeps_links (set_justCompleted v).
Proof. by intros x. Qed.

Lemma length_alter_match f r i rounds :
  length (alter_match f r i rounds) = length rounds.
Proof. unfold alter_match. apply length_alter. Qed.

(** What [findAndAdvance] does, position by position. *)
Lemma findAndAdvance_positions mid w sc rounds :
  length (findAndAdvance mid w sc rounds) = length rounds
  ∧ ∃ g : nat → nat → Match → Match,
      (∀ r i, keeps_links (g r i))
      ∧ ∀ r i, match_at (findAndAdvance mid w sc rounds) r i
               = g r i <$> match_at rounds r i.
Proof.
  unfold findAndAdvance.
  destruct (find_in_rounds mid rounds) as [[[r i] m]|] eqn:Hm.
  2: { split; [done|]. exists (λ _ _ x, x). split; [intros; apply keeps_links_id|].
       intros r i. by destruct (match_at rounds r i). }
  cbv zeta.
  set (g1 := λ r0 i0 x, if decide (r0 = r ∧ i0 = i) then report_result w sc x else x).
  assert (Hg1 : ∀ r0 i0, keeps_links (g1 r0 i0)).
  { intros r0 i0. apply keeps_links_if; [apply keeps_links_report|apply keeps_links_id]. }
  assert (H1 : ∀ r0 i0, match_at (alter_match (report_result w sc) r i rounds) r0 i0
                         = g1 r0 i0 <$> match_at rounds r0 i0).
  { intros. apply match_at_alter. }
  destruct (match_at (alter_match _ r i rounds) r i) as [m'|];
    [|split; [apply length_alter_match|by exists g1]].
  unfold advance_winner.
  destruct (truthy (nextMatchId m')) as [next|];
    [|split; [apply length_alter_match|by exists g1]].
  destruct (find_in_rounds next _) as [[[r' j] nm]|];
    [|split; [apply length_alter_match|by exists g1]].
  split; [by rewrite !length_alter_match|].
  exists (λ r0 i0 x,
            if decide (r0 = r' ∧ i0 = j)
            then place_winner (playerIndexInNextMatch m') w (g1 r0 i0 x)
            else g1 r0 i0 x).
  split.
  - intros r0 i0. apply keeps_links_if; [|done].
    apply (keeps_links_compose (place_winner _ w)); [|done].
    apply (keeps_links_set_players
             (λ x, array_set None (playerIndexInNextMatch m') (Some w) (m_players x))).
  - intros r0 i0. rewrite match_at_alter, H1.
    destruct (match_at rounds r0 i0); simpl; [|done]. by case_decide.
Qed.

Lemma reversed_rounds_positions rounds r i m w :
  length (reversed_rounds rounds r i m w) = length rounds
  ∧ ∃ g : nat → nat → Match → Match,
      (∀ r0 i0, keeps_links (g r0 i0))
      ∧ ∀ r0 i0, match_at (reversed_rounds rounds r i m w) r0 i0
                 = g r0 i0 <$> match_at rounds r0 i0.
Proof.
  unfold reversed_rounds.
  destruct (truthy (nextMatchId m)) as [next|].
  - split; [by rewrite length_alter_match, length_fmap|].
    exists (λ r0 i0 x, if decide (r0 = r ∧ i0 = i)
                       then reset_result (cleared_at rounds next w r0 i0 x)
                       else cleared_at rounds next w r0 i0 x).
    assert (Hc : ∀ r0 i0, keeps_links (cleared_at rounds next w r0 i0)).
    { intros r0 i0 x. unfold cleared_at. by case_decide. }
    split.
    + intros r0 i0. apply keeps_links_if; [|done].
      by apply (keeps_links_compose reset_result); [apply keeps_links_reset|].
    + intros r0 i0. rewrite match_at_alter, match_at_clear_round.
      destruct (match_at rounds r0 i0); simpl; [|done]. by case_decide.
  - split; [apply length_alter_match|].
    exists (λ r0 i0 x, if decide (r0 = r ∧ i0 = i) then reset_result x else x).
    split.
    + intros r0 i0. apply keeps_links_if; [apply keeps_links_reset|apply keeps_links_id].
    + intros. apply match_at_alter.
Qed.

Lemma stored_linked_after tid nb store t :
  find_tournament tid store = Some t → linked_bracket (winners nb) →
  stored_linked (updateTournament tid (bracket_update nb) store).1 tid.
Proof.
  intros Hfind Hl. exists (merge_updates t (bracket_update nb)), nb.
  split_and!; [by apply stored_after_bracket_update|done..].
Qed.

(** X18.  Starting an open tournament of at least two players stores
    a linked bracket: the id and match index of every match name its
    position, every match of a non-final round points to position [m / 2]
    of the next round, where a match exists, and the matches of the final
    round have no [nextMatchId]. *)
Theorem updateTournament_start_links (store : list Tournament) (tid : string)
    (t : Tournament) :
  find_tournament tid store = Some t →
  status t = REGISTRATION_OPEN → 2 ≤ length (t_players t) →
  stored_linked (updateTournament tid (status_update IN_PROGRESS) store).1 tid.
Proof.
  intros Hfind Hst Hn.
  exists (apply_updates (status_update IN_PROGRESS) t),
         (generateBracket (sort_by_seed (t_players t))).
  split; [by apply stored_after_update|].
  unfold apply_updates. rewrite merge_status, Hst. simpl.
  rewrite decide_True by done. split; [done|].
  apply generated_linked. by rewrite sort_by_seed_length.
Qed.

Lemma updateTournament_start_links_witness :
  stored_linked
    (updateTournament "t2" (status_update IN_PROGRESS) sample_store).1 "t2".
Proof.
  apply (updateTournament_start_links sample_store "t2"
           (sample_tournament "t2" REGISTRATION_OPEN three_players None));
    [reflexivity|reflexivity|simpl; lia].
Defined.

(** X19.  [updateMatchWinner], [reverseMatchWinner] and
    [clearJustCompletedFlags], with any arguments, keep the links: when the
    tournament stored under the id has a linked bracket before the call, it
    has one after it. *)
Theorem match_operations_keep_links (store : list Tournament)
    (tid mid w : string) (sc : list Z) :
  stored_linked store tid →
  stored_linked (updateMatchWinner tid mid w sc store).1 tid
  ∧ stored_linked (reverseMatchWinner tid mid store).1 tid
  ∧ stored_linked (clearJustCompletedFlags tid store).1 tid.
Proof.
  intros (t & b & Hfind & Hb & Hl). split_and!.
  - rewrite (updateMatchWinner_run _ _ _ _ _ _ _ Hfind Hb).
    apply (stored_linked_after _ _ _ _ Hfind). simpl.
    destruct (findAndAdvance_positions mid w sc (winners b))
      as (Hlen & g & Hg & Hat).
    by apply (linked_transport g (winners b)).
  - rewrite reverseMatchWinner_run, Hfind. simpl. rewrite Hb.
    assert (Hsame : stored_linked store tid) by (by exists t, b).
    destruct (find_in_rounds mid (winners b)) as [[[r i] m]|]; [|done].
    destruct (truthy (winnerId m)) as [w0|]; [|done].
    case_match; [done|].
    apply (stored_linked_after _ _ _ _ Hfind). simpl.
    destruct (reversed_rounds_positions (winners b) r i m w0)
      as (Hlen & g & Hg & Hat).
    by apply (linked_transport g (winners b)).
  - rewrite clearJustCompletedFlags_run, Hfind, Hb.
    apply (stored_linked_after _ _ _ _ Hfind). simpl.
    apply (linked_transport (λ _ _, set_justCompleted false) (winners b)).
    + by rewrite length_fmap.
    + intros. apply match_at_fmap.
    + intros. apply keeps_links_set_justCompleted.
    + done.
Qed.

Lemma match_operations_keep_links_witness :
  stored_linked (updateMatchWinner "t1" "1W1" "p1" [2; 0]%Z sample_store).1 "t1"
  ∧ stored_linked (reverseMatchWinner "t1" "1W1" sample_store).1 "t1"
  ∧ stored_linked (clearJustCompletedFlags "t1" sample_store).1 "t1".
Proof.
  apply match_operations_keep_links.
  eexists _, _. split_and!; [reflexivity|reflexivity|].
  apply generated_linked. simpl. lia.
Defined.

(** ** Reporting a result in a linked bracket *)
Lemma rounds_ext (A B : list (list Match)) :
  length A = length B → (∀ r i, match_at A r i = match_at B r i) → A = B.
Proof.
  intros Hlen Hat. apply list_eq_same_length with (length A); [done..|].
  intros r ra rb Hr Ha Hb. apply list_eq. intros i.
  specialize (Hat r i). unfold match_at in Hat. by rewrite Ha, Hb in Hat.
Qed.

Lemma merge_bracket t nb :
  merge_updates t (bracket_update nb) = set_bracket (Some nb) t.
Proof. done. Qed.

Lemma findAndAdvance_linked rounds r m mt w sc :
  linked_bracket rounds → match_at rounds r m = Some mt →
  findAndAdvance (m_id mt) w sc rounds
  = if decide (r + 1 < length rounds)
    then alter_match (place_winner (m mod 2) w) (r + 1) (m / 2)
           (alter_match (report_result w sc) r m rounds)
    else alter_match (report_result w sc) r m rounds.
Proof.
  intros Hl Hmt. destruct (Hl _ _ _ Hmt) as [(Hid & Hidx & Hnext) Hparent].
  set (updated := alter_match (report_result w sc) r m rounds).
  assert (Hup : ∀ r0 i0, match_at updated r0 i0
    = (λ x, if decide (r0 = r ∧ i0 = m) then report_result w sc x else x)
      <$> match_at rounds r0 i0) by (intros; apply match_at_alter).
  assert (Hlu : linked_bracket updated).
  { apply (linked_transport
             (λ r0 i0 x, if decide (r0 = r ∧ i0 = m) then report_result w sc x else x)
             rounds); [apply length_alter_match|done| |done].
    intros. apply keeps_links_if; [apply keeps_links_report|apply keeps_links_id]. }
  unfold findAndAdvance. rewrite Hid, (linked_find _ _ _ _ Hl Hmt). cbv zeta.
  fold updated. rewrite Hup, Hmt. simpl. rewrite decide_True by done.
  unfold advance_winner.
  change (nextMatchId (report_result w sc mt)) with (nextMatchId mt).
  rewrite Hnext. case_decide as Hr; [|done].
  unfold truthy. rewrite decide_False by apply match_label_nonempty.
  destruct (Hparent Hr) as [p Hp].
  assert (Hp' : is_Some (match_at updated (r + 1) (m / 2))).
  { rewrite Hup, Hp. by eexists. }
  destruct Hp' as [p' Hp'].
  pose proof (linked_find _ _ _ _ Hlu Hp') as Hf.
  replace (Z.of_nat (r + 1) + 1)%Z with (Z.of_nat r + 2)%Z in Hf by lia.
  rewrite Hf.
  change (playerIndexInNextMatch (report_result w sc mt))
    with (playerIndexInNextMatch mt).
  by rewrite (playerIndexInNextMatch_parity mt m).
Qed.

(** The reported match after [findAndAdvance], whatever its [nextMatchId]
    is: the advance touches player slots only. *)
Lemma findAndAdvance_reports rounds mid w sc r i m :
  find_in_rounds mid rounds = Some (r, i, m) →
  ∃ m', match_at (findAndAdvance mid w sc rounds) r i = Some m'
        ∧ m_id m' = mid ∧ winnerId m' = Some w ∧ scores m' = sc.
Proof.
  intros Hm. pose proof Hm as (Hat & Hmid & _)%find_in_rounds_Some.
  unfold findAndAdvance. rewrite Hm. cbv zeta.
  assert (Hup : match_at (alter_match (report_result w sc) r i rounds) r i
                = Some (report_result w sc m)).
  { rewrite match_at_alter, Hat. simpl. by rewrite decide_True. }
  rewrite Hup. unfold advance_winner.
  destruct (truthy _) as [next|]; [|eexists; split; [exact Hup|done]].
  destruct (find_in_rounds next _) as [[[r' j] nm]|];
    [|eexists; split; [exact Hup|done]].
  rewrite match_at_alter, Hup. eexists. split; [done|].
  cbv beta. by case_decide.
Qed.

(** In a linked bracket a [nextMatchId] that is not null is a label, hence
    truthy, and the search by id finds the match it names, at position
    [i / 2] of the next round. *)
Lemma linked_next_found rounds mid r i m next :
  linked_bracket rounds → find_in_rounds mid rounds = Some (r, i, m) →
  nextMatchId m = Some next →
  next ≠ "" ∧ ∃ nm, find_in_rounds next rounds = Some (r + 1, i / 2, nm).
Proof.
  intros Hl (Hat & _)%find_in_rounds_Some Hnext.
  destruct (Hl _ _ _ Hat) as [(_ & _ & Hn) Hparent].
  rewrite Hnext in Hn. case_decide as Hr; [|done]. injection Hn as ->.
  split; [apply match_label_nonempty|].
  destruct (Hparent Hr) as [nm Hnm]. exists nm.
  pose proof (linked_find _ _ _ _ Hl Hnm) as Hf.
  by replace (Z.of_nat (r + 1) + 1)%Z with (Z.of_nat r + 2)%Z in Hf by lia.
Qed.

(** C2.  For a stored tournament whose bracket contains a match of id
    [matchId], [updateMatchWinner] stores a bracket in which that match has
    the given [winnerId] and [scores], whatever its [nextMatchId] is.  When
    its [nextMatchId] is not null, and the bracket is linked as every
    bracket the service writes is (it is linked when the tournament is
    started, and the match operations keep it so), the next match, the one
    match of that id, holds [winnerId] in slot 0 when the match's
    [matchIndex] is even and in slot 1 when it is odd, whatever the slot
    held before. *)
Theorem updateMatchWinner_advances (store : list Tournament)
    (tid mid w : string) (sc : list Z) (t : Tournament) (b : Bracket)
    (r i : nat) (m : Match) :
  find_tournament tid store = Some t → bracket t = Some b →
  find_in_rounds mid (winners b) = Some (r, i, m) →
  ∃ t' b' m',
    find_tournament tid (updateMatchWinner tid mid w sc store).1 = Some t'
    ∧ bracket t' = Some b'
    ∧ match_at (winners b') r i = Some m' ∧ m_id m' = mid
    ∧ winnerId m' = Some w ∧ scores m' = sc
    ∧ ∀ next, nextMatchId m = Some next → linked_bracket (winners b) →
        ∃ r' j nm nm',
          find_in_rounds next (winners b) = Some (r', j, nm)
          ∧ (∀ r0 j0 m0, match_at (winners b) r0 j0 = Some m0 →
               m_id m0 = next → r0 = r' ∧ j0 = j)
          ∧ match_at (winners b') r' j = Some nm' ∧ m_id nm' = next
          ∧ (Z.even (matchIndex m) = true →
             m_players nm' !! 0 = Some (Some w))
          ∧ (Z.odd (matchIndex m) = true →
             m_players nm' !! 1 = Some (Some w)).
Proof.
  intros Hfind Hb Hm.
  rewrite (updateMatchWinner_run _ _ _ _ _ _ _ Hfind Hb).
  rewrite (stored_after_bracket_update _ _ _ _ Hfind).
  destruct (findAndAdvance_reports (winners b) mid w sc r i m Hm)
    as (m' & Hm' & Hid & Hw & Hsc).
  eexists _, (mkBracket (findAndAdvance mid w sc (winners b))), m'.
  split_and!; try done.
  intros next Hnext Hl.
  destruct (linked_next_found _ _ _ _ _ _ Hl Hm Hnext) as (Hne & nm & Hnm).
  destruct (findAndAdvance_advances _ _ w sc _ _ _ _ _ _ _ Hm Hnext Hne Hnm)
    as (m'' & nm' & _ & _ & _ & _ & Hnm' & Hnid & Hslot).
  pose proof Hnm as (Hnat & _)%find_in_rounds_Some.
  destruct (Hl _ _ _ Hnat) as [(Hlabel & _) _].
  pose proof Hnm as (_ & Hnext_id & _)%find_in_rounds_Some.
  exists (r + 1), (i / 2), nm, nm'. split_and!; try done.
  - intros r0 j0 m0 H0 Hid0.
    apply (linked_find_inv (winners b) (r + 1) (i / 2) next r0 j0 m0 Hl);
      [congruence|done..].
  - intros Heven. by rewrite <-(playerIndexInNextMatch_even m).
  - intros Hodd. by rewrite <-(playerIndexInNextMatch_odd m).
Qed.

Lemma updateMatchWinner_advances_witness :
  ∃ t' b' m' nm',
    find_tournament "t1"
      (updateMatchWinner "t1" "1W2" "p3" [1%Z; 2%Z] sample_store).1 = Some t'
    ∧ bracket t' = Some b'
    ∧ match_at (winners b') 0 1 = Some m' ∧ m_id m' = "1W2"
    ∧ winnerId m' = Some "p3" ∧ scores m' = [1%Z; 2%Z]
    ∧ match_at (winners b') 1 0 = Some nm' ∧ m_id nm' = "2W1"
    ∧ m_players nm' !! 1 = Some (Some "p3").
Proof.
  destruct (updateMatchWinner_advances sample_store "t1" "1W2" "p3"
              [1%Z; 2%Z]
              (sample_tournament "t1" IN_PROGRESS four_players
                 (Some (generateBracket four_players)))
              (generateBracket four_players) 0 1
              (mkMatch "1W2" 0 1 [Some "p2"; Some "p3"] [0%Z; 0%Z] None
                 (Some false) (Some "2W1") None None))
    as (t' & b' & m' & Ht' & Hb' & Hm' & Hid & Hw & Hsc & Hadv);
    [reflexivity|reflexivity|vm_compute; reflexivity|].
  destruct (Hadv "2W1") as (r' & j & nm & nm' & Hf & _ & Hnm' & Hnid & _ & Hodd);
    [reflexivity|apply generated_linked; simpl; lia|].
  vm_compute in Hf. injection Hf as <- <- <-.
  exists t', b', m', nm'. split_and!; try done. by apply Hodd.
Defined.

(** X20.  In a linked bracket, reporting the result of the match at
    round [r], position [m] stores that match with winner, scores and
    [justCompleted] set; the match at round [r + 1], position [m / 2], when
    there is one, with the winner written to slot [m mod 2]; and every other
    match as it was.  The other fields of the tournament are unchanged. *)
Theorem updateMatchWinner_in_linked_bracket (store : list Tournament)
    (tid w : string) (sc : list Z) (t : Tournament) (b : Bracket)
    (r m : nat) (mt : Match) :
  find_tournament tid store = Some t → bracket t = Some b →
  linked_bracket (winners b) → match_at (winners b) r m = Some mt →
  ∃ b',
    find_tournament tid (updateMatchWinner tid (m_id mt) w sc store).1
    = Some (set_bracket (Some b') t)
    ∧ match_at (winners b') r m = Some (report_result w sc mt)
    ∧ (∀ nm, match_at (winners b) (r + 1) (m / 2) = Some nm →
         match_at (winners b') (r + 1) (m / 2)
         = Some (place_winner (m mod 2) w nm))
    ∧ (∀ r0 m0, ¬ (r0 = r ∧ m0 = m) → ¬ (r0 = r + 1 ∧ m0 = m / 2) →
         match_at (winners b') r0 m0 = match_at (winners b) r0 m0).
Proof.
  intros Hfind Hb Hl Hmt.
  rewrite (updateMatchWinner_run _ _ _ _ _ _ _ Hfind Hb).
  rewrite (stored_after_bracket_update _ _ _ _ Hfind), merge_bracket.
  eexists. split; [done|]. simpl.
  rewrite (findAndAdvance_linked _ _ _ _ _ _ Hl Hmt).
  case_decide as Hr.
  - split_and!.
    + rewrite !match_at_alter, Hmt. simpl.
      rewrite decide_False by lia. by rewrite decide_True.
    + intros nm Hnm. rewrite !match_at_alter, Hnm. simpl.
      rewrite decide_True by done. by rewrite decide_False by lia.
    + intros r0 m0 H1 H2. rewrite !match_at_alter.
      destruct (match_at (winners b) r0 m0); simpl; [|done].
      by rewrite !decide_False.
  - split_and!.
    + rewrite match_at_alter, Hmt. simpl. by rewrite decide_True.
    + intros nm (round & Hround%lookup_lt_Some & _)%match_at_Some. lia.
    + intros r0 m0 H1 H2. rewrite match_at_alter.
      destruct (match_at (winners b) r0 m0); simpl; [|done].
      by rewrite decide_False.
Qed.

Lemma updateMatchWinner_in_linked_bracket_witness :
  ∃ b',
    find_tournament "t1"
      (updateMatchWinner "t1"
         (m_id (mkMatch "1W2" 0 1 [Some "p2"; Some "p3"] [0%Z; 0%Z] None
                  (Some false) (Some "2W1") None None))
         "p3" [1; 2]%Z sample_store).1
    = Some (set_bracket (Some b')
              (sample_tournament "t1" IN_PROGRESS four_players
                 (Some (generateBracket four_players))))
    ∧ match_at (winners b') 0 1
      = Some (report_result "p3" [1; 2]%Z
                (mkMatch "1W2" 0 1 [Some "p2"; Some "p3"] [0%Z; 0%Z] None
                   (Some false) (Some "2W1") None None))
    ∧ (∀ nm, match_at (winners (generateBracket four_players)) (0 + 1) (1 / 2)
             = Some nm →
         match_at (winners b') (0 + 1) (1 / 2)
         = Some (place_winner (1 mod 2) "p3" nm))
    ∧ (∀ r0 m0, ¬ (r0 = 0 ∧ m0 = 1) → ¬ (r0 = 0 + 1 ∧ m0 = 1 / 2) →
         match_at (winners b') r0 m0
         = match_at (winners (generateBracket four_players)) r0 m0).
Proof.
  apply (updateMatchWinner_in_linked_bracket sample_store "t1" "p3" [1; 2]%Z
           (sample_tournament "t1" IN_PROGRESS four_players
              (Some (generateBracket four_players)))
           (generateBracket four_players) 0 1).
  - reflexivity.
  - reflexivity.
  - apply generated_linked. simpl. lia.
  - vm_compute. reflexivity.
Defined.

(** ** Reporting a result and taking it back *)
Lemma indexOf_insert (w : string) k (ps : list (option string)) :
  k < length ps → (∀ k', k' < k → ps !! k' ≠ Some (Some w)) →
  indexOf (Some w) (<[k:=Some w]> ps) = Some k.
Proof.
  intros Hk Hfirst. unfold indexOf.
  assert (list_find (λ x, x = Some w) (<[k:=Some w]> ps) = Some (k, Some w)) as ->;
    [|done].
  apply list_find_Some. split_and!; [by apply list_lookup_insert_eq|done|].
  intros j y Hy Hj. rewrite list_lookup_insert_ne in Hy by lia.
  intros ->. by apply (Hfirst j).
Qed.

Lemma clear_player_placed (w : string) k (ps : list (option string)) :
  ps !! k = Some None → (∀ k', k' < k → ps !! k' ≠ Some (Some w)) →
  clear_player w (array_set None k (Some w) ps) = ps.
Proof.
  intros Hk Hfirst. pose proof (lookup_lt_Some _ _ _ Hk) as Hlt.
  unfold clear_player, array_set. rewrite decide_True by done.
  rewrite indexOf_insert by done.
  rewrite list_insert_insert_eq. by apply list_insert_id.
Qed.

Lemma linked_next_round rounds r m next r0 i0 :
  linked_bracket rounds →
  next = match_label (Z.of_nat r + 2) (Z.of_nat (m / 2) + 1) →
  is_Some (match_at rounds (r + 1) (m / 2)) →
  fst <$> (rounds !! r0 ≫= find_match next) = Some i0
  ↔ r0 = r + 1 ∧ i0 = m / 2.
Proof.
  intros Hl -> [p Hp]. split.
  - intros [[i x] [Hf Hi]]%fmap_Some. simpl in Hi. subst i.
    apply bind_Some in Hf as (round & Hround & Hf).
    apply list_find_Some in Hf as (Hx & Hid & _).
    assert (Hat : match_at rounds r0 i0 = Some x) by (apply match_at_Some; eauto).
    apply (linked_find_inv rounds (r + 1) (m / 2) (m_id x) r0 i0 x Hl); [|done..].
    rewrite Hid. f_equal; lia.
  - intros [-> ->]. pose proof Hp as (round & Hround & Hx)%match_at_Some.
    rewrite Hround.
    change (fst <$> find_match
                      (match_label (Z.of_nat r + 2) (Z.of_nat (m / 2) + 1)) round
            = Some (m / 2)).
    assert (find_match
              (match_label (Z.of_nat r + 2) (Z.of_nat (m / 2) + 1)) round
            = Some (m / 2, p)) as ->; [|done].
    apply list_find_Some. destruct (Hl _ _ _ Hp) as [(Hid & _) _].
    split_and!; [done|rewrite Hid; f_equal; lia|].
    intros j y Hy Hj Hidy.
    assert (Hat : match_at rounds (r + 1) j = Some y) by (apply match_at_Some; eauto).
    destruct (Hl _ _ _ Hat) as [(Hid' & _) _]. rewrite Hid' in Hidy.
    apply match_label_inj in Hidy. lia.
Qed.

Lemma next_played_linked rounds r m next :
  linked_bracket rounds →
  next = match_label (Z.of_nat r + 2) (Z.of_nat (m / 2) + 1) →
  (∀ nm, match_at rounds (r + 1) (m / 2) = Some nm → truthy (winnerId nm) = None) →
  existsb (next_played next) rounds = false.
Proof.
  intros Hl -> Hnm. apply not_true_iff_false. intros H.
  apply existsb_next_played in H as (round & j & nm & Hin & Hf & Hw).
  apply list_elem_of_lookup_1 in Hin as [r0 Hround].
  apply list_find_Some in Hf as (Hx & Hid & _).
  assert (Hat : match_at rounds r0 j = Some nm) by (apply match_at_Some; eauto).
  destruct (linked_find_inv rounds (r + 1) (m / 2) (m_id nm) r0 j nm Hl)
    as [-> ->]; [rewrite Hid; f_equal; lia|done..|].
  rewrite (Hnm _ Hat) in Hw. by destruct Hw.
Qed.

Lemma unplace_winner k w x :
  m_players x !! k = Some None →
  (∀ k', k' < k → m_players x !! k' ≠ Some (Some w)) →
  set_players (clear_player w (m_players (place_winner k w x)))
    (place_winner k w x) = x.
Proof.
  intros Hk Hfirst. unfold place_winner. simpl.
  rewrite clear_player_placed by done. by destruct x.
Qed.

(** The bracket after a report and its reversal. *)
Lemma report_then_reverse_rounds rounds r m mt w sc :
  linked_bracket rounds → match_at rounds r m = Some mt →
  (∀ nm, match_at rounds (r + 1) (m / 2) = Some nm →
     m_players nm !! (m mod 2) = Some None
     ∧ ∀ k, k < m mod 2 → m_players nm !! k ≠ Some (Some w)) →
  reversed_rounds (findAndAdvance (m_id mt) w sc rounds) r m
    (report_result w sc mt) w
  = alter_match reset_result r m rounds.
Proof.
  intros Hl Hmt Hnm.
  destruct (findAndAdvance_positions (m_id mt) w sc rounds)
    as (Hlen & g & Hg & Hat).
  assert (Hl1 : linked_bracket (findAndAdvance (m_id mt) w sc rounds))
    by (by apply (linked_transport g rounds)).
  clear g Hg Hat.
  destruct (Hl _ _ _ Hmt) as [(Hid & Hidx & Hnext) Hparent].
  apply rounds_ext.
  { destruct (reversed_rounds_positions (findAndAdvance (m_id mt) w sc rounds)
                r m (report_result w sc mt) w) as [-> _].
    by rewrite Hlen, length_alter_match. }
  intros r0 i0. unfold reversed_rounds.
  change (nextMatchId (report_result w sc mt)) with (nextMatchId mt).
  rewrite Hnext. revert Hl1 Hlen.
  rewrite (findAndAdvance_linked _ _ _ _ _ _ Hl Hmt).
  case_decide as Hr; intros Hl1 Hlen.
  - unfold truthy. rewrite decide_False by apply match_label_nonempty.
    rewrite match_at_alter, match_at_clear_round, !match_at_alter.
    destruct (Hparent Hr) as [p Hp].
    destruct (match_at rounds r0 i0) as [x|] eqn:Hx; [|done].
    cbn [fmap option_fmap option_map]. f_equal. unfold cleared_at.
    destruct (decide (r0 = r ∧ i0 = m)) as [[-> ->]|Hne].
    + rewrite (decide_False (P := r = r + 1 ∧ _)) by lia.
      rewrite decide_False; [done|].
      rewrite (linked_next_round _ r m _ r m Hl1 eq_refl). { lia. }
      rewrite !match_at_alter, Hp. by eexists.
    + destruct (decide (r0 = r + 1 ∧ i0 = m / 2)) as [[-> ->]|Hne'].
      * rewrite decide_True.
        { assert (x = p) as -> by congruence.
          destruct (Hnm _ Hp). by apply unplace_winner. }
        apply (linked_next_round _ r m _ _ _ Hl1 eq_refl); [|done].
        rewrite !match_at_alter, Hp. by eexists.
      * rewrite decide_False; [done|].
        rewrite (linked_next_round _ r m _ r0 i0 Hl1 eq_refl); [done|].
        rewrite !match_at_alter, Hp. by eexists.
  - cbn [truthy]. rewrite !match_at_alter.
    destruct (match_at rounds r0 i0) as [x|]; [|done].
    cbn [fmap option_fmap option_map]. cbv beta. by case_decide.
Qed.

(** X21.  In a linked bracket, reporting a non-empty winner for a
    match whose next match has no winner yet, has slot [m mod 2] empty and
    does not hold the winner in an earlier slot, and then reversing the
    match: the reversal returns, and the stored bracket is the original one
    with that one match reset (no winner, scores [[0, 0]], [justCompleted]
    false). *)
Theorem updateMatchWinner_then_reverse (store : list Tournament)
    (tid w : string) (sc : list Z) (t : Tournament) (b : Bracket)
    (r m : nat) (mt : Match) :
  find_tournament tid store = Some t → bracket t = Some b →
  linked_bracket (winners b) → match_at (winners b) r m = Some mt →
  w ≠ "" →
  (∀ nm, match_at (winners b) (r + 1) (m / 2) = Some nm →
     truthy (winnerId nm) = None
     ∧ m_players nm !! (m mod 2) = Some None
     ∧ ∀ k, k < m mod 2 → m_players nm !! k ≠ Some (Some w)) →
  let reported := (updateMatchWinner tid (m_id mt) w sc store).1 in
  let out := reverseMatchWinner tid (m_id mt) reported in
  (∃ ret, out.2 = Return ret)
  ∧ find_tournament tid out.1
    = Some (set_bracket
              (Some (mkBracket (alter_match reset_result r m (winners b)))) t).
Proof.
  intros Hfind Hb Hl Hmt Hw Hnm reported out. subst out reported.
  rewrite (updateMatchWinner_run _ _ _ _ _ _ _ Hfind Hb).
  set (rounds1 := findAndAdvance (m_id mt) w sc (winners b)).
  set (store1 := (updateTournament tid (bracket_update (mkBracket rounds1)) store).1).
  assert (Hfind1 : find_tournament tid store1
                   = Some (merge_updates t (bracket_update (mkBracket rounds1))))
    by (by apply stored_after_bracket_update).
  destruct (findAndAdvance_positions (m_id mt) w sc (winners b))
    as (Hlen & g & Hg & Hat).
  assert (Hl1 : linked_bracket rounds1) by (by apply (linked_transport g (winners b))).
  destruct (Hl _ _ _ Hmt) as [(Hid & Hidx & Hnext) Hparent].
  assert (Hmt1 : match_at rounds1 r m = Some (report_result w sc mt)).
  { subst rounds1. rewrite (findAndAdvance_linked _ _ _ _ _ _ Hl Hmt).
    case_decide; rewrite !match_at_alter, Hmt; simpl.
    - rewrite decide_False by lia. by rewrite decide_True.
    - by rewrite decide_True. }
  rewrite reverseMatchWinner_run, Hfind1. simpl.
  rewrite Hid, (linked_find _ _ _ _ Hl1 Hmt1).
  cbn [winnerId report_result set_justCompleted set_scores set_winnerId].
  assert (Htw : truthy (Some w) = Some w)
    by (unfold truthy; by rewrite decide_False).
  rewrite !Htw.
  change (nextMatchId (report_result w sc mt)) with (nextMatchId mt).
  assert (Hfree : match truthy (nextMatchId mt) with
                  | Some next => existsb (next_played next) rounds1
                  | None => false
                  end = false).
  { rewrite Hnext. case_decide as Hr; [|done].
    unfold truthy. rewrite decide_False by apply match_label_nonempty.
    apply (next_played_linked _ r m _ Hl1 eq_refl).
    intros nm1. subst rounds1.
    rewrite (findAndAdvance_linked _ _ _ _ _ _ Hl Hmt), decide_True by done.
    rewrite !match_at_alter.
    intros [x [Hx ->]]%fmap_Some. apply fmap_Some in Hx as [nm [Hx ->]].
    destruct (Hnm _ Hx) as (Hwin & _). cbv beta.
    rewrite decide_True by done. by rewrite decide_False by lia. }
  rewrite !Hfree.
  split; [rewrite updateTournament_run; by eexists|].
  rewrite (stored_after_bracket_update _ _ _ _ Hfind1).
  rewrite merge_bracket_twice, merge_bracket. do 4 f_equal.
  subst rounds1. apply report_then_reverse_rounds; [done..|].
  intros nm Hx. by destruct (Hnm _ Hx) as (_ & ? & ?).
Qed.

Lemma updateMatchWinner_then_reverse_witness :
  let mt := mkMatch "1W2" 0 1 [Some "p2"; Some "p3"] [0%Z; 0%Z] None
              (Some false) (Some "2W1") None None in
  let t := sample_tournament "t1" IN_PROGRESS four_players
             (Some (generateBracket four_players)) in
  let reported := (updateMatchWinner "t1" (m_id mt) "p3" [1; 2]%Z sample_store).1 in
  let out := reverseMatchWinner "t1" (m_id mt) reported in
  (∃ ret, out.2 = Return ret)
  ∧ find_tournament "t1" out.1
    = Some (set_bracket
              (Some (mkBracket
                       (alter_match reset_result 0 1
                          (winners (generateBracket four_players))))) t).
Proof.
  apply (updateMatchWinner_then_reverse sample_store "t1" "p3" [1; 2]%Z
           (sample_tournament "t1" IN_PROGRESS four_players
              (Some (generateBracket four_players)))
           (generateBracket four_players) 0 1).
  - reflexivity.
  - reflexivity.
  - apply generated_linked. simpl. lia.
  - vm_compute. reflexivity.
  - done.
  - intros nm Hnm. vm_compute in Hnm. injection Hnm as <-.
    split_and!; [reflexivity|reflexivity|].
    intros [|[|k]] Hk; [done|vm_compute in Hk; lia..].
Defined.

(** ** Reports that change nothing *)
Lemma merge_same_bracket t b :
  bracket t = Some b → merge_updates t (bracket_update (mkBracket (winners b))) = t.
Proof. intros Hb. destruct t, b. simpl in *. by subst. Qed.

(** X22.  [updateMatchWinner] does not throw where
    [reverseMatchWinner] does: for a tournament that is missing or has no
    bracket it returns and leaves the store untouched, and for a match id
    that is not in the bracket it returns and stores the tournament found
    under the id back as it was. *)
Theorem updateMatchWinner_ignored (store : list Tournament)
    (tid mid w : string) (sc : list Z) :
  find_tournament tid store ≫= bracket = None
  ∨ (∃ b, find_tournament tid store ≫= bracket = Some b
          ∧ find_in_rounds mid (winners b) = None) →
  let out := updateMatchWinner tid mid w sc store in
  (∃ ret, out.2 = Return ret)
  ∧ find_tournament tid out.1 = find_tournament tid store
  ∧ (find_tournament tid store ≫= bracket = None → out.1 = store).
Proof.
  intros Hcase out. subst out.
  destruct (find_tournament tid store) as [t|] eqn:Hfind; simpl in *.
  2: { unfold updateMatchWinner, mbind, service_bind, getFromStorage.
       rewrite Hfind. simpl. split_and!; [by eexists|done..]. }
  destruct (bracket t) as [b|] eqn:Hb.
  2: { unfold updateMatchWinner, mbind, service_bind, getFromStorage.
       rewrite Hfind, Hb. simpl. split_and!; [by eexists|done..]. }
  destruct Hcase as [?|(b' & [= <-] & Hnone)]; [done|].
  rewrite (updateMatchWinner_run _ _ _ _ _ _ _ Hfind Hb).
  split_and!; [rewrite updateTournament_run; by eexists| |done].
  rewrite (stored_after_bracket_update _ _ _ _ Hfind).
  unfold findAndAdvance. rewrite Hnone. by rewrite merge_same_bracket.
Qed.

Lemma updateMatchWinner_ignored_witness :
  let out := updateMatchWinner "t1" "3W1" "p1" [2; 0]%Z sample_store in
  (∃ ret, out.2 = Return ret)
  ∧ find_tournament "t1" out.1 = find_tournament "t1" sample_store
  ∧ (find_tournament "t1" sample_store ≫= bracket = None → out.1 = sample_store).
Proof.
  apply (updateMatchWinner_ignored sample_store "t1" "3W1" "p1" [2; 0]%Z).
  right. eexists. split; vm_compute; reflexivity.
Defined.

(** ** Passwords *)
Lemma list_find_snoc_fresh (ps : list Player) (new : Player) :
  p_id new ∉ p_id <$> ps →
  list_find (λ p, p_id p = p_id new) (ps ++ [new]) = Some (length ps, new).
Proof.
  intros Hfresh. apply list_find_Some. split_and!.
  - rewrite lookup_app_r by lia. by rewrite Nat.sub_diag.
  - done.
  - intros j y Hy Hj Hid. rewrite lookup_app_l in Hy by done.
    destruct Hfresh. rewrite <-Hid. apply list_elem_of_fmap_2.
    by eapply list_elem_of_lookup_2.
Qed.

(** X23.  A player added with a password can report with it: after
    [addPlayer] with a fresh, non-empty generated id, [verifyPlayerPassword]
    on the stored tournament accepts the registration password for every
    match that has the new id in a slot. *)
Theorem addPlayer_then_verifyPlayerPassword
    (simpleHash : string → result string) (super tid : string)
    (data : PlayerData) (newId : string) (store : list Tournament)
    (t : Tournament) (h : string) (mt : Match) :
  find_tournament tid store = Some t →
  status t = REGISTRATION_OPEN →
  simpleHash (d_selfReportingPassword data) = Return h →
  newId ≠ "" → newId ∉ p_id <$> t_players t →
  Some newId ∈ m_players mt →
  ∃ t', find_tournament tid (addPlayer simpleHash tid data newId store).1
        = Some t'
    ∧ verifyPlayerPassword simpleHash super t' mt (d_selfReportingPassword data)
      = Return true.
Proof.
  intros Hfind Hst Hh Hne Hfresh Hin.
  rewrite addPlayer_run, Hfind.
  rewrite decide_False by (by rewrite Hst; intros []). rewrite Hh.
  set (new := mkPlayer _ _ _ _ _ _).
  rewrite (stored_after_players _ _ _ _ Hfind).
  eexists. split; [done|].
  unfold verifyPlayerPassword. case_decide; [done|].
  destruct (verify_slots_spec simpleHash
              (merge_updates t (players_update (t_players t ++ [new])))
              (d_selfReportingPassword data) h (m_players mt) Hh)
    as (ok & -> & Hok).
  f_equal. apply Hok. exists newId, new. split_and!; [done..| |done].
  change (snd <$> list_find (λ p, p_id p = p_id new) (t_players t ++ [new])
          = Some new).
  by rewrite (list_find_snoc_fresh (t_players t) new Hfresh).
Qed.

Lemma addPlayer_then_verifyPlayerPassword_witness :
  ∃ t', find_tournament "t2" (addPlayer sample_hash "t2" sample_data "p9"
                                sample_store).1
        = Some t'
    ∧ verifyPlayerPassword sample_hash "root" t'
        (mkMatch "1W1" 0 0 [Some "p1"; Some "p9"] [0%Z; 0%Z] None (Some false)
           (Some "2W1") None None)
        (d_selfReportingPassword sample_data)
      = Return true.
Proof.
  apply (addPlayer_then_verifyPlayerPassword sample_hash "root" "t2" sample_data
           "p9" sample_store open_tournament "h:pw").
  - reflexivity.
  - reflexivity.
  - reflexivity.
  - done.
  - compute_done.
  - compute_done.
Defined.

(** X24.  [verifyAdminPassword] leaves the store as it is; when the
    password hashes to [h] it returns true exactly when the password is the
    super admin password or the first tournament of the given id has the
    admin hash [h]. *)
Theorem verifyAdminPassword_accepts (simpleHash : string → result string)
    (super tid password h : string) (store : list Tournament) :
  simpleHash password = Return h →
  let out := verifyAdminPassword simpleHash super tid password store in
  out.1 = store
  ∧ ∃ ok, out.2 = Return ok
      ∧ (ok = true ↔
         password = super
         ∨ ∃ t, find_tournament tid store = Some t ∧ adminPasswordHash t = h).
Proof.
  intros Hh out. subst out. unfold verifyAdminPassword.
  case_decide as Hsuper.
  { split; [done|]. exists true. split; [done|]. split; [by left|done]. }
  unfold mbind, service_bind, getFromStorage.
  destruct (find_tournament tid store) as [t|]; simpl.
  - unfold lift_result, compareHash. rewrite Hh. simpl. split; [done|].
    eexists. split; [done|]. rewrite bool_decide_eq_true. split.
    + intros Heq. right. by exists t.
    + intros [?|(t' & [= <-] & ?)]; done.
  - split; [done|]. exists false. split; [done|]. split; [done|].
    by intros [?|(t' & [=] & _)].
Qed.

Lemma verifyAdminPassword_accepts_witness :
  let out := verifyAdminPassword sample_hash "root" "t1" "pw" sample_store in
  out.1 = sample_store
  ∧ ∃ ok, out.2 = Return ok
      ∧ (ok = true ↔
         "pw" = "root"
         ∨ ∃ t, find_tournament "t1" sample_store = Some t
                ∧ adminPasswordHash t = "h:pw").
Proof.
  apply (verifyAdminPassword_accepts sample_hash "root" "t1" "pw" "h:pw").
  reflexivity.
Defined.

(** ** Creating a tournament *)
Lemma createTournament_run simpleHash data bg gid store :
  createTournament simpleHash data bg gid store
  = match simpleHash (c_adminPassword data) with
    | Return h =>
        let new :=
          mkTournament gid (c_name data) (c_gameTitle data) (c_platforms data)
            (c_tournamentType data) (c_matchFormat data) (c_startDate data)
            (c_endDate data) (c_description data) (c_discordLink data) h
            (c_logoUrl data) bg "" (c_rules data) (c_prizePool data)
            (c_status data) [] None "" (c_isCitiesTournament data) in
        (store ++ [new], Return new)
    | Throw message => (store, Throw message)
    end.
Proof.
  unfold createTournament, mbind, service_bind, getFromStorage, lift_result.
  by destruct (simpleHash _).
Qed.

Lemma find_tournament_app_l tid store extra t :
  find_tournament tid store = Some t →
  find_tournament tid (store ++ extra) = Some t.
Proof.
  unfold find_tournament. intros [[i t'] [H ->]]%fmap_Some.
  by rewrite (list_find_app_l _ _ _ _ _ H).
Qed.

Lemma find_tournament_fresh tid store new :
  tid ∉ t_id <$> store → t_id new = tid →
  find_tournament tid (store ++ [new]) = Some new.
Proof.
  intros Hfresh Hid. unfold find_tournament.
  assert (list_find (λ t, t_id t = tid) (store ++ [new])
          = Some (length store, new)) as ->; [|done].
  apply list_find_Some. split_and!.
  - rewrite lookup_app_r by lia. by rewrite Nat.sub_diag.
  - done.
  - intros j y Hy Hj Hidy. rewrite lookup_app_l in Hy by done.
    destruct Hfresh. rewrite <-Hidy. apply list_elem_of_fmap_2.
    by eapply list_elem_of_lookup_2.
Qed.

Lemma refused_start t :
  status t = REGISTRATION_OPEN → length (t_players t) < 2 →
  apply_updates (status_update IN_PROGRESS) t = t.
Proof.
  intros Hst Hlen. unfold apply_updates. rewrite merge_status, Hst. simpl.
  rewrite decide_False by lia. destruct t. simpl in *. by subst.
Qed.

(** X25.  [createTournament] with a fresh generated id, when the
    admin password hashes: the new tournament is appended to the store and
    found under its id; every tournament found before is still found; the
    new tournament has no players, no bracket, the status of [data] and the
    banner read from the assets, whatever banner [data] carries;
    [verifyAdminPassword] accepts the admin password for it; and a request
    to start it while it is open leaves the store as it is. *)
Theorem createTournament_appends (simpleHash : string → result string)
    (super : string) (data : TournamentData) (gameBackground : option string)
    (generatedId h : string) (store : list Tournament) :
  simpleHash (c_adminPassword data) = Return h →
  generatedId ∉ t_id <$> store →
  let out := createTournament simpleHash data gameBackground generatedId store in
  ∃ new,
    out.2 = Return new ∧ out.1 = store ++ [new]
    ∧ find_tournament generatedId out.1 = Some new
    ∧ (∀ tid t, find_tournament tid store = Some t →
         find_tournament tid out.1 = Some t)
    ∧ t_players new = [] ∧ bracket new = None
    ∧ status new = c_status data ∧ bannerUrl new = gameBackground
    ∧ (verifyAdminPassword simpleHash super generatedId (c_adminPassword data)
         out.1).2 = Return true
    ∧ (c_status data = REGISTRATION_OPEN →
       (updateTournament generatedId (status_update IN_PROGRESS) out.1).1
       = out.1).
Proof.
  intros Hh Hfresh out. subst out. rewrite createTournament_run, Hh. cbv zeta.
  set (new := mkTournament _ _ _ _ _ _ _ _ _ _ _ _ _ _ _ _ _ _ _ _ _).
  assert (Hnew : find_tournament generatedId (store ++ [new]) = Some new)
    by (by apply find_tournament_fresh).
  exists new. cbn [fst snd]. split_and!; try done.
  - intros tid t. apply find_tournament_app_l.
  - unfold verifyAdminPassword. case_decide; [done|].
    unfold mbind, service_bind, getFromStorage. rewrite Hnew.
    unfold lift_result, compareHash. rewrite Hh. simpl.
    by rewrite bool_decide_eq_true_2.
  - intros Hst. rewrite updateTournament_run. simpl.
    rewrite fmap_app. f_equal.
    + apply list_eq. intros i. rewrite list_lookup_fmap.
      destruct (store !! i) as [t|] eqn:Ht; simpl; [|done].
      rewrite decide_False; [done|]. intros Hid. destruct Hfresh.
      rewrite <-Hid. apply list_elem_of_fmap_2. by eapply list_elem_of_lookup_2.
    + simpl. rewrite decide_True by done. f_equal.
      apply refused_start; [done|simpl; lia].
Qed.

Lemma createTournament_appends_witness :
  let out := createTournament sample_hash sample_creation (Some "valorant.png")
               "t9" sample_store in
  ∃ new,
    out.2 = Return new ∧ out.1 = sample_store ++ [new]
    ∧ find_tournament "t9" out.1 = Some new
    ∧ (∀ tid t, find_tournament tid sample_store = Some t →
         find_tournament tid out.1 = Some t)
    ∧ t_players new = [] ∧ bracket new = None
    ∧ status new = c_status sample_creation
    ∧ bannerUrl new = Some "valorant.png"
    ∧ (verifyAdminPassword sample_hash "root" "t9"
         (c_adminPassword sample_creation) out.1).2 = Return true
    ∧ (c_status sample_creation = REGISTRATION_OPEN →
       (updateTournament "t9" (status_update IN_PROGRESS) out.1).1 = out.1).
Proof.
  apply (createTournament_appends sample_hash "root" sample_creation
           (Some "valorant.png") "t9" "h:secret" sample_store).
  - reflexivity.
  - compute_done.
Defined.
